(** * PISM stress-balance kernel: a shallow embedding and its properties

    The development follows the C++ sources:
    - [CInt]: the 32-bit [int] of the sources;
    - [Poisson3]: [pad], [dirichlet_scale], the owned-node loops of
      [compute_residual] / [compute_jacobian] and the domain padding of
      [Poisson3::setup] (Poisson3.cc);
    - [Grid]: the iterators [PointsWithGhosts] and [Points] (IceGrid.hh);
    - [fem]: shape functions, quadratures, [Element] and
      [DirichletData] (FETools.cc);
    - [NodeTypes]: [compute_node_type] (Poisson3.cc);
    - [Blatter]: [jacobian_f], [jacobian_basal] and the element part of
      [compute_jacobian] (Blatter.cc);
    - [Tongues]: [remove_narrow_tongues] (remove_narrow_tongues.cc);
    - [Poisson3Element]: the element matrix of [Poisson3::compute_jacobian]
      (Poisson3.cc);
    - [Hydrology]: [NullTransportHydrology::update]
      (PISMNullTransportHydrology.cc);
    - [StressBalanceFactory]: [create] (StressBalance_factory.cc);
    - [IP_L2NormFunctional2S]: [valueAt] and [dot]
      (IP_L2NormFunctional.cc).

    Conventions.  A C++ [int] is a [Z]; every arithmetic operation on it
    is followed by the two's-complement wrap [CInt.wrap].  A C++ [double]
    is idealised as an exact rational number ([Q]): every finite double
    is a rational, and rounding is left out.  Equality of doubles is
    therefore [Qeq] ([==]). *)

From Stdlib Require Import ZArith QArith Qabs Qminmax List Bool Lia Lqa Field FinFun
  Permutation.
From Stdlib Require String Ascii.
Import ListNotations.

Local Open Scope Z_scope.

(* ================================================================= *)
(** * Part I: the embedding *)
(* ================================================================= *)

(** ** 32-bit signed integers *)

Module CInt.

Definition INT_MAX : Z := 2147483647.
Definition INT_MIN : Z := -2147483648.

(** Two's-complement wrap-around of a mathematical integer into [int]. *)
Definition wrap (z : Z) : Z := (z + 2 ^ 31) mod 2 ^ 32 - 2 ^ 31.

Definition in_range (z : Z) : Prop := INT_MIN <= z <= INT_MAX.

Definition add (a b : Z) : Z := wrap (a + b).
Definition sub (a b : Z) : Z := wrap (a - b).
Definition mul (a b : Z) : Z := wrap (a * b).
(** C++ [/] and [%] truncate towards zero. *)
Definition div (a b : Z) : Z := wrap (Z.quot a b).
Definition rem (a b : Z) : Z := Z.rem a b.

End CInt.

(** ** Poisson3.cc *)

Module Poisson3.

(** [int pad(int N, int n_levels)]: one trip of the [for] loop updates
    the pair [(C, k)]. *)
Definition pad_step (Ck : Z * Z) : Z * Z :=
  let (C, k) := Ck in
  (CInt.mul C 2,
   CInt.div (if negb (CInt.rem k 2 =? 0) then CInt.add k 1 else k) 2).

(** The loop [for (int n = 0; n < n_levels; ++n)] runs
    [Z.to_nat n_levels] times (not at all when [n_levels <= 0]). *)
Definition pad_loop (N n_levels : Z) : Z * Z :=
  Nat.iter (Z.to_nat n_levels) pad_step (1, CInt.sub N 1).

Definition pad (N n_levels : Z) : Z :=
  let (C, k) := pad_loop N n_levels in
  CInt.sub (CInt.add (CInt.mul C k) 1) N.

(** The number of nodes after padding, computed without machine limits:
    [2^n_levels * ceil((N - 1) / 2^n_levels) + 1]. *)
Definition padded_size (N n_levels : Z) : Z :=
  2 ^ n_levels * ((N - 1 + 2 ^ n_levels - 1) / 2 ^ n_levels) + 1.

(** [new_lx[Nx - 1] += pad_x] on a [std::vector<PetscInt>]. *)
Fixpoint vector_add_at (l : list Z) (n : nat) (v : Z) : list Z :=
  match l, n with
  | [], _ => []
  | x :: t, O => (x + v) :: t
  | x :: t, S m => x :: vector_add_at t m v
  end.

(** One direction of the block "pad the domain and the grid" of
    [Poisson3::setup].  [lx] are the ownership ranges returned by
    [DMDAGetOwnershipRanges], [Nx] the number of processes in this
    direction, [M] the number of grid points, [dx] the grid spacing
    [m_grid->dx()].  [x_max = Lx] and [x_min = -x_max] are computed
    before the padding. *)
Record PaddedDirection : Type := {
  pd_lx    : list Z;
  pd_M     : Z;
  pd_x_min : Q;
  pd_x_max : Q
}.

Definition setup_pad_direction
  (lx : list Z) (Nx M n_levels : Z) (Lx dx : Q) : PaddedDirection :=
  let x_max := Lx in
  let x_min := Qopp x_max in
  let pad_x := pad M n_levels in
  {| pd_lx    := vector_add_at lx (Z.to_nat (Nx - 1)) pad_x;
     pd_M     := M + pad_x;
     pd_x_min := x_min;
     pd_x_max := (x_max + inject_Z pad_x * dx)%Q |}.

(** [const double u_exterior = 0.0;] *)
Definition u_exterior : Q := 0.

(** Modelled from the spec: the node classes INTERIOR, BOUNDARY and
    EXTERIOR.  The header node_types.hh that declares [enum NodeType]
    is not among the sources; the three tags are given the integer
    codes -1, 0 and 1, and only their being distinct is used. *)
Definition NODE_INTERIOR : Z := -1.
Definition NODE_BOUNDARY : Z := 0.
Definition NODE_EXTERIOR : Z := 1.

(** [struct Parameters].  [node_type] is a [double] that only ever holds
    small integers (a counter or a [NodeType] code), so that the cast
    [(int)P[j][i].node_type] is the identity; it is kept as a [Z]. *)
Record Parameters : Type := {
  bed       : Q;
  thickness : Q;
  node_type : Z
}.

(** [static double dirichlet_scale(double dx, double dy, double dz)].
    The last summand is written [1.0 / dz * dz] in the source, which
    C++ parses as [(1.0 / dz) * dz]. *)
Definition dirichlet_scale (dx dy dz : Q) : Q :=
  (dx * dy * dz * (1 / (dx * dx) + 1 / (dy * dy) + 1 / dz * dz))%Q.

(** The scale as the specification writes it,
    [dx*dy*dz*(1/dx^2 + 1/dy^2 + 1/dz^2)]. *)
Definition documented_scale (dx dy dz : Q) : Q :=
  (dx * dy * dz * (1 / (dx * dx) + 1 / (dy * dy) + 1 / (dz * dz)))%Q.

(** [static double xy(double min, double delta, int k)] and
    [static double z(double b, double H, int Mz, int k)]. *)
Definition xy (min delta : Q) (k : Z) : Q := (min + inject_Z k * delta)%Q.
Definition z (b H : Q) (Mz k : Z) : Q :=
  (b + H * inject_Z k / (inject_Z Mz - 1))%Q.

(** [static bool dirichlet_node(info, I)]: the top and the bottom
    levels. *)
Definition dirichlet_node (mz k : Z) : bool :=
  (k =? 0) || (k =? CInt.sub mz 1).

(** [u_exact]: [pow(a, 2.0)] is the square. *)
Definition u_exact (x y z : Q) : Q :=
  (x * y * ((z + 1) * (z + 1))
   + (2 * (y + 1)) / ((y + 1) * (y + 1) + (x + 2) * (x + 2)))%Q.

(** The part of the grid description the owned-node loops read:
    [dx], [dy] (computed from the domain bounds), [x_min], [y_min],
    [m_grid_info.min_thickness] and [info->mz]. *)
Record NodeLoopInfo : Type := {
  nl_dx : Q;
  nl_dy : Q;
  nl_x_min : Q;
  nl_y_min : Q;
  nl_min_thickness : Q;
  nl_mz : Z
}.

(** [dz = std::max(H, m_grid_info.min_thickness) / (info->mz - 1)]. *)
Definition node_dz (g : NodeLoopInfo) (p : Parameters) : Q :=
  (Qmax (thickness p) (nl_min_thickness g) / inject_Z (CInt.sub (nl_mz g) 1))%Q.

(** Body of the loop over owned nodes at the start of
    [Poisson3::compute_residual]: the value stored in [R[k][j][i]];
    [p = P[j][i]] and [x = x[k][j][i]]. *)
Definition residual_owned_node
  (g : NodeLoopInfo) (p : Parameters) (i j k : Z) (x : Q) : Q :=
  if node_type p =? NODE_EXTERIOR then
    (dirichlet_scale (nl_dx g) (nl_dy g) (node_dz g p) * (x - u_exterior))%Q
  else if dirichlet_node (nl_mz g) k then
    let xx := xy (nl_x_min g) (nl_dx g) i in
    let yy := xy (nl_y_min g) (nl_dy g) j in
    let zz := z (bed p) (thickness p) (nl_mz g) k in
    (dirichlet_scale (nl_dx g) (nl_dy g) (node_dz g p) * (x - u_exact xx yy zz))%Q
  else 0%Q.

(** Body of the loop over owned nodes at the end of
    [Poisson3::compute_jacobian]: the value added to the diagonal entry
    of the row of node [(i, j, k)], if any. *)
Definition jacobian_owned_node
  (g : NodeLoopInfo) (p : Parameters) (k : Z) : option Q :=
  if (node_type p =? NODE_EXTERIOR) || dirichlet_node (nl_mz g) k then
    Some (dirichlet_scale (nl_dx g) (nl_dy g) (node_dz g p))
  else None.

(** The vertical levels built by the constructor [Poisson3::Poisson3]:
    [mz = Mz + pad(Mz, n_levels)], [sigma[i] = i * dz] with
    [dz = 1.0 / (mz - 1)], and [sigma.back() = 1.0] at the end.
    [std::vector<double> sigma(mz)] cannot be built for a negative
    [mz], and [back()] needs an element: [None] when [mz <= 0]. *)
Fixpoint set_back (l : list Q) (v : Q) : list Q :=
  match l with
  | [] => []
  | [_] => [v]
  | x :: t => x :: set_back t v
  end.

Definition sigma_levels (Mz n_levels : Z) : option (list Q) :=
  let mz := CInt.add Mz (pad Mz n_levels) in
  if mz <=? 0 then None
  else
    let dz := (1 / inject_Z (CInt.sub mz 1))%Q in
    let sigma := map (fun i => (inject_Z (Z.of_nat i) * dz)%Q) (seq 0 (Z.to_nat mz)) in
    Some (set_back sigma 1%Q).

(** Ceiling of [a / b]. *)
Definition cdiv (a b : Z) : Z := (a + b - 1) / b.

(** An exterior node of a grid with unit spacing, two levels and the
    threshold 0.1 of [Poisson3::setup]. *)
Definition unit_grid : NodeLoopInfo :=
  {| nl_dx := 1%Q; nl_dy := 1%Q; nl_x_min := (-1)%Q; nl_y_min := (-1)%Q;
     nl_min_thickness := (1 # 10)%Q; nl_mz := 2 |}.
Definition ice_free_node : Parameters :=
  {| bed := 0%Q; thickness := 0%Q; node_type := NODE_EXTERIOR |}.

End Poisson3.


(** ** IceGrid.hh: grid iterators *)

Module Grid.

(** [enum Periodicity]. *)
Inductive Periodicity : Type :=
  | NOT_PERIODIC | X_PERIODIC | Y_PERIODIC | XY_PERIODIC.

(** The part of [IceGrid] the iterators and the element code read:
    the patch of the calling process ([xs], [xm], [ys], [ym]), the
    global sizes and the periodicity. *)
Record IceGrid : Type := {
  xs : Z;
  xm : Z;
  ys : Z;
  ym : Z;
  Mx : Z;
  My : Z;
  periodicity : Periodicity
}.

(** [class PointsWithGhosts]: the private members. *)
Record PointsWithGhosts : Type := {
  m_i : Z;
  m_j : Z;
  m_i_first : Z;
  m_i_last : Z;
  m_j_first : Z;
  m_j_last : Z;
  m_done : bool
}.

(** The constructor.  [stencil_width] is an [unsigned int]: the sums
    are formed modulo [2^32] and stored into [int] members, which is
    the wrap of the exact result. *)
Definition PointsWithGhosts_new (g : IceGrid) (stencil_width : Z) : PointsWithGhosts :=
  let i_first := CInt.wrap (xs g - stencil_width) in
  let i_last  := CInt.wrap (xs g + xm g + stencil_width - 1) in
  let j_first := CInt.wrap (ys g - stencil_width) in
  let j_last  := CInt.wrap (ys g + ym g + stencil_width - 1) in
  {| m_i := i_first; m_j := j_first;
     m_i_first := i_first; m_i_last := i_last;
     m_j_first := j_first; m_j_last := j_last;
     m_done := false |}.

(** [Points(g)] is [PointsWithGhosts(g, 0)]. *)
Definition Points_new (g : IceGrid) : PointsWithGhosts := PointsWithGhosts_new g 0.

(** [void next()]. *)
Definition next (p : PointsWithGhosts) : PointsWithGhosts :=
  let j1 := CInt.add (m_j p) 1 in
  let '(i2, j2) :=
    if m_j_last p <? j1 then (CInt.add (m_i p) 1, m_j_first p) else (m_i p, j1) in
  if m_i_last p <? i2 then
    {| m_i := m_i_first p; m_j := j2;
       m_i_first := m_i_first p; m_i_last := m_i_last p;
       m_j_first := m_j_first p; m_j_last := m_j_last p;
       m_done := true |}
  else
    {| m_i := i2; m_j := j2;
       m_i_first := m_i_first p; m_i_last := m_i_last p;
       m_j_first := m_j_first p; m_j_last := m_j_last p;
       m_done := m_done p |}.

(** The loop [for (...; p; p.next()) { body(p.i(), p.j()) }]: the
    sequence of index pairs handed to the body.  [None] when the fuel
    runs out before [m_done] is set. *)
Fixpoint visit (fuel : nat) (p : PointsWithGhosts) : option (list (Z * Z)) :=
  if m_done p then Some []
  else match fuel with
       | O => None
       | S fuel' =>
           match visit fuel' (next p) with
           | Some l => Some ((m_i p, m_j p) :: l)
           | None => None
           end
       end.

(** The integers [a, a + 1, ..., a + n - 1]. *)
Definition zrange (a : Z) (n : nat) : list Z :=
  map (fun d => a + Z.of_nat d) (seq 0 n).

(** The rectangle [[i0, i0 + ni) x [j0, j0 + nj)], first index slowest. *)
Definition rectangle (i0 : Z) (ni : nat) (j0 : Z) (nj : nat) : list (Z * Z) :=
  flat_map (fun i => map (fun j => (i, j)) (zrange j0 nj)) (zrange i0 ni).

(** Ownership test: [(i, j)] lies in the patch of [g]. *)
Definition owns (g : IceGrid) (ij : Z * Z) : bool :=
  let (i, j) := ij in
  (xs g <=? i) && (i <? xs g + xm g) && (ys g <=? j) && (j <? ys g + ym g).

(** Valid global indices. *)
Definition in_global (g : IceGrid) (ij : Z * Z) : bool :=
  let (i, j) := ij in
  (0 <=? i) && (i <? Mx g) && (0 <=? j) && (j <? My g).

(** A patch is well formed when it is not empty and the iterator's
    arithmetic for the halo width [w] stays within [int]. *)
Definition patch_ok (g : IceGrid) (w : Z) : Prop :=
  0 < xm g /\ 0 < ym g /\ 0 <= w /\
  CInt.INT_MIN <= xs g - w /\ xs g + xm g + w - 1 < CInt.INT_MAX /\
  CInt.INT_MIN <= ys g - w /\ ys g + ym g + w - 1 < CInt.INT_MAX.

(** The global index space [[0, MX) x [0, MY)] is partitioned by the
    patches of [procs]: every index pair of the space lies in exactly
    one patch, any other pair in none. *)
Definition in_space (MX MY : Z) (ij : Z * Z) : bool :=
  let (i, j) := ij in
  (0 <=? i) && (i <? MX) && (0 <=? j) && (j <? MY).

Definition partitions (MX MY : Z) (procs : list IceGrid) : Prop :=
  forall ij : Z * Z,
    length (filter (fun q => owns q ij) procs) =
    if in_space MX MY ij then 1%nat else 0%nat.

(** The index pairs visited by the loops [for (Points p(grid); p; p.next())]
    of all processes, one after the other. *)
Fixpoint visits_of_all (fuel : nat) (procs : list IceGrid) : option (list (Z * Z)) :=
  match procs with
  | [] => Some []
  | q :: rest =>
      match visit fuel (Points_new q), visits_of_all fuel rest with
      | Some l, Some r => Some (l ++ r)
      | _, _ => None
      end
  end.

(** [inline bool in_null_strip(const IceGrid& grid, int i, int j,
    double strip_width)].  [x] and [y] are the coordinate accessors
    [grid.x(i)] and [grid.y(j)]. *)
Definition in_null_strip
  (x y : Z -> Q) (grid : IceGrid) (i j : Z) (strip_width : Q) : bool :=
  Qle_bool 0 strip_width
  && (Qle_bool (x i) (x 0 + strip_width)
      || Qle_bool (x (Mx grid - 1) - strip_width) (x i)
      || Qle_bool (y j) (y 0 + strip_width)
      || Qle_bool (y (My grid - 1) - strip_width) (y j)).

(** The first and the last index of the loop over
    [PointsWithGhosts(g, w)] fit an [int] in both directions, with
    room for the [+ 1] of [next]. *)
Definition widened_in_int (g : IceGrid) (w : Z) : Prop :=
  CInt.INT_MIN <= xs g - w < CInt.INT_MAX /\
  CInt.INT_MIN <= xs g + xm g + w - 1 < CInt.INT_MAX /\
  CInt.INT_MIN <= ys g - w < CInt.INT_MAX /\
  CInt.INT_MIN <= ys g + ym g + w - 1 < CInt.INT_MAX.

Definition index_eq_dec (a b : Z * Z) : {a = b} + {a <> b}.
Proof. decide equality; apply Z.eq_dec. Defined.

(** Two concrete grids: a 2 x 2 grid owned by one process, bounded and
    periodic. *)
Definition small_grid : IceGrid :=
  {| xs := 0; xm := 2; ys := 0; ym := 2; Mx := 2; My := 2;
     periodicity := NOT_PERIODIC |}.
Definition small_periodic_grid : IceGrid :=
  {| xs := 0; xm := 2; ys := 0; ym := 2; Mx := 2; My := 2;
     periodicity := XY_PERIODIC |}.

(** A 4 x 2 grid split between two processes along x. *)
Definition left_patch : IceGrid :=
  {| xs := 0; xm := 2; ys := 0; ym := 2; Mx := 4; My := 2;
     periodicity := NOT_PERIODIC |}.
Definition right_patch : IceGrid :=
  {| xs := 2; xm := 2; ys := 0; ym := 2; Mx := 4; My := 2;
     periodicity := NOT_PERIODIC |}.

End Grid.

(** ** FETools.cc: finite-element kernel *)

Module fem.

Local Open Scope Q_scope.

(** [struct QuadPoint] and [struct Germ]. *)
Record QuadPoint : Type := { xi : Q; eta : Q }.
Record Germ : Type := { val : Q; dx : Q; dy : Q }.

(** A [double J[2][2]]. *)
Record Matrix2 : Type := { J00 : Q; J01 : Q; J10 : Q; J11 : Q }.

(** [static double determinant(const double J[2][2])]. *)
Definition determinant (J : Matrix2) : Q := J00 J * J11 J - J10 J * J01 J.

(** [static Germ multiply(const double A[2][2], const Germ &v)]. *)
Definition multiply (A : Matrix2) (v : Germ) : Germ :=
  {| val := val v;
     dx  := dx v * J00 A + dy v * J01 A;
     dy  := dx v * J10 A + dy v * J11 A |}.

(** [static void invert(const double A[2][2], double A_inv[2][2])]. *)
Definition invert (A : Matrix2) : Matrix2 :=
  let det_A := determinant A in
  {| J00 :=   J11 A / det_A;
     J01 := - J01 A / det_A;
     J10 := - J10 A / det_A;
     J11 :=   J00 A / det_A |}.

(** [q1::n_chi]. *)
Definition q1_n_chi : nat := 4.

(** Coordinates of the nodes of the Q1 reference element. *)
Definition q1_xi  (k : nat) : Q := nth k [-1;  1; 1; -1] 0.
Definition q1_eta (k : nat) : Q := nth k [-1; -1; 1;  1] 0.

(** [q1::chi]. *)
Definition q1_chi (k : nat) (pt : QuadPoint) : Germ :=
  {| val := (25 # 100) * (1 + q1_xi k * xi pt) * (1 + q1_eta k * eta pt);
     dx  := (25 # 100) * q1_xi k * (1 + q1_eta k * eta pt);
     dy  := (25 # 100) * q1_eta k * (1 + q1_xi k * xi pt) |}.

(** [p1::chi]; the fourth function is the dummy one. *)
Definition p1_chi (k : nat) (pt : QuadPoint) : Germ :=
  match k with
  | 0%nat => {| val := 1 - xi pt - eta pt; dx := -1; dy := -1 |}
  | 1%nat => {| val := xi pt;  dx := 1; dy := 0 |}
  | 2%nat => {| val := eta pt; dx := 0; dy := 1 |}
  | _     => {| val := 0; dx := 0; dy := 0 |}
  end.

(** [class Quadrature]: the number of points, the Jacobian of the map
    from the reference element, the weights and the germs
    [m_germs[q][k]]. *)
Record Quadrature : Type := {
  m_Nq    : nat;
  m_J     : Matrix2;
  m_W     : list Q;
  m_germs : list (list Germ)
}.

(** [static void tensor_product_quadrature(n, points1, weights1,
    points, weights)]: [q] runs with [i] fastest. *)
Definition tensor_product_quadrature
  (n : nat) (points1 weights1 : list Q) : list QuadPoint * list Q :=
  (flat_map (fun j => map (fun i => {| xi := nth i points1 0; eta := nth j points1 0 |})
                          (seq 0 n)) (seq 0 n),
   flat_map (fun j => map (fun i => nth i weights1 0 * nth j weights1 0)
                          (seq 0 n)) (seq 0 n)).

(** [void Quadrature::initialize(f, n_chi, points, W)] on a quadrature
    whose [m_Nq] and [m_J] were set by the constructor. *)
Definition initialize
  (Nq : nat) (J : Matrix2) (f : nat -> QuadPoint -> Germ) (n_chi : nat)
  (points : list QuadPoint) (W : list Q) : Quadrature :=
  let J_inv := invert J in
  let J_det := determinant J in
  {| m_Nq := Nq;
     m_J  := J;
     m_W  := map (fun q => J_det * nth q W 0) (seq 0 Nq);
     m_germs :=
       map (fun q => map (fun k => multiply J_inv (f k (nth q points {| xi := 0; eta := 0 |})))
                         (seq 0 n_chi))
           (seq 0 Nq) |}.

(** The constructor of [UniformQxQuadrature] sets the Jacobian. *)
Definition UniformQxQuadrature_J (dx dy scaling : Q) : Matrix2 :=
  {| J00 := (5 # 10) * dx / scaling; J01 := 0;
     J10 := 0; J11 := (5 # 10) * dy / scaling |}.

(** Sum of the stored weights. *)
Definition total_weight (quad : Quadrature) : Q := fold_right Qplus 0 (m_W quad).

Section Gaussian.

(** [sqrt] of <cmath>: any function; nothing below depends on what it
    returns. *)
Variable sqrt : Q -> Q.

Definition Q1Quadrature4 (dx dy L : Q) : Quadrature :=
  let A := 1 / sqrt 3 in
  let points2 := [- A; A] in
  let weights2 := [1; 1] in
  let (points, W) := tensor_product_quadrature 2 points2 weights2 in
  initialize 4 (UniformQxQuadrature_J dx dy L) q1_chi q1_n_chi points W.

Definition Q1Quadrature9 (dx dy L : Q) : Quadrature :=
  let A := 0 in
  let B := sqrt (6 # 10) in
  let points3 := [- B; A; B] in
  let w1 := 5 / 9 in
  let w2 := 8 / 9 in
  let weights3 := [w1; w2; w1] in
  let (points, W) := tensor_product_quadrature 3 points3 weights3 in
  initialize 9 (UniformQxQuadrature_J dx dy L) q1_chi q1_n_chi points W.

Definition Q1Quadrature16 (dx dy L : Q) : Quadrature :=
  let A := sqrt (3 / 7 - (2 / 7) * sqrt (6 / 5)) in
  let B := sqrt (3 / 7 + (2 / 7) * sqrt (6 / 5)) in
  let points4 := [- B; - A; A; B] in
  let w1 := (18 + sqrt 30) / 36 in
  let w2 := (18 - sqrt 30) / 36 in
  let weights4 := [w2; w1; w1; w2] in
  let (points, W) := tensor_product_quadrature 4 points4 weights4 in
  initialize 16 (UniformQxQuadrature_J dx dy L) q1_chi q1_n_chi points W.

End Gaussian.

(** The constructor of [P1Quadrature] sets the Jacobian by a [switch]
    over [N] without a default: for [N > 3] the matrix stays
    uninitialised ([None]). *)
Definition P1Quadrature_J (N : nat) (dx dy L : Q) : option Matrix2 :=
  match N with
  | 0%nat => Some {| J00 := dx / L; J01 := 0; J10 := 0; J11 := dy / L |}
  | 1%nat => Some {| J00 := 0; J01 := dy / L; J10 := - dx / L; J11 := 0 |}
  | 2%nat => Some {| J00 := - dx / L; J01 := 0; J10 := 0; J11 := - dy / L |}
  | 3%nat => Some {| J00 := 0; J01 := - dy / L; J10 := dx / L; J11 := 0 |}
  | _ => None
  end.

(** [static void permute(const unsigned int p[], Germ f[])]. *)
Definition permute (p : list nat) (f : list Germ) : list Germ :=
  map (fun k => nth (nth k p 0%nat) f {| val := 0; dx := 0; dy := 0 |}) (seq 0 q1_n_chi).

Definition P1Quadrature3 (N : nat) (dx dy L : Q) : option Quadrature :=
  match P1Quadrature_J N dx dy L with
  | None => None
  | Some J =>
      let one_over_six := 1 / 6 in
      let two_over_three := 2 / 3 in
      let points := [ {| xi := two_over_three; eta := one_over_six |};
                      {| xi := one_over_six;   eta := two_over_three |};
                      {| xi := one_over_six;   eta := one_over_six |} ] in
      let W := [one_over_six; one_over_six; one_over_six] in
      let quad := initialize 3 J p1_chi q1_n_chi points W in
      let X := 3%nat in
      let p := [ [0; 1; X; 2]; [2; 0; 1; X]; [X; 2; 0; 1]; [1; X; 2; 0] ]%nat in
      Some {| m_Nq := m_Nq quad; m_J := m_J quad; m_W := m_W quad;
              m_germs := map (permute (nth N p [])) (m_germs quad) |}
  end.

(** *** [Element] and the Jacobian matrix *)

(** PETSc's [MatStencil], the fields the 2D code sets. *)
Record MatStencil : Type := { ms_i : Z; ms_j : Z; ms_k : Z }.

(** [l[n] = v] on an array. *)
Fixpoint array_set {A : Type} (l : list A) (n : nat) (v : A) : list A :=
  match l, n with
  | [], _ => []
  | _ :: t, O => v :: t
  | x :: t, S m => x :: array_set t m v
  end.

(** [class Element]: the grid, the position and the row and column
    stencils of the four nodes. *)
Record Element : Type := {
  m_grid : Grid.IceGrid;
  m_i : Z;
  m_j : Z;
  m_row : list MatStencil;
  m_col : list MatStencil
}.

Definition m_i_offset (k : nat) : Z := nth k [0; 1; 1; 0]%Z 0%Z.
Definition m_j_offset (k : nat) : Z := nth k [0; 0; 1; 1]%Z 0%Z.

Section Assembly.

(** [Element::m_invalid_dof], declared in FETools.hh (not among the
    sources): the index that marks a row or a column as invalid. *)
Variable m_invalid_dof : Z.

Definition invalid_stencil : MatStencil :=
  {| ms_i := m_invalid_dof; ms_j := m_invalid_dof; ms_k := 1 |}.

(** [void Element::mark_row_invalid(int k)] and
    [void Element::mark_col_invalid(int k)]. *)
Definition mark_row_invalid (e : Element) (k : nat) : Element :=
  {| m_grid := m_grid e; m_i := m_i e; m_j := m_j e;
     m_row := array_set (m_row e) k invalid_stencil;
     m_col := m_col e |}.

Definition mark_col_invalid (e : Element) (k : nat) : Element :=
  {| m_grid := m_grid e; m_i := m_i e; m_j := m_j e;
     m_row := m_row e;
     m_col := array_set (m_col e) k invalid_stencil |}.

(** The test of [Element::reset]: node [(pism_i, pism_j)] is not owned
    by the local rank. *)
Definition not_owned (g : Grid.IceGrid) (pism_i pism_j : Z) : bool :=
  (pism_i <? Grid.xs g)
  || (CInt.sub (CInt.add (Grid.xs g) (Grid.xm g)) 1 <? pism_i)
  || (pism_j <? Grid.ys g)
  || (CInt.sub (CInt.add (Grid.ys g) (Grid.ym g)) 1 <? pism_j).

(** [void Element::reset(int i, int j)]. *)
Definition reset (e : Element) (i j : Z) : Element :=
  let stencils :=
    map (fun k => {| ms_i := CInt.add i (m_i_offset k);
                     ms_j := CInt.add j (m_j_offset k);
                     ms_k := 0 |}) (seq 0 q1_n_chi) in
  let e1 := {| m_grid := m_grid e; m_i := i; m_j := j;
               m_row := stencils; m_col := stencils |} in
  fold_left
    (fun e' k =>
       let s := nth k (m_row e') invalid_stencil in
       if not_owned (m_grid e') (ms_i s) (ms_j s) then mark_row_invalid e' k else e')
    (seq 0 q1_n_chi) e1.

(** The constructor [Element::Element(const IceGrid &grid)] stores the
    grid and calls [reset(0, 0)]. *)
Definition Element_new (grid : Grid.IceGrid) : Element :=
  reset {| m_grid := grid; m_i := 0; m_j := 0; m_row := []; m_col := [] |} 0 0.

(** [void Element::nodal_values(const IceModelVec2Int &x_global, int *result)].
    An [IceModelVec2Int] holds integers, read with [as_int(i, j)]. *)
Definition nodal_values (e : Element) (x_global : Z -> Z -> Z) : list Z :=
  map (fun k => x_global (CInt.add (m_i e) (m_i_offset k))
                         (CInt.add (m_j e) (m_j_offset k)))
      (seq 0 q1_n_chi).

(** The comparison [v > 0.5] of an integer value with the [double] 0.5. *)
Definition exceeds_half (v : Z) : bool := negb (Qle_bool (inject_Z v) (5 # 10)).

(** The matrix: one block of type [B] per pair of nodes [(i, j)];
    [B] is a number for one degree of freedom per node and a 2 x 2
    block for two. *)
Variable B : Type.
Variable Bplus : B -> B -> B.
Variable Bzero : B.

Definition Mat : Type := Z * Z -> Z * Z -> B.

(** [MatZeroEntries]. *)
Definition zero_matrix : Mat := fun _ _ => Bzero.

Definition index_eqb (a b : Z * Z) : bool :=
  (fst a =? fst b)%Z && (snd a =? snd b)%Z.

(** [J[row][col] += v]. *)
Definition mat_add (J : Mat) (row col : Z * Z) (v : B) : Mat :=
  fun r c => if index_eqb r row && index_eqb c col then Bplus (J r c) v else J r c.

(** PETSc's [MatSetValuesBlockedStencil(J, m, rows, n, cols, K, ADD_VALUES)],
    which is not part of the sources.  It is modelled as the comment
    of [Element::add_contribution] describes it: a row or a column
    with a negative index is ignored, every other block [K r c] is
    added at its place.  In a 2D system [MatStencil::k] is not read. *)
Definition stencil_valid (s : MatStencil) : bool := (0 <=? ms_i s)%Z && (0 <=? ms_j s)%Z.

Definition MatSetValuesBlockedStencil
  (J : Mat) (rows cols : list MatStencil) (K : nat -> nat -> B) : Mat :=
  fold_left
    (fun J1 r =>
       fold_left
         (fun J2 c =>
            let sr := nth r rows invalid_stencil in
            let sc := nth c cols invalid_stencil in
            if stencil_valid sr && stencil_valid sc
            then mat_add J2 (ms_i sr, ms_j sr) (ms_i sc, ms_j sc) (K r c)
            else J2)
         (seq 0 (length cols)) J1)
    (seq 0 (length rows)) J.

(** [void Element::add_contribution(const double *K, Mat J)]; [K r c]
    is the block of the row-major array [K] for the local nodes [r]
    and [c]. *)
Definition add_contribution (e : Element) (K : nat -> nat -> B) (J : Mat) : Mat :=
  MatSetValuesBlockedStencil J (m_row e) (m_col e) K.

(** [class DirichletData]: the indicator field and the weight. *)
Record DirichletData : Type := {
  m_indices : Z -> Z -> Z;
  m_weight : Q
}.

(** [void DirichletData::constrain(Element &element)]. *)
Definition constrain (dd : DirichletData) (element : Element) : Element :=
  let m_indices_e := nodal_values element (m_indices dd) in
  fold_left
    (fun e k =>
       if exceeds_half (nth k m_indices_e 0%Z)
       then mark_col_invalid (mark_row_invalid e k) k
       else e)
    (seq 0 q1_n_chi) element.

(** [fix_jacobian(Mat J)] of [DirichletData_Scalar] and
    [DirichletData_Vector]; [identity] is the block built from
    [m_weight].  The source sets [row.i] and [row.j] and leaves
    [row.k] unset.  [None] when the loop over [Points] runs out of
    fuel. *)
Definition fix_jacobian
  (fuel : nat) (grid : Grid.IceGrid) (dd : DirichletData) (identity : B) (J : Mat)
  : option Mat :=
  match Grid.visit fuel (Grid.Points_new grid) with
  | None => None
  | Some points =>
      Some (fold_left
              (fun J1 (p : Z * Z) =>
                 let (i, j) := p in
                 if exceeds_half (m_indices dd i j) then
                   let row := {| ms_i := i; ms_j := j; ms_k := 0 |} in
                   MatSetValuesBlockedStencil J1 [row] [row] (fun _ _ => identity)
                 else J1)
              points J)
  end.

(** The protocol of the callers (section 4.4 of the specification, and
    the element loops of the sources): the matrix is zeroed; every
    element is reset to its position, constrained and added with its
    local matrix [K i j]; the Dirichlet rows are fixed afterwards. *)
Definition assemble_element
  (grid : Grid.IceGrid) (dd : DirichletData) (K : Z -> Z -> nat -> nat -> B)
  (J : Mat) (ij : Z * Z) : Mat :=
  let (i, j) := ij in
  add_contribution (constrain dd (reset (Element_new grid) i j)) (K i j) J.

Definition assemble_jacobian
  (fuel : nat) (grid : Grid.IceGrid) (dd : DirichletData) (identity : B)
  (K : Z -> Z -> nat -> nat -> B) (elements : list (Z * Z)) : option Mat :=
  fix_jacobian fuel grid dd identity
    (fold_left (assemble_element grid dd K) elements zero_matrix).

End Assembly.





(** [const double identity = m_weight;] *)
Definition identity_scalar (dd : DirichletData) : Q := m_weight dd.


(** Blocks of a row-major element matrix [K] with [Nk = 4] nodes. *)
Definition scalar_block (K : list Q) (r c : nat) : Q := nth (r * 4 + c) K 0.


(** [DirichletData_Scalar::fix_jacobian] after a scalar assembly and
    [DirichletData_Vector::fix_jacobian] after a vector one. *)
Definition jacobian_scalar
  (m_invalid_dof : Z) (fuel : nat) (grid : Grid.IceGrid) (dd : DirichletData)
  (K : Z -> Z -> list Q) (elements : list (Z * Z)) : option (Mat Q) :=
  assemble_jacobian m_invalid_dof Q Qplus 0 fuel grid dd (identity_scalar dd)
    (fun i j => scalar_block (K i j)) elements.


(** A Dirichlet indicator that marks the node [(1, 1)] only, with
    weight 3, and element matrices filled with ones. *)
Definition corner_dirichlet : DirichletData :=
  {| m_indices := fun i j => if ((i =? 1) && (j =? 1))%Z then 1%Z else 0%Z;
     m_weight := 3 |}.
Definition ones (n : nat) : list Q := repeat 1 n.

(** *** Piecewise-constant functions, sides of the reference element,
    element ranges and the uniform quadratures *)

(** [q0::chi]: piecewise-constant shape functions, one per quadrant of
    the reference element. *)
Definition q0_n_chi : nat := 4.

Definition q0_chi (k : nat) (pt : QuadPoint) : Germ :=
  let xi_le := Qle_bool (xi pt) 0 in
  let eta_le := Qle_bool (eta pt) 0 in
  {| val := if (Nat.eqb k 0 && xi_le && eta_le)
               || (Nat.eqb k 1 && negb xi_le && eta_le)
               || (Nat.eqb k 2 && negb xi_le && negb eta_le)
               || (Nat.eqb k 3 && xi_le && negb eta_le)
            then 1 else 0;
     dx := 0;
     dy := 0 |}.

(** [Vector2] and [static Vector2 multiply(const double A[2][2], const Vector2 &v)]. *)
Record Vector2 : Type := { u : Q; v : Q }.

Definition multiply_Vector2 (A : Matrix2) (w : Vector2) : Vector2 :=
  {| u := u w * J00 A + v w * J01 A;
     v := u w * J10 A + v w * J11 A |}.

(** [q1::ElementGeometry]: the outward normals of the sides (south,
    east, north, west) and the nodes incident to a side. *)
Definition q1_n_sides : nat := 4.

Definition q1_normals : list Vector2 :=
  [ {| u := 0; v := -1 |}; {| u := 1; v := 0 |};
    {| u := 0; v := 1 |};  {| u := -1; v := 0 |} ].

Definition q1_normal (side : nat) : Vector2 := nth side q1_normals {| u := 0; v := 0 |}.

Definition q1_incident_node_impl (side k : nat) : nat :=
  nth k (nth side [[0; 1]; [1; 2]; [2; 3]; [3; 0]]%nat []) 0%nat.

(** [static QuadPoint r_star(unsigned int side, double t)] of the
    namespace [q1]. *)
Definition q1_r_star (side : nat) (t : Q) : QuadPoint :=
  let L := (5 # 10) * (t + 1) in
  let j0 := side in
  let j1 := ((side + 1) mod q1_n_chi)%nat in
  {| xi  := (1 - L) * q1_xi j0  + L * q1_xi j1;
     eta := (1 - L) * q1_eta j0 + L * q1_eta j1 |}.

Section Boundary.

Variable sqrt : Q -> Q.

(** The constructor of [q1::BoundaryQuadrature2]: the Jacobian, the
    tangent [dr = multiply(J, dr_star[side])] and the germs
    [m_germs[side][q][k]].  The weights multiply [dr.magnitude()],
    which Vector2.hh declares; they are left out. *)
Definition BoundaryQuadrature2_J (dx dy L : Q) : Matrix2 :=
  {| J00 := (5 # 10) * dx / L; J01 := 0;
     J10 := 0; J11 := (5 # 10) * dy / L |}.

Definition q1_dr_star : list Vector2 :=
  [ {| u := 1; v := 0 |}; {| u := 0; v := 1 |};
    {| u := -1; v := 0 |}; {| u := 0; v := -1 |} ].

Definition BoundaryQuadrature2_dr (dx dy L : Q) (side : nat) : Vector2 :=
  multiply_Vector2 (BoundaryQuadrature2_J dx dy L)
                   (nth side q1_dr_star {| u := 0; v := 0 |}).

Definition BoundaryQuadrature2_germ (dx dy L : Q) (side q k : nat) : Germ :=
  let points := [ (-1) / sqrt 3; 1 / sqrt 3 ] in
  let J_inv := invert (BoundaryQuadrature2_J dx dy L) in
  let pt := q1_r_star side (nth q points 0) in
  multiply J_inv (q1_chi (q1_incident_node_impl side k) pt).

End Boundary.

(** The coordinates of the nodes of the P1 reference element,
    [static const double xi[n_chi]] and [eta[n_chi]] of the namespace
    [p1]. *)
Definition p1_xi  (k : nat) : Q := nth k [0; 1; 0] 0.
Definition p1_eta (k : nat) : Q := nth k [0; 0; 1] 0.

(** [Quadrature::test_function_values(q, k)]: the germ [m_germs[q][k]]. *)
Definition test_function_values (quad : Quadrature) (q k : nat) : Germ :=
  nth k (nth q (m_germs quad) []) {| val := 0; dx := 0; dy := 0 |}.

(** At every quadrature point the four stored germs add up to the
    germ of the constant 1. *)
Definition germs_partition_of_unity (quad : Quadrature) : Prop :=
  forall q : nat, (q < m_Nq quad)%nat ->
    let g := test_function_values quad q in
    val (g 0%nat) + val (g 1%nat) + val (g 2%nat) + val (g 3%nat) == 1 /\
    dx (g 0%nat) + dx (g 1%nat) + dx (g 2%nat) + dx (g 3%nat) == 0 /\
    dy (g 0%nat) + dy (g 1%nat) + dy (g 2%nat) + dy (g 3%nat) == 0.

(** A germ that is zero. *)
Definition zero_germ (g : Germ) : Prop := val g == 0 /\ dx g == 0 /\ dy g == 0.

(** [class ElementIterator]: the ranges of the elements (named by
    their lower left node) a process works on, with and without the
    ghost elements. *)
Module ElementIterator.

Record t : Type := {
  xs : Z; xm : Z; ys : Z; ym : Z;
  lxs : Z; lxm : Z; lys : Z; lym : Z
}.

(** The values of [enum Periodicity]. *)
Definition Periodicity_value (p : Grid.Periodicity) : Z :=
  match p with
  | Grid.NOT_PERIODIC => 0
  | Grid.X_PERIODIC => 1
  | Grid.Y_PERIODIC => 2
  | Grid.XY_PERIODIC => 3
  end%Z.

(** [ElementIterator::ElementIterator(const IceGrid &g)].  [g.Mx()] and
    [g.My()] are [unsigned int]: [(int)g.Mx() - 2] and the value
    stored by [xf = g.Mx() - 2] are wraps of [Mx - 2]. *)
Definition new (g : Grid.IceGrid) : t :=
  let xs0 := CInt.sub (Grid.xs g) 1 in
  let xf0 := CInt.sub (CInt.add (Grid.xs g) (Grid.xm g)) 1 in
  let ys0 := CInt.sub (Grid.ys g) 1 in
  let yf0 := CInt.sub (CInt.add (Grid.ys g) (Grid.ym g)) 1 in
  let lxs0 := Grid.xs g in
  let lxf0 := CInt.sub (CInt.add lxs0 (Grid.xm g)) 1 in
  let lys0 := Grid.ys g in
  let lyf0 := CInt.sub (CInt.add lys0 (Grid.ym g)) 1 in
  let '(xs1, xf1, lxf1) :=
    if (Z.land (Periodicity_value (Grid.periodicity g))
               (Periodicity_value Grid.X_PERIODIC) =? 0)%Z
    then
      let xs1 := if (xs0 <? 0)%Z then 0%Z else xs0 in
      if (CInt.sub (CInt.wrap (Grid.Mx g)) 2 <? xf0)%Z
      then (xs1, CInt.wrap (Grid.Mx g - 2), CInt.wrap (Grid.Mx g - 2))
      else (xs1, xf0, lxf0)
    else (xs0, xf0, lxf0) in
  let '(ys1, yf1, lyf1) :=
    if (Z.land (Periodicity_value (Grid.periodicity g))
               (Periodicity_value Grid.Y_PERIODIC) =? 0)%Z
    then
      let ys1 := if (ys0 <? 0)%Z then 0%Z else ys0 in
      if (CInt.sub (CInt.wrap (Grid.My g)) 2 <? yf0)%Z
      then (ys1, CInt.wrap (Grid.My g - 2), CInt.wrap (Grid.My g - 2))
      else (ys1, yf0, lyf0)
    else (ys0, yf0, lyf0) in
  {| xs := xs1; xm := CInt.add (CInt.sub xf1 xs1) 1;
     ys := ys1; ym := CInt.add (CInt.sub yf1 ys1) 1;
     lxs := lxs0; lxm := CInt.add (CInt.sub lxf1 lxs0) 1;
     lys := lys0; lym := CInt.add (CInt.sub lyf1 lys0) 1 |}.

(** The element [(i, j)] is in the range of the loops
    [for (j = ys; j < ys + ym; j++) for (i = xs; i < xs + xm; i++)],
    respectively of the loops over the local elements. *)
Definition in_range (it : t) (ij : Z * Z) : bool :=
  ((xs it <=? fst ij) && (fst ij <? xs it + xm it)
   && (ys it <=? snd ij) && (snd ij <? ys it + ym it))%Z.

Definition in_local_range (it : t) (ij : Z * Z) : bool :=
  ((lxs it <=? fst ij) && (fst ij <? lxs it + lxm it)
   && (lys it <=? snd ij) && (snd ij <? lys it + lym it))%Z.

(** The tests [g.periodicity() & X_PERIODIC] and
    [g.periodicity() & Y_PERIODIC]. *)
Definition x_periodic (g : Grid.IceGrid) : bool :=
  negb (Z.land (Periodicity_value (Grid.periodicity g))
               (Periodicity_value Grid.X_PERIODIC) =? 0)%Z.

Definition y_periodic (g : Grid.IceGrid) : bool :=
  negb (Z.land (Periodicity_value (Grid.periodicity g))
               (Periodicity_value Grid.Y_PERIODIC) =? 0)%Z.

(** The patch of [g] is not empty and lies within a grid of at least
    two nodes in each direction whose sizes are below [INT_MAX]. *)
Definition patch_in_grid (g : Grid.IceGrid) : Prop :=
  (0 <= Grid.xs g /\ 0 < Grid.xm g /\ Grid.xs g + Grid.xm g <= Grid.Mx g /\
   0 <= Grid.ys g /\ 0 < Grid.ym g /\ Grid.ys g + Grid.ym g <= Grid.My g /\
   2 <= Grid.Mx g < CInt.INT_MAX /\ 2 <= Grid.My g < CInt.INT_MAX)%Z.

End ElementIterator.

(** [element.local_to_global(k, i, j)], declared in FETools.hh: the
    global indices of the local node [k], formed as
    [Element::nodal_values] forms them. *)
Definition local_to_global (element : Element) (k : nat) : Z * Z :=
  (CInt.add (m_i element) (m_i_offset k), CInt.add (m_j element) (m_j_offset k)).

(** [void DirichletData_Scalar::enforce(const Element &element, double* x_nodal)]
    and [enforce_homogeneous]; [m_values] is the field of prescribed
    values. *)
Definition enforce
  (dd : DirichletData) (m_values : Z -> Z -> Q) (element : Element) (x_nodal : list Q)
  : list Q :=
  let m_indices_e := nodal_values element (m_indices dd) in
  fold_left
    (fun x k =>
       if exceeds_half (nth k m_indices_e 0%Z)
       then let (i, j) := local_to_global element k in array_set x k (m_values i j)
       else x)
    (seq 0 q1_n_chi) x_nodal.

Definition enforce_homogeneous
  (dd : DirichletData) (element : Element) (x_nodal : list Q) : list Q :=
  let m_indices_e := nodal_values element (m_indices dd) in
  fold_left
    (fun x k => if exceeds_half (nth k m_indices_e 0%Z) then array_set x k 0 else x)
    (seq 0 q1_n_chi) x_nodal.

(** [r_global[j][i] = v] on a 2D array indexed [[j][i]]. *)
Definition array2_set (a : Z -> Z -> Q) (j i : Z) (x : Q) : Z -> Z -> Q :=
  fun j' i' => if ((j' =? j) && (i' =? i))%Z then x else a j' i'.

(** [void DirichletData_Scalar::fix_residual(x_global, r_global)] and
    [fix_residual_homogeneous(r_global)].  [None] when the loop over
    [Points] runs out of fuel. *)
Definition fix_residual
  (fuel : nat) (grid : Grid.IceGrid) (dd : DirichletData) (m_values : Z -> Z -> Q)
  (x_global r_global : Z -> Z -> Q) : option (Z -> Z -> Q) :=
  match Grid.visit fuel (Grid.Points_new grid) with
  | None => None
  | Some points =>
      Some (fold_left
              (fun r (p : Z * Z) =>
                 let (i, j) := p in
                 if exceeds_half (m_indices dd i j)
                 then array2_set r j i (m_weight dd * (x_global j i - m_values i j))
                 else r)
              points r_global)
  end.

Definition fix_residual_homogeneous
  (fuel : nat) (grid : Grid.IceGrid) (dd : DirichletData)
  (r_global : Z -> Z -> Q) : option (Z -> Z -> Q) :=
  match Grid.visit fuel (Grid.Points_new grid) with
  | None => None
  | Some points =>
      Some (fold_left
              (fun r (p : Z * Z) =>
                 let (i, j) := p in
                 if exceeds_half (m_indices dd i j) then array2_set r j i 0 else r)
              points r_global)
  end.

(** [Q0Quadrature1e4] and [Q1Quadrature1e4]: the uniform rule with
    [m_size_1d = 100] points in each direction. *)
Definition m_size_1d : nat := 100.

Definition uniform_points (n : nat) : list Q :=
  let dxi := 2 / inject_Z (Z.of_nat n) in
  map (fun k => -1 + dxi * (inject_Z (Z.of_nat k) + (5 # 10))) (seq 0 n).

Definition uniform_weights (n : nat) : list Q :=
  map (fun _ => 2 / inject_Z (Z.of_nat n)) (seq 0 n).

Definition Q0Quadrature1e4 (dx dy L : Q) : Quadrature :=
  let xi := uniform_points m_size_1d in
  let w := uniform_weights m_size_1d in
  let (points, W) := tensor_product_quadrature m_size_1d xi w in
  initialize (m_size_1d * m_size_1d) (UniformQxQuadrature_J dx dy L) q0_chi q0_n_chi points W.

Definition Q1Quadrature1e4 (dx dy L : Q) : Quadrature :=
  let xi := uniform_points m_size_1d in
  let w := uniform_weights m_size_1d in
  let (points, W) := tensor_product_quadrature m_size_1d xi w in
  initialize (m_size_1d * m_size_1d) (UniformQxQuadrature_J dx dy L) q1_chi q1_n_chi points W.

End fem.

(** ** Poisson3.cc: node classification *)

Module NodeTypes.
Import Poisson3.

(** The part of PETSc's [DMDALocalInfo] that [compute_node_type] reads:
    the owned patch and the ghosted patch of the 2D grid. *)
Record DMDALocalInfo : Type := {
  xs : Z; ys : Z; xm : Z; ym : Z;
  gxs : Z; gys : Z; gxm : Z; gym : Z
}.

(** A 2D array of [Parameters], indexed [P[j][i]]. *)
Definition Field : Type := Z -> Z -> Parameters.

Definition with_node_type (p : Parameters) (v : Z) : Parameters :=
  {| bed := bed p; thickness := thickness p; node_type := v |}.

(** [P[j][i].node_type = v]. *)
Definition set_node_type (P : Field) (ji : Z * Z) (v : Z) : Field :=
  fun j i =>
    if (j =? fst ji) && (i =? snd ji) then with_node_type (P j i) v else P j i.

(** The values of [n] in [for (int n = a; n < b; n++)]. *)
Definition for_range (a b : Z) : list Z := Grid.zrange a (Z.to_nat (b - a)).

(** The comparison [a < b] of two doubles. *)
Definition less (a b : Q) : bool := negb (Qle_bool b a).

(** [E.local_to_global(k, ii, jj)] for the element at [(i, j)]: the
    pair [(jj, ii)]. *)
Definition local_to_global (i j : Z) (k : nat) : Z * Z :=
  (CInt.add j (fem.m_j_offset k), CInt.add i (fem.m_i_offset k)).

(** The flag [interior] of the element at [(i, j)]: no nodal thickness
    is below [min_thickness]. *)
Definition interior (min_thickness : Q) (P : Field) (ji : Z * Z) : bool :=
  forallb (fun k => let n := local_to_global (snd ji) (fst ji) k in
                    negb (less (thickness (P (fst n) (snd n))) min_thickness))
          (seq 0 fem.q1_n_chi).

(** Body of the element loop: [P[jj][ii].node_type += interior] at the
    four nodes. *)
Definition count_element (min_thickness : Q) (P : Field) (ji : Z * Z) : Field :=
  let b := interior min_thickness P ji in
  fold_left
    (fun P1 k =>
       let n := local_to_global (snd ji) (fst ji) k in
       set_node_type P1 n (node_type (P1 (fst n) (snd n)) + (if b then 1 else 0)))
    (seq 0 fem.q1_n_chi) P.

(** The [switch] of the last loop. *)
Definition node_class (count : Z) : Z :=
  if count =? 4 then NODE_INTERIOR
  else if count =? 0 then NODE_EXTERIOR
  else NODE_BOUNDARY.

(** [void compute_node_type(DM da, double min_thickness)].  [F] is the
    2D vector stored in the DM; [P], the ghosted copy, starts as [F]
    and is dropped at the end; [result] is [F] itself. *)
Definition compute_node_type (info : DMDALocalInfo) (min_thickness : Q) (F : Field) : Field :=
  let owned_j := for_range (ys info) (CInt.add (ys info) (ym info)) in
  let owned_i := for_range (xs info) (CInt.add (xs info) (xm info)) in
  let P0 := F in
  let P1 :=
    fold_left (fun P j => fold_left (fun P' i => set_node_type P' (j, i) 0) owned_i P)
              owned_j P0 in
  let P2 :=
    fold_left
      (fun P j =>
         fold_left (fun P' i => count_element min_thickness P' (j, i))
                   (for_range (gxs info) (CInt.sub (CInt.add (gxs info) (gxm info)) 1)) P)
      (for_range (gys info) (CInt.sub (CInt.add (gys info) (gym info)) 1)) P1 in
  fold_left
    (fun result j =>
       fold_left (fun result' i =>
                    set_node_type result' (j, i) (node_class (node_type (P2 j i))))
                 owned_i result)
    owned_j F.

(** Membership of an index pair in a list of index pairs. *)
Definition same_index (a b : Z * Z) : bool := (fst a =? fst b) && (snd a =? snd b).
Definition memb (x : Z * Z) (l : list (Z * Z)) : bool := existsb (same_index x) l.

(** The four nodes of the element [(j, i)], as [(jj, ii)]. *)
Definition element_nodes (ji : Z * Z) : list (Z * Z) :=
  [ (fst ji, snd ji); (fst ji, snd ji + 1);
    (fst ji + 1, snd ji + 1); (fst ji + 1, snd ji) ].

(** The element [(j, i)] and its upper nodes are within [int]. *)
Definition element_in_int (ji : Z * Z) : Prop :=
  CInt.INT_MIN <= fst ji /\ fst ji + 1 <= CInt.INT_MAX /\
  CInt.INT_MIN <= snd ji /\ snd ji + 1 <= CInt.INT_MAX.

(** The elements, named by their lower left node as [(j, i)], that have
    the node [(i, j)] as a vertex. *)
Definition incident_elements (i j : Z) : list (Z * Z) :=
  [(j - 1, i - 1); (j - 1, i); (j, i); (j, i - 1)].

(** The element [(j, i)] is one of those the element loop visits. *)
Definition in_element_loop (info : DMDALocalInfo) (ji : Z * Z) : bool :=
  (gys info <=? fst ji) && (fst ji <? gys info + gym info - 1)
  && (gxs info <=? snd ji) && (snd ji <? gxs info + gxm info - 1).

(** Number of incident elements of node [(i, j)] in the loop that are
    icy, for a given notion [icy] of an icy element. *)
Definition icy_incident_count
  (icy : Z * Z -> bool) (info : DMDALocalInfo) (i j : Z) : nat :=
  length (filter (fun e => in_element_loop info e && icy e) (incident_elements i j)).

(** The nodal thicknesses of the element [(j, i)]. *)
Definition nodal_thicknesses (F : Field) (ji : Z * Z) : list Q :=
  [ thickness (F (fst ji) (snd ji)); thickness (F (fst ji) (snd ji + 1));
    thickness (F (fst ji + 1) (snd ji + 1)); thickness (F (fst ji + 1) (snd ji)) ].

(** Icy element, as the code decides: every nodal thickness is at
    least the threshold. *)
Definition icy_at_least (min_thickness : Q) (F : Field) (ji : Z * Z) : bool :=
  forallb (fun H => Qle_bool min_thickness H) (nodal_thicknesses F ji).

(** Icy element, in the words of the specification: every nodal
    thickness exceeds the threshold. *)
Definition icy_exceeds (min_thickness : Q) (F : Field) (ji : Z * Z) : bool :=
  forallb (fun H => less min_thickness H) (nodal_thicknesses F ji).

(** Some, respectively all, of the incident elements of node [(i, j)]
    are visited by the element loop and icy. *)
Definition some_incident_icy
  (icy : Z * Z -> bool) (info : DMDALocalInfo) (i j : Z) : bool :=
  existsb (fun e => in_element_loop info e && icy e) (incident_elements i j).

Definition all_incident_icy
  (icy : Z * Z -> bool) (info : DMDALocalInfo) (i j : Z) : bool :=
  forallb (fun e => in_element_loop info e && icy e) (incident_elements i j).

Definition owned (info : DMDALocalInfo) (i j : Z) : bool :=
  (xs info <=? i) && (i <? xs info + xm info)
  && (ys info <=? j) && (j <? ys info + ym info).

(** The patches are within [int], with room for the [+ 1] of the
    elements' upper nodes. *)
Definition info_ok (info : DMDALocalInfo) : Prop :=
  CInt.INT_MIN <= xs info /\ 0 <= xm info /\ xs info + xm info <= CInt.INT_MAX /\
  CInt.INT_MIN <= ys info /\ 0 <= ym info /\ ys info + ym info <= CInt.INT_MAX /\
  CInt.INT_MIN < gxs info /\ 0 <= gxm info /\ gxs info + gxm info <= CInt.INT_MAX /\
  CInt.INT_MIN < gys info /\ 0 <= gym info /\ gys info + gym info <= CInt.INT_MAX.

(** A 3 x 3 grid on one process and two thickness fields on it: the
    thickness equal to the threshold 1/10 everywhere, and the step of
    [Poisson3]'s [H] (1 at the four nodes around the lower left
    element, 0 elsewhere). *)
Definition info3 : DMDALocalInfo :=
  {| xs := 0; ys := 0; xm := 3; ym := 3; gxs := 0; gys := 0; gxm := 3; gym := 3 |}.

Definition threshold_field : Field :=
  fun _ _ => {| bed := 0; thickness := 1 # 10; node_type := 0 |}.

Definition step_field : Field :=
  fun j i => {| bed := 0;
                thickness := if (j <? 2) && (i <? 2) then 1 else 0;
                node_type := 7 |}.

End NodeTypes.

(** ** Blatter.cc: the element Jacobian *)

Module Blatter.

Local Open Scope Q_scope.

(** [struct Vector2] and the germ of a 3D shape function. *)
Record Vector2 : Type := { u : Q; v : Q }.
Record Germ : Type := { val : Q; dx : Q; dy : Q; dz : Q }.

(** What [jacobian_f] reads of a [fem::Element3]: the number of
    quadrature points, the weights and the germs [chi(q, t)]. *)
Record Element3 : Type := {
  n_pts : nat;
  weight : nat -> Q;
  chi : nat -> nat -> Germ
}.

(** What [jacobian_basal] reads of a [fem::Q1Element3Face]; on a face
    [chi(q, t)] is a number. *)
Record Q1Element3Face : Type := {
  face_n_pts : nat;
  face_weight : nat -> Q;
  face_chi : nat -> nat -> Q
}.

(** [fem::q13d::n_chi]. *)
Definition Nk : nat := 8.

(** The element-local matrix [double K[16][16]]. *)
Definition LocalMatrix : Type := nat -> nat -> Q.

(** [memset(K, 0, sizeof(K))]. *)
Definition zero : LocalMatrix := fun _ _ => 0.

(** [K[r][c] += x] and [K[r][c] = x]. *)
Definition add_to (K : LocalMatrix) (r c : nat) (x : Q) : LocalMatrix :=
  fun r' c' => if Nat.eqb r' r && Nat.eqb c' c then K r' c' + x else K r' c'.

Definition assign (K : LocalMatrix) (r c : nat) (x : Q) : LocalMatrix :=
  fun r' c' => if Nat.eqb r' r && Nat.eqb c' c then x else K r' c'.

Section Jacobian.

(** Collaborators that are not among the sources: the interpolation
    [evaluate] of an element and of a face (values and derivatives at
    the quadrature point [q]), the flow law's [effective_viscosity]
    (returning [eta] and [deta]) and the sliding law's
    [drag_with_derivative] (returning [beta] and [dbeta]). *)
Variable evaluate : Element3 -> (nat -> Vector2) -> nat -> Vector2 * Vector2 * Vector2 * Vector2.
Variable evaluate_scalar : Element3 -> (nat -> Q) -> nat -> Q.
Variable face_evaluate : Q1Element3Face -> (nat -> Vector2) -> nat -> Vector2.
Variable face_evaluate_scalar : Q1Element3Face -> (nat -> Q) -> nat -> Q.
Variable effective_viscosity : Q -> Q -> Q * Q.
Variable drag_with_derivative : Q -> Q -> Q -> Q * Q.

(** Body of the loops over [t] and [s] of [jacobian_f] at the
    quadrature point [q]. *)
Definition jacobian_f_entry
  (element : Element3) (W ux uy uz vx vy vz eta deta : Q)
  (q t s : nat) (K : LocalMatrix) : LocalMatrix :=
  let psi := chi element q t in
  let phi := chi element q s in
  let gamma_u := 2 * ux * dx phi + vy * dx phi + (5 # 10) * dy phi * (uy + vx)
                 + (5 # 10) * uz * dz phi in
  let gamma_v := 2 * vy * dy phi + ux * dy phi + (5 # 10) * dx phi * (uy + vx)
                 + (5 # 10) * vz * dz phi in
  let eta_u := deta * gamma_u in
  let eta_v := deta * gamma_v in
  (* Picard part *)
  let K := add_to K (t * 2 + 0) (s * 2 + 0)
             (W * eta * (4 * dx psi * dx phi + dy psi * dy phi + dz psi * dz phi)) in
  let K := add_to K (t * 2 + 0) (s * 2 + 1)
             (W * eta * (2 * dx psi * dy phi + dy psi * dx phi)) in
  let K := add_to K (t * 2 + 1) (s * 2 + 0)
             (W * eta * (2 * dy psi * dx phi + dx psi * dy phi)) in
  let K := add_to K (t * 2 + 1) (s * 2 + 1)
             (W * eta * (4 * dy psi * dy phi + dx psi * dx phi + dz psi * dz phi)) in
  (* extra Newton terms *)
  let K := add_to K (t * 2 + 0) (s * 2 + 0)
             (W * eta_u * (dx psi * (4 * ux + 2 * vy) + dy psi * (uy + vx) + dz psi * uz)) in
  let K := add_to K (t * 2 + 0) (s * 2 + 1)
             (W * eta_v * (dx psi * (4 * ux + 2 * vy) + dy psi * (uy + vx) + dz psi * uz)) in
  let K := add_to K (t * 2 + 1) (s * 2 + 0)
             (W * eta_u * (dx psi * (uy + vx) + dy psi * (4 * vy + 2 * ux) + dz psi * vz)) in
  let K := add_to K (t * 2 + 1) (s * 2 + 1)
             (W * eta_v * (dx psi * (uy + vx) + dy psi * (4 * vy + 2 * ux) + dz psi * vz)) in
  K.

(** Body of the loop over quadrature points of [jacobian_f]; the
    inner loops compute the upper triangle: [s] runs from [t]. *)
Definition jacobian_f_point
  (element : Element3) (velocity : nat -> Vector2) (hardness : nat -> Q)
  (K : LocalMatrix) (q : nat) : LocalMatrix :=
  let W := weight element q in
  let '(_, u_x, u_y, u_z) := evaluate element velocity q in
  let B := evaluate_scalar element hardness q in
  let ux := u u_x in
  let uy := u u_y in
  let uz := u u_z in
  let vx := v u_x in
  let vy := v u_y in
  let vz := v u_z in
  let gamma := ux * ux + vy * vy + ux * vy
               + (25 # 100) * ((uy + vx) * (uy + vx) + uz * uz + vz * vz) in
  let (eta, deta) := effective_viscosity B gamma in
  fold_left
    (fun K1 t =>
       fold_left
         (fun K2 s => jacobian_f_entry element W ux uy uz vx vy vz eta deta q t s K2)
         (seq t (Nk - t)) K1)
    (seq 0 Nk) K.

(** [void Blatter::jacobian_f(element, velocity, hardness, K)]. *)
Definition jacobian_f
  (element : Element3) (velocity : nat -> Vector2) (hardness : nat -> Q)
  (K : LocalMatrix) : LocalMatrix :=
  fold_left (jacobian_f_point element velocity hardness) (seq 0 (n_pts element)) K.

(** Body of the loops over [t] and [s] of [jacobian_basal]. *)
Definition jacobian_basal_entry
  (face : Q1Element3Face) (W beta dbeta : Q) (uq : Vector2)
  (q t s : nat) (K : LocalMatrix) : LocalMatrix :=
  let psi := face_chi face q t in
  let phi := face_chi face q s in
  let p := psi * phi in
  let K := add_to K (t * 2 + 0) (s * 2 + 0) (W * p * (beta + dbeta * u uq * u uq)) in
  let K := add_to K (t * 2 + 0) (s * 2 + 1) (W * p * dbeta * u uq * v uq) in
  let K := add_to K (t * 2 + 1) (s * 2 + 0) (W * p * dbeta * v uq * u uq) in
  let K := add_to K (t * 2 + 1) (s * 2 + 1) (W * p * (beta + dbeta * v uq * v uq)) in
  K.

Definition jacobian_basal_point
  (face : Q1Element3Face) (tauc_nodal f_nodal : nat -> Q) (velocity : nat -> Vector2)
  (K : LocalMatrix) (q : nat) : LocalMatrix :=
  let W := face_weight face q in
  let uq := face_evaluate face velocity q in
  let tauc := face_evaluate_scalar face tauc_nodal q in
  let floatation := face_evaluate_scalar face f_nodal q in
  let grounded := Qle_bool floatation 0 in
  let (beta, dbeta) :=
    if grounded then drag_with_derivative tauc (u uq) (v uq) else (0, 0) in
  fold_left
    (fun K1 t =>
       fold_left
         (fun K2 s => jacobian_basal_entry face W beta dbeta uq q t s K2)
         (seq 0 Nk) K1)
    (seq 0 Nk) K.

(** [void Blatter::jacobian_basal(face, tauc_nodal, f_nodal, velocity, K)]. *)
Definition jacobian_basal
  (face : Q1Element3Face) (tauc_nodal f_nodal : nat -> Q) (velocity : nat -> Vector2)
  (K : LocalMatrix) : LocalMatrix :=
  fold_left (jacobian_basal_point face tauc_nodal f_nodal velocity)
            (seq 0 (face_n_pts face)) K.

(** The four assignments that fill the block below the diagonal. *)
Definition fill_block (K : LocalMatrix) (ts : nat * nat) : LocalMatrix :=
  let (t, s) := ts in
  let K := assign K (t * 2 + 0) (s * 2 + 0) (K (s * 2 + 0)%nat (t * 2 + 0)%nat) in
  let K := assign K (t * 2 + 1) (s * 2 + 0) (K (s * 2 + 0)%nat (t * 2 + 1)%nat) in
  let K := assign K (t * 2 + 0) (s * 2 + 1) (K (s * 2 + 1)%nat (t * 2 + 0)%nat) in
  let K := assign K (t * 2 + 1) (s * 2 + 1) (K (s * 2 + 1)%nat (t * 2 + 1)%nat) in
  K.

(** "fill the lower-triangular part of the element Jacobian". *)
Definition fill_lower_triangle (K : LocalMatrix) : LocalMatrix :=
  fold_left
    (fun K1 t => fold_left (fun K2 s => fill_block K2 (t, s)) (seq 0 t) K1)
    (seq 0 Nk) K.

(** The element part of [Blatter::compute_jacobian] for the element at
    level [k]: the matrix handed to [element.add_contribution].  [face]
    is the bottom face after [face->reset(4, z)]. *)
Definition element_jacobian
  (k : Z) (element : Element3) (face : Q1Element3Face)
  (velocity : nat -> Vector2) (B_nodal basal_yield_stress floatation : nat -> Q)
  : LocalMatrix :=
  let K := zero in
  let K := jacobian_f element velocity B_nodal K in
  let K := if (k =? 0)%Z
           then jacobian_basal face basal_yield_stress floatation velocity K
           else K in
  fill_lower_triangle K.

End Jacobian.

(** The two entries off the diagonal of every diagonal 2 x 2 block
    agree. *)
Definition diagonal_blocks_symmetric (K : LocalMatrix) : Prop :=
  forall t : nat, K (t * 2 + 0)%nat (t * 2 + 1)%nat == K (t * 2 + 1)%nat (t * 2 + 0)%nat.

(** A concrete element for running the code: one quadrature point,
    germs that differ from node to node, a linear flow law and a
    linear sliding law. *)
Definition sample_element : Element3 :=
  {| n_pts := 1;
     weight := fun _ => 1;
     chi := fun _ t => {| val := 1; dx := inject_Z (Z.of_nat t); dy := 1; dz := 2 |} |}.

Definition sample_face : Q1Element3Face :=
  {| face_n_pts := 1;
     face_weight := fun _ => 1;
     face_chi := fun _ t => inject_Z (Z.of_nat t) + 1 |}.

Definition sample_velocity (k : nat) : Vector2 :=
  {| u := inject_Z (Z.of_nat k); v := 1 |}.

Definition sample_evaluate
  (e : Element3) (x : nat -> Vector2) (q : nat) : Vector2 * Vector2 * Vector2 * Vector2 :=
  (x 0%nat, x 1%nat, x 2%nat, x 3%nat).

Definition sample_jacobian (k : Z) : LocalMatrix :=
  element_jacobian
    sample_evaluate (fun _ x _ => x 0%nat) (fun _ x _ => x 1%nat) (fun _ x _ => x 0%nat)
    (fun B gamma => (B + gamma, 2)) (fun tauc a b => (tauc, a + b))
    k sample_element sample_face sample_velocity
    (fun _ => 1) (fun _ => 3) (fun _ => -1).

End Blatter.

(** ** remove_narrow_tongues.cc *)

Module Tongues.

(** Modelled from the spec: the cell-type mask "ice-free /
    grounded-ice / floating-ice / ocean" of the geometry provider.
    The header Mask.hh with the mask values and the predicates
    [mask::ice_free], [mask::ice_free_ocean], [mask::grounded_ice] and
    [mask::floating_ice] is not among the sources. *)
Inductive MaskValue : Type :=
  | MASK_ICE_FREE_BEDROCK
  | MASK_GROUNDED
  | MASK_FLOATING
  | MASK_ICE_FREE_OCEAN.

Definition ice_free (M : MaskValue) : bool :=
  match M with MASK_ICE_FREE_BEDROCK | MASK_ICE_FREE_OCEAN => true | _ => false end.
Definition ice_free_ocean (M : MaskValue) : bool :=
  match M with MASK_ICE_FREE_OCEAN => true | _ => false end.
Definition grounded_ice (M : MaskValue) : bool :=
  match M with MASK_GROUNDED => true | _ => false end.
Definition floating_ice (M : MaskValue) : bool :=
  match M with MASK_FLOATING => true | _ => false end.

(** [BoxStencil<T>]: the value at a cell and at its eight neighbours. *)
Record BoxStencil (T : Type) : Type := {
  ij : T; n : T; nw : T; w : T; sw : T; s : T; se : T; e : T; ne : T
}.
Arguments ij {T}.
Arguments n {T}.
Arguments nw {T}.
Arguments w {T}.
Arguments sw {T}.
Arguments s {T}.
Arguments se {T}.
Arguments e {T}.
Arguments ne {T}.

(** Modelled from the spec: [mask.int_box(i, j)], the mask around
    [(i, j)], with east towards larger [i] and north towards larger
    [j] (the accessor is declared in a header that is not among the
    sources). *)
Definition int_box (mask : Z -> Z -> MaskValue) (i j : Z) : BoxStencil MaskValue :=
  {| ij := mask i j;
     n  := mask i (j + 1);
     nw := mask (i - 1) (j + 1);
     w  := mask (i - 1) j;
     sw := mask (i - 1) (j - 1);
     s  := mask i (j - 1);
     se := mask (i + 1) (j - 1);
     e  := mask (i + 1) j;
     ne := mask (i + 1) (j + 1) |}.

Definition map_box {A B : Type} (f : A -> B) (M : BoxStencil A) : BoxStencil B :=
  {| ij := f (ij M); n := f (n M); nw := f (nw M); w := f (w M); sw := f (sw M);
     s := f (s M); se := f (se M); e := f (e M); ne := f (ne M) |}.

(** What the routine reads of [Geometry]. *)
Record Geometry : Type := {
  cell_type : Z -> Z -> MaskValue;
  bed_elevation : Z -> Z -> Q;
  sea_level_elevation : Z -> Z -> Q
}.

(** The stencil [ice_free] of the routine: ice-free ocean counts
    around grounded ice, any ice-free cell around floating ice.  A
    cell that is neither was skipped before. *)
Definition ice_free_box (mask : Z -> Z -> MaskValue) (i j : Z) : BoxStencil bool :=
  let M := int_box mask i j in
  if grounded_ice (ij M) then map_box ice_free_ocean M
  else map_box ice_free M.

(** The test that decides the removal. *)
Definition is_tongue_tip (f : BoxStencil bool) : bool :=
  (negb (w f) && nw f && sw f && n f && s f && e f)
  || (negb (n f) && nw f && ne f && w f && e f && s f)
  || (negb (e f) && ne f && se f && w f && s f && n f)
  || (negb (s f) && sw f && se f && w f && e f && n f).

(** The cells the loop passes over with [continue]. *)
Definition skipped (geometry : Geometry) (i j : Z) : bool :=
  ice_free (cell_type geometry i j)
  || (grounded_ice (cell_type geometry i j)
      && Qle_bool (sea_level_elevation geometry i j) (bed_elevation geometry i j)).

(** The cell [(i, j)] has its thickness set to zero. *)
Definition removed (geometry : Geometry) (ij : Z * Z) : bool :=
  negb (skipped geometry (fst ij) (snd ij))
  && is_tongue_tip (ice_free_box (cell_type geometry) (fst ij) (snd ij)).

(** Body of the loop. *)
Definition remove_at (geometry : Geometry) (ice_thickness : Z -> Z -> Q) (p : Z * Z)
  : Z -> Z -> Q :=
  let (i, j) := p in
  if skipped geometry i j then ice_thickness
  else if is_tongue_tip (ice_free_box (cell_type geometry) i j)
       then fun i' j' => if (i' =? i) && (j' =? j) then 0%Q else ice_thickness i' j'
       else ice_thickness.

(** [void remove_narrow_tongues(const Geometry &geometry, IceModelVec2S &ice_thickness)].
    [None] when the loop over [Points] runs out of fuel. *)
Definition remove_narrow_tongues
  (fuel : nat) (grid : Grid.IceGrid) (geometry : Geometry) (ice_thickness : Z -> Z -> Q)
  : option (Z -> Z -> Q) :=
  match Grid.visit fuel (Grid.Points_new grid) with
  | None => None
  | Some points => Some (fold_left (remove_at geometry) points ice_thickness)
  end.

(** The stencil seen after a quarter turn (what was in the north is
    in the east) and after swapping east and west. *)
Definition rotate_box {T : Type} (f : BoxStencil T) : BoxStencil T :=
  {| ij := ij f; n := w f; ne := nw f; e := n f; se := ne f;
     s := e f; sw := se f; w := s f; nw := sw f |}.

Definition mirror_box {T : Type} (f : BoxStencil T) : BoxStencil T :=
  {| ij := ij f; n := n f; ne := nw f; e := w f; se := sw f;
     s := s f; sw := se f; w := e f; nw := ne f |}.

(** The number of the four direct neighbours that are not ice-free. *)
Definition direct_neighbours_with_ice (f : BoxStencil bool) : nat :=
  length (filter negb [n f; e f; s f; w f]).

(** Masks on a 3 x 3 grid around the cell [(1, 1)] of grounded ice:
    alone in the ocean, and with ice to the west. *)
Definition grid3 : Grid.IceGrid :=
  {| Grid.xs := 0; Grid.xm := 3; Grid.ys := 0; Grid.ym := 3;
     Grid.Mx := 3; Grid.My := 3; Grid.periodicity := Grid.NOT_PERIODIC |}.

Definition nose_mask (i j : Z) : MaskValue :=
  if (i =? 1) && (j =? 1) then MASK_GROUNDED else MASK_ICE_FREE_OCEAN.

Definition tongue_mask (i j : Z) : MaskValue :=
  if (j =? 1) && ((i =? 0) || (i =? 1)) then MASK_GROUNDED else MASK_ICE_FREE_OCEAN.

(** The bed 1 m below, respectively 1 m above, a sea level of 0. *)
Definition marine (mask : Z -> Z -> MaskValue) : Geometry :=
  {| cell_type := mask; bed_elevation := fun _ _ => (-1)%Q;
     sea_level_elevation := fun _ _ => 0%Q |}.

Definition land_based (mask : Z -> Z -> MaskValue) : Geometry :=
  {| cell_type := mask; bed_elevation := fun _ _ => 1%Q;
     sea_level_elevation := fun _ _ => 0%Q |}.

Definition thick (i j : Z) : Q := 100%Q.

End Tongues.

(** ** Poisson3.cc: the element part of [compute_jacobian] *)

Module Poisson3Element.
Import Blatter.

Local Open Scope Q_scope.

(** "an element is exterior if one or more of its nodes are exterior". *)
Definition exterior (node_type : nat -> Z) : bool :=
  existsb (fun n => (node_type n =? Poisson3.NODE_EXTERIOR)%Z) (seq 0 Nk).

(** [K[t][s] += W * (phi.dx * psi.dx + phi.dy * psi.dy + phi.dz * psi.dz)]. *)
Definition jacobian_entry (element : Element3) (q t s : nat) (K : LocalMatrix) : LocalMatrix :=
  let W := weight element q in
  let psi := chi element q t in
  let phi := chi element q s in
  add_to K t s (W * (dx phi * dx psi + dy phi * dy psi + dz phi * dz psi)).

(** Body of the loop over quadrature points: the upper triangle, [s]
    runs from [t]. *)
Definition jacobian_point (element : Element3) (K : LocalMatrix) (q : nat) : LocalMatrix :=
  fold_left
    (fun K1 t => fold_left (fun K2 s => jacobian_entry element q t s K2) (seq t (Nk - t)) K1)
    (seq 0 Nk) K.

(** "fill the lower-triangular part using the fact that J is symmetric". *)
Definition fill_lower_triangle (K : LocalMatrix) : LocalMatrix :=
  fold_left
    (fun K1 t => fold_left (fun K2 s => assign K2 t s (K2 s t)) (seq 0 t) K1)
    (seq 0 Nk) K.

(** The matrix handed to [element.add_contribution] for one element;
    [None] for an exterior element, which the loop skips with
    [continue]. *)
Definition element_jacobian (node_type : nat -> Z) (element : Element3) : option LocalMatrix :=
  if exterior node_type then None
  else Some (fill_lower_triangle
               (fold_left (jacobian_point element) (seq 0 (n_pts element)) zero)).

(** The integrand at the quadrature point [q]: the product of the
    gradients of the shape functions [t] and [s], times the weight. *)
Definition stiffness_term (element : Element3) (t s q : nat) : Q :=
  weight element q
  * (dx (chi element q s) * dx (chi element q t)
     + dy (chi element q s) * dy (chi element q t)
     + dz (chi element q s) * dz (chi element q t)).

Definition Qsum (f : nat -> Q) (n : nat) : Q :=
  fold_right Qplus 0 (map f (seq 0 n)).

(** An element with two quadrature points whose shape-function
    gradients add up to zero at each of them. *)
Definition alternating_element : Element3 :=
  {| n_pts := 2;
     weight := fun q => inject_Z (Z.of_nat q) + 1;
     chi := fun q t =>
       let sign := if Nat.even t then 1 else -1 in
       {| val := 1 # 8;
          dx := sign * (inject_Z (Z.of_nat (t / 2)) + 1);
          dy := sign * 2;
          dz := sign * (inject_Z (Z.of_nat q) + 3) |} |}.

End Poisson3Element.

(** ** PISMNullTransportHydrology.cc *)

Module Hydrology.
Import String.

Local Open Scope Q_scope.

(** The members of [NullTransportHydrology] that [update] reads and
    writes: the time interval of the last update, the till water
    thickness and the input rate. *)
Record State : Type := {
  m_t : Q;
  m_dt : Q;
  Wtil : Z -> Z -> Q;
  total_input : Z -> Z -> Q
}.

(** How a call ends: [return ierr] or [throw RuntimeError(what)]. *)
Inductive Outcome : Type :=
  | Returned (ierr : Z)
  | Thrown (what : String.string).

(** PETSc's macros [PetscMax(a, b)], that is [((a) < (b)) ? (b) : (a)],
    and [PetscMin(a, b)], that is [((a) < (b)) ? (a) : (b)]. *)
Definition less (a b : Q) : bool := negb (Qle_bool b a).
Definition PetscMax (a b : Q) : Q := if less a b then b else a.
Definition PetscMin (a b : Q) : Q := if less a b then a else b.

(** [Wtil(i, j) = v]. *)
Definition set (W : Z -> Z -> Q) (i j : Z) (v : Q) : Z -> Z -> Q :=
  fun i' j' => if ((i' =? i) && (j' =? j))%Z then v else W i' j'.

Definition tillwat_max_negative : String.string :=
  String.append "NullTransportHydrology: hydrology_tillwat_max is negative."%string
    (String.String (Ascii.ascii_of_nat 10) "This is not allowed."%string).

Section Update.

Variable grid : Grid.IceGrid.

(** [config.get("hydrology_tillwat_max")] and
    [config.get("hydrology_tillwat_decay_rate")]. *)
Variable tillwat_max : Q.
Variable C : Q.

(** [MaskQuery::ocean(i, j)] and [MaskQuery::ice_free(i, j)] of
    Mask.hh, and [Hydrology::get_input_rate(t, dt, result)] of the base
    class (its error code and the field it stores in [result]); none
    of them is among the sources. *)
Variable ocean : Z -> Z -> bool.
Variable ice_free : Z -> Z -> bool.
Variable get_input_rate : Q -> Q -> (Z -> Z -> Q) -> Z * (Z -> Z -> Q).

(** Body of the loop over the owned points. *)
Definition update_cell
  (icedt : Q) (input : Z -> Z -> Q) (W : Z -> Z -> Q) (p : Z * Z) : Z -> Z -> Q :=
  let (i, j) := p in
  if ocean i j || ice_free i j then set W i j 0
  else
    let W1 := set W i j (W i j + icedt * (input i j - C)) in
    set W1 i j (PetscMin (PetscMax 0 (W1 i j)) tillwat_max).

(** [PetscErrorCode NullTransportHydrology::update(double icet, double icedt)]:
    the state after the call and how the call ended.  [None] when the
    loop over [Points] runs out of fuel. *)
Definition update (fuel : nat) (st : State) (icet icedt : Q) : option (State * Outcome) :=
  if less (Qabs (icet - m_t st)) (1 # 1000000) && less (Qabs (icedt - m_dt st)) (1 # 1000000)
  then Some (st, Returned 0)
  else
    let (ierr, input) := get_input_rate icet icedt (total_input st) in
    let st1 := {| m_t := icet; m_dt := icedt; Wtil := Wtil st; total_input := input |} in
    if negb (ierr =? 0)%Z then Some (st1, Returned ierr)
    else if less tillwat_max 0 then Some (st1, Thrown tillwat_max_negative)
    else
      match Grid.visit fuel (Grid.Points_new grid) with
      | None => None
      | Some points =>
          Some ({| m_t := icet; m_dt := icedt;
                   Wtil := fold_left (update_cell icedt input) points (Wtil st);
                   total_input := input |},
                Returned 0)
      end.

End Update.

(** What [update] stores in an owned cell that holds [w]. *)
Definition updated_cell
  (tillwat_max C : Q) (ocean ice_free : Z -> Z -> bool)
  (icedt : Q) (input : Z -> Z -> Q) (i j : Z) (w : Q) : Q :=
  if ocean i j || ice_free i j then 0
  else PetscMin (PetscMax 0 (w + icedt * (input i j - C))) tillwat_max.

(** A state and collaborators for running [update]: the column
    [i = 0] is ocean, the input rate is 1 everywhere. *)
Definition sample_state : State :=
  {| m_t := 0; m_dt := 0; Wtil := fun _ _ => 1; total_input := fun _ _ => 0 |}.
Definition sample_ocean (i j : Z) : bool := (i =? 0)%Z.
Definition sample_ice_free (i j : Z) : bool := false.
Definition sample_input_rate (t dt : Q) (result : Z -> Z -> Q) : Z * (Z -> Z -> Q) :=
  (0%Z, fun _ _ => 1).

(** [subglacial_water_thickness(result)]: [result.set(0.0)]. *)
Definition subglacial_water_thickness (result : Z -> Z -> Q) : Z -> Z -> Q :=
  fun _ _ => 0.

End Hydrology.

(** ** StressBalance_factory.cc *)

Module StressBalanceFactory.
Import String.

Local Open Scope string_scope.

(** The stress balance objects [create] can build. *)
Inductive ShallowStressBalance : Type :=
  | ZeroSliding
  | PrescribedSliding
  | WeertmanSliding
  | SSAFD_Regional
  | SSAFEM
  | SSAFD
  | Blatter (Mz n_levels coarsening_factor : Z).

Inductive SSB_Modifier : Type :=
  | ConstantInColumn
  | SIAFD_Regional
  | SIAFD
  | BlatterMod (blatter : ShallowStressBalance).

(** What a call gives: [new StressBalance(grid, sliding, modifier)], or
    the [RuntimeError] thrown. *)
Inductive Result : Type :=
  | StressBalance (sliding : ShallowStressBalance) (modifier : SSB_Modifier)
  | RuntimeError (message : String.string).

(** [member(string, {...})] of pism_utilities.hh (not among the
    sources): the string is one of the listed ones. *)
Definition member (s : String.string) (l : list String.string) : bool :=
  existsb (String.eqb s) l.

Section Create.

(** [config->get_number(name)], taken as the [int] it is stored into,
    and [config->get_string(name)]. *)
Variable get_number : String.string -> Z.
Variable get_string : String.string -> String.string.

Definition invalid_model (model : String.string) : Result :=
  RuntimeError (String.append "invalid stress balance model: " model).

(** [std::shared_ptr<StressBalance> create(const std::string &model,
    IceGrid::ConstPtr grid, bool regional)]. *)
Definition create (model : String.string) (regional : bool) : Result :=
  if String.eqb model "blatter" then
    let Mz := get_number "stress_balance.blatter.Mz" in
    let n_levels := get_number "stress_balance.blatter.n_levels" in
    let coarsening_factor := get_number "stress_balance.blatter.coarsening_factor" in
    let blatter := Blatter Mz n_levels coarsening_factor in
    StressBalance blatter (BlatterMod blatter)
  else
    let sliding : option ShallowStressBalance :=
      if member model ["none"; "sia"] then Some ZeroSliding
      else if member model ["prescribed_sliding"; "prescribed_sliding+sia"]
      then Some PrescribedSliding
      else if member model ["weertman_sliding"; "weertman_sliding+sia"]
      then Some WeertmanSliding
      else if member model ["ssa"; "ssa+sia"] then
        if regional then Some SSAFD_Regional
        else if String.eqb (get_string "stress_balance.ssa.method") "fem"
             then Some SSAFEM
             else Some SSAFD
      else None in
    match sliding with
    | None => invalid_model model
    | Some sliding =>
        if member model ["none"; "ssa"; "prescribed_sliding"; "weertman_sliding"]
        then StressBalance sliding ConstantInColumn
        else if member model ["prescribed_sliding+sia"; "weertman_sliding+sia";
                              "ssa+sia"; "sia"]
        then if regional then StressBalance sliding SIAFD_Regional
             else StressBalance sliding SIAFD
        else invalid_model model
    end.

End Create.

(** The names [create] knows. *)
Definition known_models : list String.string :=
  [ "blatter"; "none"; "sia"; "prescribed_sliding"; "prescribed_sliding+sia";
    "weertman_sliding"; "weertman_sliding+sia"; "ssa"; "ssa+sia" ].

(** The models that end in the shallow-ice modifier. *)
Definition sia_models : list String.string :=
  [ "prescribed_sliding+sia"; "weertman_sliding+sia"; "ssa+sia"; "sia" ].

End StressBalanceFactory.

(** ** IP_L2NormFunctional.cc: the scalar functional *)

Module IP_L2NormFunctional2S.

Local Open Scope Q_scope.

Section Functional.

(** What the functional reads of its element [m_element] (a class of a
    header that is not among the sources): the number of quadrature
    points, the weights, and [evaluate], which turns the four nodal
    values into the values at the quadrature points. *)
Variable n_pts : nat.
Variable weight : nat -> Q.
Variable evaluate : list Q -> nat -> Q.

(** [m_element.reset(i, j); m_element.nodal_values(x.array(), tmp)]:
    the values of [x[j][i]] at the four nodes of the element, read as
    [Element::nodal_values] reads them. *)
Definition nodal_values (i j : Z) (x : Z -> Z -> Q) : list Q :=
  map (fun k => x (CInt.add j (fem.m_j_offset k)) (CInt.add i (fem.m_i_offset k)))
      (seq 0 fem.q1_n_chi).

(** The loops over the local elements,
    [for (j = ys; j < ys + ym; j++) for (i = xs; i < xs + xm; i++)]. *)
Definition local_elements (it : fem.ElementIterator.t) : list (Z * Z) :=
  flat_map
    (fun j => map (fun i => (i, j))
                  (NodeTypes.for_range (fem.ElementIterator.lxs it)
                     (CInt.add (fem.ElementIterator.lxs it) (fem.ElementIterator.lxm it))))
    (NodeTypes.for_range (fem.ElementIterator.lys it)
       (CInt.add (fem.ElementIterator.lys it) (fem.ElementIterator.lym it))).

(** [valueAt(x, OUTPUT)]: the sum of this process, before [GlobalSum]. *)
Definition valueAt (it : fem.ElementIterator.t) (x : Z -> Z -> Q) : Q :=
  fold_left
    (fun value (ij : Z * Z) =>
       let tmp := nodal_values (fst ij) (snd ij) x in
       fold_left
         (fun value q =>
            let W := weight q in
            let x_qq := evaluate tmp q in
            value + W * x_qq * x_qq)
         (seq 0 n_pts) value)
    (local_elements it) 0.

(** [dot(a, b, OUTPUT)]: the sum of this process, before [GlobalSum]. *)
Definition dot (it : fem.ElementIterator.t) (a b : Z -> Z -> Q) : Q :=
  fold_left
    (fun value (ij : Z * Z) =>
       let a_q := evaluate (nodal_values (fst ij) (snd ij) a) in
       let b_q := evaluate (nodal_values (fst ij) (snd ij) b) in
       fold_left
         (fun value q =>
            let W := weight q in
            value + W * a_q q * b_q q)
         (seq 0 n_pts) value)
    (local_elements it) 0.

End Functional.

End IP_L2NormFunctional2S.
(* ================================================================= *)
(** * Part II: properties *)
(* ================================================================= *)

(** ** Loops as folds *)

Module LoopFacts.

(** A property that holds before a loop and is kept by every trip holds
    after it. *)
Lemma fold_left_invariant {A X : Type} (P : A -> Prop) (f : A -> X -> A) (l : list X) :
  forall init, P init -> (forall acc x, In x l -> P acc -> P (f acc x)) ->
               P (fold_left f l init).
Proof.
  induction l as [|x t IH]; intros init H0 Hstep; cbn [fold_left]; [exact H0|].
  apply IH.
  - apply Hstep; [now left | exact H0].
  - intros acc y Hy. apply Hstep. now right.
Qed.

Lemma fold_left_map {A X Y : Type} (f : A -> Y -> A) (g : X -> Y) (l : list X) :
  forall a, fold_left f (map g l) a = fold_left (fun acc x => f acc (g x)) l a.
Proof. induction l as [|x t IH]; intros a; cbn; [reflexivity | apply IH]. Qed.

(** Two nested loops are one loop over the pairs, outer index slowest. *)
Lemma nested_fold_flat_map {A X Y : Type} (f : A -> X * Y -> A) (g : X -> list Y)
      (L : list X) :
  forall a,
    fold_left (fun acc t => fold_left (fun acc' s => f acc' (t, s)) (g t) acc) L a =
    fold_left f (flat_map (fun t => map (fun s => (t, s)) (g t)) L) a.
Proof.
  induction L as [|t L' IH]; intros a; cbn [fold_left flat_map]; [reflexivity|].
  rewrite fold_left_app, fold_left_map. apply IH.
Qed.

Lemma bool_eq_iff (a b : bool) : (a = true <-> b = true) -> a = b.
Proof. destruct a, b; intuition congruence. Qed.

End LoopFacts.

Module CIntFacts.

Lemma wrap_id (z : Z) : CInt.in_range z -> CInt.wrap z = z.
Proof.
  unfold CInt.in_range, CInt.INT_MIN, CInt.INT_MAX, CInt.wrap. intros H.
  rewrite Z.mod_small; lia.
Qed.

End CIntFacts.

(** ** [pad] *)

Module PadFacts.
Import Poisson3.

Lemma cdiv_halve (a b : Z) : 0 < b -> (cdiv a b + 1) / 2 = cdiv a (2 * b).
Proof.
  intros Hb. unfold cdiv.
  replace (a + 2 * b - 1) with (a + b - 1 + 1 * b) by ring.
  rewrite (Z.mul_comm 2 b), <- Z.div_div by lia.
  rewrite Z.div_add by lia. reflexivity.
Qed.

Lemma cdiv_bounds (a b : Z) : 0 < b -> 0 <= a -> 0 <= cdiv a b <= a.
Proof.
  intros Hb Ha. unfold cdiv. split.
  - apply Z.div_pos; lia.
  - destruct (Z.eq_dec a 0) as [->|Hne].
    + rewrite Z.div_small; lia.
    + apply Z.div_le_upper_bound; nia.
Qed.

Lemma cdiv_mul_ge (a b : Z) : 0 < b -> a <= b * cdiv a b < a + b.
Proof.
  intros Hb. unfold cdiv.
  pose proof (Z.mod_pos_bound (a + b - 1) b Hb) as Hm.
  pose proof (Z.div_mod (a + b - 1) b ltac:(lia)) as Hd.
  lia.
Qed.

Lemma cdiv_1 (a : Z) : cdiv a 1 = a.
Proof. unfold cdiv. rewrite Z.div_1_r. ring. Qed.

(** The C++ expression [(k % 2 ? k + 1 : k) / 2] is the ceiling of
    [k / 2] for a non-negative [k] below [INT_MAX]. *)
Lemma halve_up (k : Z) :
  0 <= k < CInt.INT_MAX ->
  CInt.div (if negb (CInt.rem k 2 =? 0) then CInt.add k 1 else k) 2 = (k + 1) / 2.
Proof.
  intros Hk. unfold CInt.div, CInt.rem, CInt.add.
  rewrite Z.rem_mod_nonneg by lia.
  pose proof (Z.mod_pos_bound k 2 ltac:(lia)) as Hm.
  pose proof (Z.div_mod k 2 ltac:(lia)) as Hd.
  assert (Hq : (k + 1) / 2 = k / 2 + k mod 2).
  { symmetry. apply Z.div_unique with (r := (1 - k mod 2)); lia. }
  destruct (k mod 2 =? 0) eqn:E; cbn [negb].
  - apply Z.eqb_eq in E. rewrite Z.quot_div_nonneg by lia.
    rewrite CIntFacts.wrap_id; [lia|].
    unfold CInt.in_range, CInt.INT_MIN, CInt.INT_MAX in *. lia.
  - apply Z.eqb_neq in E.
    rewrite (CIntFacts.wrap_id (k + 1))
      by (unfold CInt.in_range, CInt.INT_MIN, CInt.INT_MAX in *; lia).
    rewrite Z.quot_div_nonneg by lia.
    rewrite CIntFacts.wrap_id; [reflexivity|].
    unfold CInt.in_range, CInt.INT_MIN, CInt.INT_MAX in *.
    pose proof (Z.div_pos (k + 1) 2). lia.
Qed.

(** Loop invariant of [pad]: after [m] trips [C = 2^m] and
    [k = ceil((N - 1) / 2^m)], as long as [2^m] fits into an [int]. *)
Lemma pad_loop_inv (N : Z) (m : nat) :
  2 <= N <= CInt.INT_MAX ->
  2 ^ Z.of_nat m <= CInt.INT_MAX ->
  Nat.iter m pad_step (1, CInt.sub N 1) =
  (2 ^ Z.of_nat m, cdiv (N - 1) (2 ^ Z.of_nat m)).
Proof.
  intros HN. induction m as [|m IH]; intros Hm.
  - unfold Nat.iter; cbn [nat_rect]. unfold CInt.sub. rewrite CIntFacts.wrap_id.
    + change (2 ^ Z.of_nat 0) with 1. now rewrite cdiv_1.
    + unfold CInt.in_range, CInt.INT_MIN, CInt.INT_MAX in *. lia.
  - rewrite Nat2Z.inj_succ, Z.pow_succ_r in * by lia.
    assert (Hp : 0 < 2 ^ Z.of_nat m) by (apply Z.pow_pos_nonneg; lia).
    rewrite Nat.iter_succ, IH by lia. unfold pad_step.
    pose proof (cdiv_bounds (N - 1) (2 ^ Z.of_nat m) Hp ltac:(lia)) as Hb.
    rewrite halve_up by (unfold CInt.INT_MAX in *; lia).
    rewrite cdiv_halve by lia. f_equal.
    unfold CInt.mul. rewrite CIntFacts.wrap_id; [ring|].
    unfold CInt.in_range, CInt.INT_MIN, CInt.INT_MAX in *. lia.
Qed.

Lemma padded_size_cdiv (N n : Z) :
  padded_size N n = 2 ^ n * cdiv (N - 1) (2 ^ n) + 1.
Proof. reflexivity. Qed.

(** Without overflow [pad] returns [padded_size N n - N]. *)
Lemma pad_value (N n : Z) :
  2 <= N -> 0 <= n -> padded_size N n <= CInt.INT_MAX ->
  pad N n = padded_size N n - N /\ 0 <= pad N n < 2 ^ n.
Proof.
  intros HN Hn Hfit. rewrite padded_size_cdiv in *.
  assert (Hp : 0 < 2 ^ n) by (apply Z.pow_pos_nonneg; lia).
  pose proof (cdiv_mul_ge (N - 1) (2 ^ n) Hp) as Hge.
  pose proof (cdiv_bounds (N - 1) (2 ^ n) Hp ltac:(lia)) as Hb.
  assert (Hc1 : 1 <= cdiv (N - 1) (2 ^ n)) by nia.
  assert (HNmax : N <= CInt.INT_MAX) by lia.
  assert (H2n : 2 ^ n <= CInt.INT_MAX) by nia.
  unfold pad, pad_loop.
  rewrite pad_loop_inv; rewrite ?Z2Nat.id by lia; try lia.
  unfold CInt.sub, CInt.add, CInt.mul.
  assert (R1 : CInt.wrap (2 ^ n * cdiv (N - 1) (2 ^ n)) = 2 ^ n * cdiv (N - 1) (2 ^ n)).
  { apply CIntFacts.wrap_id.
    unfold CInt.in_range, CInt.INT_MIN, CInt.INT_MAX in *. lia. }
  rewrite R1.
  assert (R2 : CInt.wrap (2 ^ n * cdiv (N - 1) (2 ^ n) + 1) = 2 ^ n * cdiv (N - 1) (2 ^ n) + 1).
  { apply CIntFacts.wrap_id.
    unfold CInt.in_range, CInt.INT_MIN, CInt.INT_MAX in *. lia. }
  rewrite R2.
  rewrite CIntFacts.wrap_id
    by (unfold CInt.in_range, CInt.INT_MIN, CInt.INT_MAX in *; lia).
  lia.
Qed.

Lemma vector_add_at_length (l : list Z) (n : nat) (v : Z) :
  length (vector_add_at l n v) = length l.
Proof.
  revert n; induction l as [|x t IH]; intros [|n]; cbn; auto.
Qed.

Lemma vector_add_at_nth (l : list Z) (n b : nat) (v : Z) :
  (n < length l)%nat ->
  nth b (vector_add_at l n v) 0 = if Nat.eqb b n then nth b l 0 + v else nth b l 0.
Proof.
  revert n b; induction l as [|x t IH]; intros n b Hn; cbn in Hn; [lia|].
  destruct n as [|n], b as [|b]; cbn; auto.
  apply IH. lia.
Qed.

Lemma vector_add_at_sum (l : list Z) (n : nat) (v : Z) :
  (n < length l)%nat ->
  fold_right Z.add 0 (vector_add_at l n v) = fold_right Z.add 0 l + v.
Proof.
  revert n; induction l as [|x t IH]; intros n Hn; cbn in Hn; [lia|].
  destruct n as [|n]; cbn; [lia|]. rewrite IH by lia. lia.
Qed.

(** [pad] on a few sizes: 5 nodes allow two coarsenings as they are,
    6 nodes need 3 more, 101 nodes need 4 more for three levels. *)
Example pad_values :
  pad 5 2 = 0 /\ pad 6 2 = 3 /\ pad 101 3 = 4 /\ pad 7 0 = 0.
Proof. repeat split; vm_compute; reflexivity. Qed.

End PadFacts.

Module Poisson3Facts.
Import Poisson3.

Local Open Scope Q_scope.

(** What [dirichlet_scale] computes: the third summand is [1], not
    [1 / dz^2]. *)
Lemma dirichlet_scale_value (dx dy dz : Q) :
  ~ dz == 0 ->
  dirichlet_scale dx dy dz == dx * dy * dz * (1 / (dx * dx) + 1 / (dy * dy) + 1).
Proof.
  intros Hz. unfold dirichlet_scale.
  assert (E : 1 / dz * dz == 1) by (field; exact Hz).
  rewrite E. reflexivity.
Qed.

(** At an exterior node the residual and the Jacobian diagonal are
    built from one and the same call of [dirichlet_scale]. *)
Lemma exterior_node_shares_scale
      (g : NodeLoopInfo) (p : Parameters) (i j k : Z) (x : Q) :
  node_type p = NODE_EXTERIOR ->
  let scale := dirichlet_scale (nl_dx g) (nl_dy g) (node_dz g p) in
  residual_owned_node g p i j k x = scale * (x - u_exterior) /\
  jacobian_owned_node g p k = Some scale.
Proof.
  intros Hp. unfold residual_owned_node, jacobian_owned_node.
  rewrite Hp, Z.eqb_refl. split; reflexivity.
Qed.

(** C1 (the code departs from the claim).  The claim: at an EXTERIOR
    node the residual is [scale * (x - exterior_default)] and the
    Jacobian diagonal is [scale], with
    [scale = dx*dy*dz*(1/dx^2 + 1/dy^2 + 1/dz^2)], which
    [dirichlet_scale] returns for all positive arguments.  The code
    computes [1.0 / dz * dz] for the last summand: already
    [dirichlet_scale 1 1 2] is [6] and not [9/2], and at an exterior
    node of the unit grid ([dz = 1/10]) the residual for [x = 1] and
    the Jacobian diagonal are [3/10] where the claim asks for
    [51/5]. *)
Theorem dirichlet_scale_departs_from_documented_scale :
  dirichlet_scale 1 1 2 == 6 /\
  documented_scale 1 1 2 == 9 # 2 /\
  node_dz unit_grid ice_free_node == 1 # 10 /\
  residual_owned_node unit_grid ice_free_node 0 0 1 1 == 3 # 10 /\
  (exists s, jacobian_owned_node unit_grid ice_free_node 1 = Some s /\ s == 3 # 10) /\
  documented_scale 1 1 (1 # 10) * (1 - u_exterior) == 51 # 5 /\
  ~ dirichlet_scale 1 1 (1 # 10) == documented_scale 1 1 (1 # 10).
Proof.
  repeat split; try (vm_compute; reflexivity).
  - eexists; split; [reflexivity | vm_compute; reflexivity].
  - vm_compute. discriminate.
Qed.

End Poisson3Facts.

Module PadClaim.
Import Poisson3 PadFacts.

(** C9.  For a grid size [N >= 2] and a level count [n_levels >= 0]
    whose padded size is representable as an [int], [pad] returns a
    non-negative [p] with [(N + p) - 1] divisible by [2^n_levels]; and
    the padding block of [Poisson3::setup] adds [p] to the number of
    grid points, to the last ownership range only and to the upper
    domain bound only, the lower bound [-Lx] staying as it is. *)
Theorem pad_divisible_and_added_at_upper_edge
  (N n_levels : Z) (lx : list Z) (Lx dx : Q) :
  2 <= N -> 0 <= n_levels -> padded_size N n_levels <= CInt.INT_MAX ->
  lx <> [] ->
  let p := pad N n_levels in
  let r := setup_pad_direction lx (Z.of_nat (length lx)) N n_levels Lx dx in
  0 <= p /\
  ((N + p) - 1) mod 2 ^ n_levels = 0 /\
  pd_M r = N + p /\
  length (pd_lx r) = length lx /\
  (forall b, (b < length lx)%nat ->
     nth b (pd_lx r) 0 =
     if Nat.eqb b (length lx - 1) then nth b lx 0 + p else nth b lx 0) /\
  fold_right Z.add 0 (pd_lx r) = fold_right Z.add 0 lx + p /\
  pd_x_min r = Qopp Lx /\
  pd_x_max r = (Lx + inject_Z p * dx)%Q.
Proof.
  intros HN Hn Hfit Hlx p r.
  destruct (pad_value N n_levels HN Hn Hfit) as [Hp Hr].
  assert (Hlen : (Z.to_nat (Z.of_nat (length lx) - 1) = length lx - 1)%nat) by lia.
  assert (Hpos : (length lx - 1 < length lx)%nat).
  { destruct lx; [congruence | cbn; lia]. }
  subst r. unfold setup_pad_direction. cbn [pd_M pd_lx pd_x_min pd_x_max].
  fold p. rewrite Hlen.
  repeat split; try tauto; try lia.
  - replace (N + p - 1) with (cdiv (N - 1) (2 ^ n_levels) * 2 ^ n_levels).
    + apply Z.mod_mul. apply Z.pow_nonzero; lia.
    + subst p. rewrite Hp, padded_size_cdiv. ring.
  - apply vector_add_at_length.
  - intros b Hb. apply vector_add_at_nth. exact Hpos.
  - apply vector_add_at_sum. exact Hpos.
Qed.

Lemma pad_divisible_and_added_at_upper_edge_witness :
  (2 <= 6 /\ 0 <= 2 /\ padded_size 6 2 <= CInt.INT_MAX /\ [3; 3] <> []) /\
  pad 6 2 = 3 /\ (6 + pad 6 2 - 1) mod 2 ^ 2 = 0 /\
  pd_lx (setup_pad_direction [3; 3] 2 6 2 1 (1 # 2)) = [3; 6].
Proof.
  assert (H1 : 2 <= 6) by lia.
  assert (H2 : 0 <= 2) by lia.
  assert (H3 : padded_size 6 2 <= CInt.INT_MAX) by (vm_compute; discriminate).
  assert (H4 : [3; 3] <> []) by discriminate.
  pose proof (pad_divisible_and_added_at_upper_edge 6 2 [3; 3] 1 (1 # 2) H1 H2 H3 H4) as H.
  cbv zeta in H. destruct H as (_ & Hd & _).
  repeat split; try assumption; reflexivity.
Defined.

End PadClaim.

(** ** Grid iterators *)

Module GridFacts.
Import Grid.

Lemma zrange_cons (a : Z) (n : nat) : zrange a (S n) = a :: zrange (a + 1) n.
Proof.
  unfold zrange. cbn [seq map]. f_equal; [lia|].
  rewrite <- seq_shift, map_map. apply map_ext. intros d. lia.
Qed.

Lemma zrange_length (a : Z) (n : nat) : length (zrange a n) = n.
Proof. unfold zrange. now rewrite length_map, length_seq. Qed.

Lemma in_zrange (a : Z) (n : nat) (x : Z) :
  In x (zrange a n) <-> a <= x < a + Z.of_nat n.
Proof.
  unfold zrange. rewrite in_map_iff. split.
  - intros (d & <- & Hd%in_seq). lia.
  - intros H. exists (Z.to_nat (x - a)). split; [lia|]. apply in_seq. lia.
Qed.

Lemma NoDup_zrange (a : Z) (n : nat) : NoDup (zrange a n).
Proof.
  unfold zrange. apply Injective_map_NoDup; [|apply seq_NoDup].
  intros x y. lia.
Qed.

Lemma rectangle_cons (i0 : Z) (ni : nat) (j0 : Z) (nj : nat) :
  rectangle i0 (S ni) j0 nj =
  map (fun j => (i0, j)) (zrange j0 nj) ++ rectangle (i0 + 1) ni j0 nj.
Proof. unfold rectangle. now rewrite zrange_cons. Qed.

Lemma in_rectangle (i0 : Z) (ni : nat) (j0 : Z) (nj : nat) (i j : Z) :
  In (i, j) (rectangle i0 ni j0 nj) <->
  i0 <= i < i0 + Z.of_nat ni /\ j0 <= j < j0 + Z.of_nat nj.
Proof.
  unfold rectangle. rewrite in_flat_map. split.
  - intros (a & Ha%in_zrange & Hin). apply in_map_iff in Hin.
    destruct Hin as (b & [= <- <-] & Hb%in_zrange). lia.
  - intros [Hi Hj]. exists i. split; [now apply in_zrange|].
    apply in_map_iff. exists j. split; [reflexivity | now apply in_zrange].
Qed.

Lemma rectangle_length (i0 : Z) (ni : nat) (j0 : Z) (nj : nat) :
  length (rectangle i0 ni j0 nj) = (ni * nj)%nat.
Proof.
  revert i0; induction ni as [|ni IH]; intros i0; [reflexivity|].
  rewrite rectangle_cons, length_app, length_map, zrange_length, IH. lia.
Qed.

Lemma NoDup_rectangle (i0 : Z) (ni : nat) (j0 : Z) (nj : nat) :
  NoDup (rectangle i0 ni j0 nj).
Proof.
  revert i0; induction ni as [|ni IH]; intros i0; [constructor|].
  rewrite rectangle_cons. apply NoDup_app; [| apply IH |].
  - apply Injective_map_NoDup; [|apply NoDup_zrange].
    intros x y [= ->]. reflexivity.
  - intros [i j] Hin Hin'. apply in_map_iff in Hin.
    destruct Hin as (b & [= <- <-] & _). apply in_rectangle in Hin'. lia.
Qed.

(** Each pair of the rectangle occurs in it once, any other pair not
    at all. *)
Lemma count_occ_rectangle
  (eq_dec : forall a b : Z * Z, {a = b} + {a <> b})
  (i0 : Z) (ni : nat) (j0 : Z) (nj : nat) (i j : Z) :
  count_occ eq_dec (rectangle i0 ni j0 nj) (i, j) =
  if (i0 <=? i) && (i <? i0 + Z.of_nat ni) && (j0 <=? j) && (j <? j0 + Z.of_nat nj)
  then 1%nat else 0%nat.
Proof.
  pose proof (in_rectangle i0 ni j0 nj i j) as Hin.
  destruct ((i0 <=? i) && (i <? i0 + Z.of_nat ni) && (j0 <=? j) && (j <? j0 + Z.of_nat nj)) eqn:E.
  - apply NoDup_count_occ'; [apply NoDup_rectangle|]. apply Hin.
    rewrite !andb_true_iff in E. lia.
  - apply count_occ_not_In. rewrite Hin. intros H.
    assert (E' : (i0 <=? i) && (i <? i0 + Z.of_nat ni) && (j0 <=? j) && (j <? j0 + Z.of_nat nj) = true).
    { rewrite !andb_true_iff. lia. }
    congruence.
Qed.

Section Iteration.

Variables i_first i_last j_first j_last : Z.
Hypothesis Hi : i_first <= i_last < CInt.INT_MAX.
Hypothesis Hj : j_first <= j_last < CInt.INT_MAX.
Hypothesis Hi_min : CInt.INT_MIN <= i_first.
Hypothesis Hj_min : CInt.INT_MIN <= j_first.

(** The iterator at position [(i, j)]. *)
Let st (i j : Z) (done : bool) : PointsWithGhosts :=
  {| m_i := i; m_j := j;
     m_i_first := i_first; m_i_last := i_last;
     m_j_first := j_first; m_j_last := j_last;
     m_done := done |}.

(** What is still to be visited from position [(i, j)]. *)
Let rest (i j : Z) : list (Z * Z) :=
  map (fun b => (i, b)) (zrange j (Z.to_nat (j_last - j + 1)))
  ++ rectangle (i + 1) (Z.to_nat (i_last - i)) j_first (Z.to_nat (j_last - j_first + 1)).

Lemma add1_in_range (v hi : Z) :
  CInt.INT_MIN <= v -> v <= hi -> hi < CInt.INT_MAX -> CInt.add v 1 = v + 1.
Proof.
  intros. unfold CInt.add. apply CIntFacts.wrap_id.
  unfold CInt.in_range, CInt.INT_MIN, CInt.INT_MAX in *. lia.
Qed.

Lemma next_cases (i j : Z) :
  i_first <= i <= i_last -> j_first <= j <= j_last ->
  next (st i j false) =
  if j <? j_last then st i (j + 1) false
  else if i <? i_last then st (i + 1) j_first false
  else st i_first j_first true.
Proof.
  intros Hii Hjj. unfold next, st. cbn [m_i m_j m_i_first m_i_last m_j_first m_j_last m_done].
  rewrite (add1_in_range j j_last) by lia.
  rewrite (add1_in_range i i_last) by lia.
  destruct (j <? j_last) eqn:Ej.
  - apply Z.ltb_lt in Ej.
    replace (j_last <? j + 1) with false by (symmetry; apply Z.ltb_ge; lia).
    replace (i_last <? i) with false by (symmetry; apply Z.ltb_ge; lia).
    reflexivity.
  - apply Z.ltb_ge in Ej.
    replace (j_last <? j + 1) with true by (symmetry; apply Z.ltb_lt; lia).
    destruct (i <? i_last) eqn:Ei.
    + apply Z.ltb_lt in Ei.
      replace (i_last <? i + 1) with false by (symmetry; apply Z.ltb_ge; lia).
      reflexivity.
    + apply Z.ltb_ge in Ei.
      replace (i_last <? i + 1) with true by (symmetry; apply Z.ltb_lt; lia).
      reflexivity.
Qed.

Lemma rest_cases (i j : Z) :
  i_first <= i <= i_last -> j_first <= j <= j_last ->
  rest i j =
  (i, j) :: (if j <? j_last then rest i (j + 1)
             else if i <? i_last then rest (i + 1) j_first
             else []).
Proof.
  intros Hii Hjj. unfold rest.
  replace (Z.to_nat (j_last - j + 1)) with (S (Z.to_nat (j_last - j))) by lia.
  rewrite zrange_cons. cbn [map app]. f_equal.
  destruct (j <? j_last) eqn:Ej.
  - apply Z.ltb_lt in Ej.
    replace (Z.to_nat (j_last - (j + 1) + 1)) with (Z.to_nat (j_last - j)) by lia.
    reflexivity.
  - apply Z.ltb_ge in Ej.
    replace (Z.to_nat (j_last - j)) with 0%nat by lia. cbn [zrange seq map app].
    destruct (i <? i_last) eqn:Ei.
    + apply Z.ltb_lt in Ei.
      replace (Z.to_nat (i_last - i)) with (S (Z.to_nat (i_last - (i + 1)))) by lia.
      rewrite rectangle_cons. reflexivity.
    + apply Z.ltb_ge in Ei.
      replace (Z.to_nat (i_last - i)) with 0%nat by lia. reflexivity.
Qed.

Lemma visit_done (fuel : nat) (i j : Z) : visit fuel (st i j true) = Some [].
Proof. destruct fuel; reflexivity. Qed.

(** With enough fuel the loop ends, having visited [rest i j]. *)
Lemma visit_rest (fuel : nat) :
  forall i j,
    i_first <= i <= i_last -> j_first <= j <= j_last ->
    (length (rest i j) <= fuel)%nat ->
    visit fuel (st i j false) = Some (rest i j).
Proof.
  induction fuel as [|fuel IH]; intros i j Hii Hjj Hlen.
  - rewrite rest_cases in Hlen by assumption. cbn in Hlen. lia.
  - rewrite rest_cases in * by assumption. cbn [length] in Hlen.
    change (visit (S fuel) (st i j false))
      with (match visit fuel (next (st i j false)) with
            | Some l => Some ((i, j) :: l)
            | None => None
            end).
    rewrite next_cases by assumption.
    destruct (j <? j_last) eqn:Ej.
    + apply Z.ltb_lt in Ej. rewrite IH by lia. reflexivity.
    + destruct (i <? i_last) eqn:Ei.
      * apply Z.ltb_lt in Ei. rewrite IH by lia. reflexivity.
      * rewrite visit_done. reflexivity.
Qed.

Lemma rest_first :
  rest i_first j_first =
  rectangle i_first (Z.to_nat (i_last - i_first + 1))
            j_first (Z.to_nat (j_last - j_first + 1)).
Proof.
  unfold rest.
  replace (Z.to_nat (i_last - i_first + 1)) with (S (Z.to_nat (i_last - i_first))) by lia.
  now rewrite rectangle_cons.
Qed.

Lemma visit_all (fuel : nat) :
  (Z.to_nat (i_last - i_first + 1) * Z.to_nat (j_last - j_first + 1) <= fuel)%nat ->
  visit fuel (st i_first j_first false) =
  Some (rectangle i_first (Z.to_nat (i_last - i_first + 1))
                  j_first (Z.to_nat (j_last - j_first + 1))).
Proof.
  intros Hfuel. rewrite <- rest_first. apply visit_rest; try lia.
  rewrite rest_first, rectangle_length. exact Hfuel.
Qed.

End Iteration.

(** The loop over [PointsWithGhosts(g, w)] ends and visits the patch
    widened by [w] on every side, as it is: the first index slowest. *)
Lemma visit_PointsWithGhosts (g : IceGrid) (w : Z) (fuel : nat) :
  patch_ok g w ->
  (Z.to_nat (xm g + 2 * w) * Z.to_nat (ym g + 2 * w) <= fuel)%nat ->
  visit fuel (PointsWithGhosts_new g w) =
  Some (rectangle (xs g - w) (Z.to_nat (xm g + 2 * w))
                  (ys g - w) (Z.to_nat (ym g + 2 * w))).
Proof.
  intros (Hxm & Hym & Hw & Hx0 & Hx1 & Hy0 & Hy1) Hfuel.
  unfold PointsWithGhosts_new.
  rewrite !CIntFacts.wrap_id
    by (unfold CInt.in_range, CInt.INT_MIN, CInt.INT_MAX in *; lia).
  pose proof (visit_all (xs g - w) (xs g + xm g + w - 1) (ys g - w) (ys g + ym g + w - 1)
                ltac:(lia) ltac:(lia) ltac:(lia) ltac:(lia) fuel) as H.
  replace (xs g + xm g + w - 1 - (xs g - w) + 1) with (xm g + 2 * w) in H by ring.
  replace (ys g + ym g + w - 1 - (ys g - w) + 1) with (ym g + 2 * w) in H by ring.
  apply H. exact Hfuel.
Qed.

End GridFacts.

Module GridClaims.
Import Grid GridFacts.

Lemma owns_rectangle (g : IceGrid) (ij : Z * Z) :
  0 <= xm g -> 0 <= ym g ->
  In ij (rectangle (xs g) (Z.to_nat (xm g)) (ys g) (Z.to_nat (ym g))) <-> owns g ij = true.
Proof.
  intros Hx Hy. destruct ij as [i j]. rewrite in_rectangle. unfold owns.
  rewrite !andb_true_iff, !Z.leb_le, !Z.ltb_lt. lia.
Qed.

Lemma count_occ_owned (g : IceGrid) (ij : Z * Z) :
  0 <= xm g -> 0 <= ym g ->
  count_occ index_eq_dec (rectangle (xs g) (Z.to_nat (xm g)) (ys g) (Z.to_nat (ym g))) ij =
  if owns g ij then 1%nat else 0%nat.
Proof.
  intros Hx Hy. destruct ij as [i j]. rewrite count_occ_rectangle. unfold owns.
  rewrite !Z2Nat.id by lia. reflexivity.
Qed.

Lemma visit_Points (g : IceGrid) (fuel : nat) :
  patch_ok g 0 ->
  (Z.to_nat (xm g) * Z.to_nat (ym g) <= fuel)%nat ->
  visit fuel (Points_new g) =
  Some (rectangle (xs g) (Z.to_nat (xm g)) (ys g) (Z.to_nat (ym g))).
Proof.
  intros Hok Hfuel. unfold Points_new.
  rewrite (visit_PointsWithGhosts g 0 fuel Hok).
  - now rewrite !Z.sub_0_r, !Z.add_0_r.
  - now rewrite !Z.add_0_r.
Qed.

Lemma length_filter_count (procs : list IceGrid) (ij : Z * Z) :
  length (filter (fun q => owns q ij) procs) =
  fold_right (fun q n => ((if owns q ij then 1 else 0) + n)%nat) 0%nat procs.
Proof.
  induction procs as [|q rest IH]; [reflexivity|]. cbn [filter fold_right].
  destruct (owns q ij); cbn [length]; lia.
Qed.

Lemma visits_of_all_count (fuel : nat) (procs : list IceGrid) :
  (forall q, In q procs ->
     patch_ok q 0 /\ (Z.to_nat (xm q) * Z.to_nat (ym q) <= fuel)%nat) ->
  exists u, visits_of_all fuel procs = Some u /\
    forall ij, count_occ index_eq_dec u ij = length (filter (fun q => owns q ij) procs).
Proof.
  induction procs as [|q rest IH]; intros Hall.
  - exists []. split; [reflexivity | intros ij; reflexivity].
  - destruct IH as (r & Hr & Hcount).
    { intros q' Hq'. apply Hall. now right. }
    destruct (Hall q (or_introl eq_refl)) as [Hok Hfuel].
    eexists. cbn [visits_of_all]. rewrite (visit_Points q fuel Hok Hfuel), Hr.
    split; [reflexivity|]. intros ij.
    rewrite count_occ_app, Hcount, count_occ_owned
      by (destruct Hok as (? & ? & _); lia).
    cbn [filter]. destruct (owns q ij); reflexivity.
Qed.

(** C8.  On one process the loop over [Points(grid)] ends and visits
    the index pairs of the owned patch [[xs, xs+xm) x [ys, ys+ym)],
    each once, in one fixed order (first index slowest), and nothing
    else.  When the patches of all processes partition the global
    index space, the visits of all processes together contain every
    index pair of the space exactly once and no other pair.  A patch is
    taken to be non-empty and within [int] ([patch_ok]). *)
Theorem Points_visits_owned_patch_exactly_once
  (g : IceGrid) (MX MY : Z) (procs : list IceGrid) (fuel : nat) :
  patch_ok g 0 ->
  (Z.to_nat (xm g) * Z.to_nat (ym g) <= fuel)%nat ->
  (forall q, In q procs ->
     patch_ok q 0 /\ (Z.to_nat (xm q) * Z.to_nat (ym q) <= fuel)%nat) ->
  partitions MX MY procs ->
  (exists l, visit fuel (Points_new g) = Some l /\
     l = rectangle (xs g) (Z.to_nat (xm g)) (ys g) (Z.to_nat (ym g)) /\
     NoDup l /\
     (forall ij, In ij l <-> owns g ij = true)) /\
  (exists u, visits_of_all fuel procs = Some u /\
     forall ij, count_occ index_eq_dec u ij = if in_space MX MY ij then 1%nat else 0%nat).
Proof.
  intros Hok Hfuel Hall Hpart. split.
  - eexists. split; [apply visit_Points; assumption|].
    split; [reflexivity|]. split; [apply NoDup_rectangle|].
    intros ij. apply owns_rectangle; destruct Hok as (? & ? & _); lia.
  - destruct (visits_of_all_count fuel procs Hall) as (u & Hu & Hcount).
    exists u. split; [exact Hu|]. intros ij. rewrite Hcount. apply Hpart.
Qed.

Lemma two_patches_partition : partitions 4 2 [left_patch; right_patch].
Proof.
  intros [i j]. unfold in_space. cbn [filter owns left_patch right_patch xs xm ys ym].
  destruct (0 <=? i) eqn:E1, (i <? 0 + 2) eqn:E2, (2 <=? i) eqn:E3, (i <? 2 + 2) eqn:E4,
    (i <? 4) eqn:E5, (0 <=? j) eqn:E6, (j <? 0 + 2) eqn:E7, (j <? 2) eqn:E8;
    cbn; try reflexivity;
    rewrite ?Z.leb_le, ?Z.ltb_lt, ?Z.leb_gt, ?Z.ltb_ge in *; lia.
Qed.

Lemma patch_ok_examples :
  patch_ok small_grid 0 /\ patch_ok left_patch 0 /\ patch_ok right_patch 0 /\
  patch_ok small_grid 1 /\ patch_ok small_periodic_grid 1.
Proof. unfold patch_ok, CInt.INT_MIN, CInt.INT_MAX. cbn. lia. Qed.

Lemma Points_visits_owned_patch_exactly_once_witness :
  patch_ok small_grid 0 /\
  partitions 4 2 [left_patch; right_patch] /\
  visit 4 (Points_new small_grid) = Some [(0, 0); (0, 1); (1, 0); (1, 1)] /\
  exists u, visits_of_all 4 [left_patch; right_patch] = Some u /\
    forall ij, count_occ index_eq_dec u ij = if in_space 4 2 ij then 1%nat else 0%nat.
Proof.
  assert (H1 : patch_ok small_grid 0) by apply patch_ok_examples.
  assert (H2 : (Z.to_nat (xm small_grid) * Z.to_nat (ym small_grid) <= 4)%nat)
    by (cbn; lia).
  assert (H3 : forall q, In q [left_patch; right_patch] ->
            patch_ok q 0 /\ (Z.to_nat (xm q) * Z.to_nat (ym q) <= 4)%nat).
  { intros q [<- | [<- | []]]; (split; [apply patch_ok_examples | cbn; lia]). }
  pose proof (Points_visits_owned_patch_exactly_once
                small_grid 4 2 [left_patch; right_patch] 4
                H1 H2 H3 two_patches_partition) as [(l & Hl & Heq & _) Hu].
  split; [exact H1|]. split; [exact two_patches_partition|].
  split; [|exact Hu].
  rewrite Hl, Heq. reflexivity.
Defined.

(** C7, as the code has it.  The loop over [PointsWithGhosts(grid, w)]
    ends and visits the rectangle [[xs-w, xs+xm+w) x [ys-w, ys+ym+w)],
    each pair once, first index slowest; the indices are neither
    clipped to the global range nor wrapped, whatever the periodicity
    and the global sizes of the grid. *)
Theorem PointsWithGhosts_visits_widened_patch
  (g : IceGrid) (w : Z) (fuel : nat) :
  patch_ok g w ->
  (Z.to_nat (xm g + 2 * w) * Z.to_nat (ym g + 2 * w) <= fuel)%nat ->
  exists l, visit fuel (PointsWithGhosts_new g w) = Some l /\
    l = rectangle (xs g - w) (Z.to_nat (xm g + 2 * w))
                  (ys g - w) (Z.to_nat (ym g + 2 * w)) /\
    NoDup l /\
    (forall i j, In (i, j) l <->
       xs g - w <= i < xs g + xm g + w /\ ys g - w <= j < ys g + ym g + w).
Proof.
  intros Hok Hfuel. eexists. split; [apply visit_PointsWithGhosts; assumption|].
  split; [reflexivity|]. split; [apply NoDup_rectangle|].
  intros i j. rewrite in_rectangle.
  destruct Hok as (? & ? & ? & _). rewrite !Z2Nat.id by lia. lia.
Qed.

Lemma PointsWithGhosts_visits_widened_patch_witness :
  patch_ok small_grid 1 /\
  exists l, visit 16 (PointsWithGhosts_new small_grid 1) = Some l /\
    l = rectangle (-1) 4 (-1) 4.
Proof.
  assert (H1 : patch_ok small_grid 1) by apply patch_ok_examples.
  assert (H2 : (Z.to_nat (xm small_grid + 2 * 1) * Z.to_nat (ym small_grid + 2 * 1) <= 16)%nat)
    by (cbn; lia).
  destruct (PointsWithGhosts_visits_widened_patch small_grid 1 16 H1 H2)
    as (l & Hl & Heq & _).
  split; [exact H1|]. exists l. split; [exact Hl | exact Heq].
Defined.

(** C7 as stated fails: on a bounded 2 x 2 grid the halo of width 1
    makes the loop visit [(-1, -1)] and [(2, 2)], which lie outside the
    valid global range and are not clipped away; on the periodic 2 x 2
    grid the same pairs are visited, not their images modulo the
    global extent. *)
Lemma PointsWithGhosts_neither_clips_nor_wraps :
  (exists l, visit 16 (PointsWithGhosts_new small_grid 1) = Some l /\
     periodicity small_grid = NOT_PERIODIC /\
     In (-1, -1) l /\ In (2, 2) l /\
     in_global small_grid (-1, -1) = false /\ in_global small_grid (2, 2) = false) /\
  (exists l, visit 16 (PointsWithGhosts_new small_periodic_grid 1) = Some l /\
     periodicity small_periodic_grid = XY_PERIODIC /\
     In (-1, -1) l /\ In (2, 2) l /\
     in_global small_periodic_grid (-1, -1) = false /\
     in_global small_periodic_grid (2, 2) = false).
Proof.
  split; eexists; (split; [vm_compute; reflexivity|]);
    repeat split; cbn; tauto.
Qed.

End GridClaims.

(** ** Shape functions and quadratures *)

Module FemFacts.
Import fem.

Local Open Scope Q_scope.

(** C10.  Partition of unity: at every point of the reference element
    the four Q1 shape functions of [q1::chi] sum to 1 and their
    derivatives with respect to [xi] and to [eta] sum to 0; the same
    holds for the three P1 shape functions of [p1::chi] together with
    the dummy fourth. *)
Theorem chi_partition_of_unity (pt : QuadPoint) :
  (val (q1_chi 0 pt) + val (q1_chi 1 pt) + val (q1_chi 2 pt) + val (q1_chi 3 pt) == 1 /\
   dx (q1_chi 0 pt) + dx (q1_chi 1 pt) + dx (q1_chi 2 pt) + dx (q1_chi 3 pt) == 0 /\
   dy (q1_chi 0 pt) + dy (q1_chi 1 pt) + dy (q1_chi 2 pt) + dy (q1_chi 3 pt) == 0) /\
  (val (p1_chi 0 pt) + val (p1_chi 1 pt) + val (p1_chi 2 pt) + val (p1_chi 3 pt) == 1 /\
   dx (p1_chi 0 pt) + dx (p1_chi 1 pt) + dx (p1_chi 2 pt) + dx (p1_chi 3 pt) == 0 /\
   dy (p1_chi 0 pt) + dy (p1_chi 1 pt) + dy (p1_chi 2 pt) + dy (p1_chi 3 pt) == 0).
Proof.
  destruct pt as [x e].
  unfold q1_chi, p1_chi, q1_xi, q1_eta; cbn [nth val dx dy xi eta].
  repeat split; ring.
Qed.

Ltac unfold_quadrature :=
  cbv [total_weight Q1Quadrature4 Q1Quadrature9 Q1Quadrature16
       tensor_product_quadrature initialize UniformQxQuadrature_J determinant
       m_W J00 J01 J10 J11 map seq flat_map app nth fold_right].

(** C6.  With unit length scaling the weights of the 4-, 9- and
    16-point Gaussian rules on a Q1 element sum to [dx * dy], and the
    weights of the 3-point rule on each of the four P1 elements sum to
    [dx * dy / 2]. *)
Theorem quadrature_weights_sum_to_area (sqrt : Q -> Q) (dx dy : Q) :
  total_weight (Q1Quadrature4 sqrt dx dy 1) == dx * dy /\
  total_weight (Q1Quadrature9 sqrt dx dy 1) == dx * dy /\
  total_weight (Q1Quadrature16 sqrt dx dy 1) == dx * dy /\
  Forall (fun N => exists quad, P1Quadrature3 N dx dy 1 = Some quad /\
                     total_weight quad == dx * dy / 2)
         [0; 1; 2; 3]%nat.
Proof.
  split; [|split; [|split]].
  - unfold_quadrature. field.
  - unfold_quadrature. field.
  - unfold_quadrature. field.
  - repeat constructor; (eexists; split; [reflexivity|]);
      cbv [total_weight initialize determinant
           m_W J00 J01 J10 J11 map seq nth fold_right]; field.
Qed.

End FemFacts.

(** ** Dirichlet rows of the Jacobian *)

Module DirichletFacts.
Import fem LoopFacts.




Section Frame.

Variable m_invalid_dof : Z.
Hypothesis invalid_negative : (m_invalid_dof < 0)%Z.
Variable B : Type.
Variable Bplus : B -> B -> B.
Variable Bzero : B.
Variable grid : Grid.IceGrid.
Variable dd : DirichletData.

Local Abbreviation Mat := (Mat B) (only parsing).
Local Abbreviation invalid := (invalid_stencil m_invalid_dof) (only parsing).

(** Node [n] is a Dirichlet node. *)
Let dirichlet (n : Z * Z) : bool := exceeds_half (m_indices dd (fst n) (snd n)).




















End Frame.

End DirichletFacts.

Module DirichletClaim.
Import fem DirichletFacts.

Local Open Scope Q_scope.



(** The same entries, computed: the element at [(0, 0)] of the 2 x 2
    grid with all-ones local matrix leaves the row and the column of
    the Dirichlet node [(1, 1)] alone and adds 1 elsewhere. *)
Example jacobian_scalar_small_grid :
  exists J,
    jacobian_scalar (-1) 4 Grid.small_grid corner_dirichlet
                    (fun _ _ => ones 16) [(0, 0)%Z] = Some J /\
    J (1, 1)%Z (1, 1)%Z == 3 /\ J (0, 0)%Z (0, 0)%Z == 1 /\
    J (0, 0)%Z (1, 0)%Z == 1 /\ J (1, 1)%Z (0, 1)%Z == 0.
Proof.
  eexists. split; [reflexivity|]. repeat split; vm_compute; reflexivity.
Qed.

End DirichletClaim.

(** ** Node classification *)

Module NodeTypeFacts.
Import Poisson3 NodeTypes LoopFacts.

Lemma with_node_type_twice (p : Parameters) (a b : Z) :
  with_node_type (with_node_type p a) b = with_node_type p b.
Proof. reflexivity. Qed.

Lemma same_index_eq (a b : Z * Z) : same_index a b = true <-> a = b.
Proof.
  destruct a as [a1 a2], b as [b1 b2]. unfold same_index. cbn [fst snd].
  rewrite andb_true_iff, !Z.eqb_eq. split; [intros [-> ->]; reflexivity | intros [= -> ->]; auto].
Qed.

Lemma same_index_refl (a : Z * Z) : same_index a a = true.
Proof. now apply same_index_eq. Qed.

Lemma memb_In (x : Z * Z) (l : list (Z * Z)) : memb x l = true <-> In x l.
Proof.
  unfold memb. rewrite existsb_exists. split.
  - intros (y & Hy & E%same_index_eq). now subst.
  - intros H. exists x. split; [exact H | apply same_index_refl].
Qed.

Lemma memb_false (x : Z * Z) (l : list (Z * Z)) : ~ In x l -> memb x l = false.
Proof.
  intros H. destruct (memb x l) eqn:E; [|reflexivity].
  apply memb_In in E. contradiction.
Qed.

(** Two nested [for] loops are one loop over the rectangle, outer index
    slowest. *)
Lemma nested_loops {A : Type} (f : A -> Z * Z -> A) (a0 : Z) (n : nat) (b0 : Z) (m : nat) :
  forall a,
    fold_left (fun acc j => fold_left (fun acc' i => f acc' (j, i)) (Grid.zrange b0 m) acc)
              (Grid.zrange a0 n) a =
    fold_left f (Grid.rectangle a0 n b0 m) a.
Proof.
  unfold Grid.rectangle. induction (Grid.zrange a0 n) as [|j t IH]; intros a; cbn [fold_left flat_map].
  - reflexivity.
  - rewrite fold_left_app, fold_left_map. apply IH.
Qed.

(** A loop of assignments [P[j][i].node_type = v(j, i)]. *)
Lemma fold_set_node_type (v : Z * Z -> Z) (L : list (Z * Z)) :
  forall (P : Field) (j i : Z),
    fold_left (fun P' ji => set_node_type P' ji (v ji)) L P j i =
    if memb (j, i) L then with_node_type (P j i) (v (j, i)) else P j i.
Proof.
  induction L as [|x t IH]; intros P j i; [reflexivity|].
  cbn [fold_left]. rewrite IH. cbn [memb existsb]. fold (memb (j, i) t).
  unfold set_node_type at 1 2. unfold same_index. cbn [fst snd].
  destruct ((j =? fst x) && (i =? snd x)) eqn:E.
  - rewrite andb_true_iff, !Z.eqb_eq in E. destruct E as [-> ->].
    cbn [orb]. destruct x as [xj xi]; cbn [fst snd].
    destruct (memb (xj, xi) t); reflexivity.
  - cbn [orb]. reflexivity.
Qed.

Lemma interior_ext (min_thickness : Q) (P P' : Field) (ji : Z * Z) :
  (forall j i, thickness (P j i) = thickness (P' j i)) ->
  interior min_thickness P ji = interior min_thickness P' ji.
Proof.
  intros H. unfold interior, fem.q1_n_chi. cbn [seq forallb].
  now rewrite !H.
Qed.

Lemma local_to_global_value (ji : Z * Z) (k : nat) :
  element_in_int ji -> (k < 4)%nat ->
  local_to_global (snd ji) (fst ji) k = nth k (element_nodes ji) (0, 0).
Proof.
  intros (H1 & H2 & H3 & H4) Hk. unfold local_to_global, element_nodes, CInt.add.
  do 4 (destruct k as [|k];
        [ cbn [fem.m_i_offset fem.m_j_offset nth];
          rewrite !CIntFacts.wrap_id
            by (unfold CInt.in_range, CInt.INT_MIN, CInt.INT_MAX in *; lia);
          rewrite ?Z.add_0_r; reflexivity | ]).
  lia.
Qed.

Lemma interior_icy (min_thickness : Q) (F : Field) (ji : Z * Z) :
  element_in_int ji ->
  interior min_thickness F ji = icy_at_least min_thickness F ji.
Proof.
  intros Hin. unfold interior, icy_at_least, nodal_thicknesses, fem.q1_n_chi.
  cbn [seq forallb]. rewrite !(local_to_global_value ji) by (assumption || lia).
  cbn [nth element_nodes fst snd].
  unfold less. now rewrite !negb_involutive.
Qed.

(** The body of the element loop adds the flag once at each of the four
    nodes and touches nothing else. *)
Lemma count_element_value (min_thickness : Q) (P : Field) (ji : Z * Z) (j i : Z) :
  element_in_int ji ->
  count_element min_thickness P ji j i =
  if memb (j, i) (element_nodes ji)
  then with_node_type (P j i)
         (node_type (P j i) + (if interior min_thickness P ji then 1 else 0))
  else P j i.
Proof.
  intros Hin. unfold count_element, fem.q1_n_chi.
  cbn [seq fold_left]. rewrite !(local_to_global_value ji) by (assumption || lia).
  cbn [nth element_nodes].
  destruct ji as [j0 i0]. cbn [fst snd] in *.
  unfold memb, element_nodes, same_index, set_node_type. cbn [existsb fst snd].
  repeat match goal with
         | |- context [Z.eqb ?a ?b] => destruct (Z.eqb_spec a b); try lia
         end; cbn [andb orb with_node_type node_type thickness bed];
    first [reflexivity | subst j i; reflexivity].
Qed.

Lemma count_element_thickness (min_thickness : Q) (P : Field) (ji : Z * Z) (j i : Z) :
  element_in_int ji ->
  thickness (count_element min_thickness P ji j i) = thickness (P j i).
Proof.
  intros Hin. rewrite count_element_value by exact Hin.
  destruct (memb (j, i) (element_nodes ji)); reflexivity.
Qed.

(** The element loop: the counter of a node grows by the number of
    visited elements that are interior and have the node as a vertex. *)
Lemma count_loop (min_thickness : Q) (F : Field) (L : list (Z * Z)) :
  Forall element_in_int L ->
  forall (P : Field) (j i : Z),
    (forall j' i', thickness (P j' i') = thickness (F j' i')) ->
    fold_left (count_element min_thickness) L P j i =
    with_node_type (P j i)
      (node_type (P j i) +
       Z.of_nat (length (filter (fun e => memb (j, i) (element_nodes e)
                                          && icy_at_least min_thickness F e) L))).
Proof.
  induction 1 as [|e t He Ht IH]; intros P j i HP.
  - cbn. destruct (P j i); cbn. now rewrite Z.add_0_r.
  - cbn [fold_left filter]. rewrite IH.
    + rewrite count_element_value by exact He.
      rewrite (interior_ext _ P F e HP), (interior_icy _ F e He).
      destruct (memb (j, i) (element_nodes e)); cbn [andb].
      * rewrite with_node_type_twice. cbn [node_type with_node_type].
        destruct (icy_at_least min_thickness F e); cbn [length]; f_equal; lia.
      * reflexivity.
    + intros j' i'. rewrite count_element_thickness by exact He. apply HP.
Qed.

Lemma length_filter_or {X : Type} (p1 p2 : X -> bool) (l : list X) :
  (forall x, In x l -> p1 x = true -> p2 x = true -> False) ->
  length (filter (fun x => p1 x || p2 x) l) =
  (length (filter p1 l) + length (filter p2 l))%nat.
Proof.
  induction l as [|x t IH]; intros Hd; [reflexivity|]. cbn [filter].
  specialize (IH (fun y Hy => Hd y (or_intror Hy))).
  pose proof (Hd x (or_introl eq_refl)) as Hx.
  destruct (p1 x), (p2 x); cbn [orb length]; first [lia | exfalso; now apply Hx].
Qed.

Lemma length_filter_single (q : Z * Z -> bool) (x : Z * Z) (C : list (Z * Z)) :
  NoDup C ->
  length (filter (fun c => same_index c x && q c) C) =
  if memb x C && q x then 1%nat else 0%nat.
Proof.
  induction 1 as [|c t Hc Hnd IH]; [reflexivity|].
  cbn [filter memb existsb]. fold (memb x t).
  destruct (same_index c x) eqn:E.
  - apply same_index_eq in E. subst c. rewrite same_index_refl. cbn [andb orb].
    rewrite (memb_false x t Hc) in IH. cbn [andb] in IH.
    destruct (q x); cbn [length]; lia.
  - assert (E' : same_index x c = false).
    { destruct (same_index x c) eqn:E'; [|reflexivity].
      apply same_index_eq in E'. subst c. now rewrite same_index_refl in E. }
    rewrite E'. cbn [andb orb]. exact IH.
Qed.

(** Counting the members of [C] in [L] or the members of [L] in [C]
    is the same. *)
Lemma length_filter_swap (q : Z * Z -> bool) (L C : list (Z * Z)) :
  NoDup L -> NoDup C ->
  length (filter (fun e => memb e C && q e) L) =
  length (filter (fun c => memb c L && q c) C).
Proof.
  intros HL HC. induction HL as [|x t Hx Hnd IH].
  - cbn. induction C as [|c C' IHC]; [reflexivity|]. cbn. apply IHC.
    now inversion HC.
  - cbn [filter].
    rewrite (filter_ext (fun c => memb c (x :: t) && q c)
                        (fun c => (same_index c x && q c) || (memb c t && q c))).
    + rewrite length_filter_or.
      * rewrite length_filter_single by exact HC. rewrite <- IH.
        destruct (memb x C && q x); cbn [length]; lia.
      * intros c _ H1 H2. rewrite andb_true_iff in H1, H2.
        destruct H1 as [H1%same_index_eq _]. destruct H2 as [H2%memb_In _].
        subst c. contradiction.
    + intros c. cbn [memb existsb]. fold (memb c t).
      destruct (same_index c x), (memb c t), (q c); reflexivity.
Qed.

Lemma NoDup_incident_elements (i j : Z) : NoDup (incident_elements i j).
Proof.
  unfold incident_elements.
  repeat constructor; cbn [In]; intros H;
    repeat (destruct H as [H | H]; [injection H; lia|]); exact H.
Qed.

Lemma vertex_iff_incident (i j : Z) (e : Z * Z) :
  memb (j, i) (element_nodes e) = memb e (incident_elements i j).
Proof.
  destruct e as [ej ei].
  unfold memb, element_nodes, incident_elements, same_index. cbn [existsb fst snd].
  repeat match goal with
         | |- context [Z.eqb ?a ?b] => destruct (Z.eqb_spec a b); try lia
         end; reflexivity.
Qed.

End NodeTypeFacts.

Module NodeTypeClaim.
Import Poisson3 NodeTypes NodeTypeFacts LoopFacts.

Lemma memb_rectangle_owned (info : DMDALocalInfo) (i j : Z) :
  0 <= xm info -> 0 <= ym info ->
  memb (j, i) (Grid.rectangle (ys info) (Z.to_nat (ym info)) (xs info) (Z.to_nat (xm info))) =
  owned info i j.
Proof.
  intros Hx Hy. apply bool_eq_iff. rewrite memb_In, GridFacts.in_rectangle.
  unfold owned. rewrite !andb_true_iff, !Z.leb_le, !Z.ltb_lt. lia.
Qed.

Lemma memb_rectangle_loop (info : DMDALocalInfo) (e : Z * Z) :
  memb e (Grid.rectangle (gys info) (Z.to_nat (gym info - 1))
                         (gxs info) (Z.to_nat (gxm info - 1))) =
  in_element_loop info e.
Proof.
  destruct e as [ej ei]. apply bool_eq_iff. rewrite memb_In, GridFacts.in_rectangle.
  unfold in_element_loop. cbn [fst snd].
  rewrite !andb_true_iff, !Z.leb_le, !Z.ltb_lt. lia.
Qed.

Lemma element_loop_in_int (info : DMDALocalInfo) :
  info_ok info ->
  Forall element_in_int (Grid.rectangle (gys info) (Z.to_nat (gym info - 1))
                                        (gxs info) (Z.to_nat (gxm info - 1))).
Proof.
  intros Hok. apply Forall_forall. intros [ej ei] Hin%GridFacts.in_rectangle.
  unfold info_ok, element_in_int, CInt.INT_MIN, CInt.INT_MAX in *. cbn [fst snd]. lia.
Qed.

(** The number of interior elements around node [(i, j)] counted by the
    element loop. *)
Lemma element_loop_count (info : DMDALocalInfo) (icy : Z * Z -> bool) (i j : Z) :
  length (filter (fun e => memb (j, i) (element_nodes e) && icy e)
                 (Grid.rectangle (gys info) (Z.to_nat (gym info - 1))
                                 (gxs info) (Z.to_nat (gxm info - 1)))) =
  icy_incident_count icy info i j.
Proof.
  unfold icy_incident_count.
  rewrite (filter_ext _ (fun e => memb e (incident_elements i j) && icy e))
    by (intros e; now rewrite vertex_iff_incident).
  rewrite length_filter_swap
    by (apply GridFacts.NoDup_rectangle || apply NoDup_incident_elements).
  f_equal. apply filter_ext. intros e. now rewrite memb_rectangle_loop.
Qed.

(** What [compute_node_type] stores. *)
Lemma compute_node_type_value
      (info : DMDALocalInfo) (min_thickness : Q) (F : Field) (j i : Z) :
  info_ok info ->
  compute_node_type info min_thickness F j i =
  if owned info i j
  then with_node_type (F j i)
         (node_class (Z.of_nat (icy_incident_count (icy_at_least min_thickness F) info i j)))
  else F j i.
Proof.
  intros Hok. pose proof (element_loop_in_int info Hok) as Hint.
  unfold compute_node_type, for_range, CInt.add, CInt.sub.
  destruct Hok as (Hx0 & Hxm & Hx1 & Hy0 & Hym & Hy1 & Hgx0 & Hgxm & Hgx1 & Hgy0 & Hgym & Hgy1).
  rewrite (CIntFacts.wrap_id (ys info + ym info)), (CIntFacts.wrap_id (xs info + xm info)),
    (CIntFacts.wrap_id (gys info + gym info)), (CIntFacts.wrap_id (gxs info + gxm info))
    by (unfold CInt.in_range, CInt.INT_MIN, CInt.INT_MAX in *; lia).
  rewrite (CIntFacts.wrap_id (gys info + gym info - 1)),
    (CIntFacts.wrap_id (gxs info + gxm info - 1))
    by (unfold CInt.in_range, CInt.INT_MIN, CInt.INT_MAX in *; lia).
  replace (ys info + ym info - ys info) with (ym info) by ring.
  replace (xs info + xm info - xs info) with (xm info) by ring.
  replace (gys info + gym info - 1 - gys info) with (gym info - 1) by ring.
  replace (gxs info + gxm info - 1 - gxs info) with (gxm info - 1) by ring.
  pose proof (fun v => nested_loops (fun (P : Field) ji => set_node_type P ji (v ji))
                (ys info) (Z.to_nat (ym info)) (xs info) (Z.to_nat (xm info))) as Eset.
  cbv beta in Eset.
  pose proof (nested_loops (count_element min_thickness)
                (gys info) (Z.to_nat (gym info - 1)) (gxs info) (Z.to_nat (gxm info - 1))) as Ecount.
  pose proof (Eset (fun _ => 0)) as E0. cbv beta in E0. rewrite E0, Ecount.
  set (P1 := fold_left (fun (P : Field) ji => set_node_type P ji 0) _ F).
  set (P2 := fold_left (count_element min_thickness) _ P1).
  pose proof (Eset (fun ji => node_class (node_type (P2 (fst ji) (snd ji))))) as E2.
  cbv beta in E2. cbn [fst snd] in E2. rewrite E2.
  rewrite fold_set_node_type, memb_rectangle_owned by lia.
  destruct (owned info i j) eqn:Eo; [|reflexivity].
  f_equal. f_equal. cbn [fst snd]. subst P2.
  assert (HP1 : forall j' i', P1 j' i' =
            if owned info i' j' then with_node_type (F j' i') 0 else F j' i').
  { intros j' i'. subst P1. rewrite fold_set_node_type, memb_rectangle_owned by lia.
    reflexivity. }
  rewrite (count_loop min_thickness F _ Hint).
  - rewrite HP1, Eo. cbn [node_type with_node_type]. rewrite element_loop_count. lia.
  - intros j' i'. rewrite HP1. destruct (owned info i' j'); reflexivity.
Qed.

Lemma icy_at_least_ext (min_thickness : Q) (F F' : Field) (e : Z * Z) :
  (forall j i, thickness (F j i) = thickness (F' j i)) ->
  icy_at_least min_thickness F e = icy_at_least min_thickness F' e.
Proof. intros H. unfold icy_at_least, nodal_thicknesses. now rewrite !H. Qed.

(** The class is decided by the count alone: 4, 0, or in between. *)
Lemma node_class_cases (icy : Z * Z -> bool) (info : DMDALocalInfo) (i j : Z) :
  let c := node_class (Z.of_nat (icy_incident_count icy info i j)) in
  (c = NODE_INTERIOR <-> all_incident_icy icy info i j = true) /\
  (c = NODE_EXTERIOR <-> some_incident_icy icy info i j = false) /\
  (c = NODE_BOUNDARY <->
     all_incident_icy icy info i j = false /\ some_incident_icy icy info i j = true).
Proof.
  unfold icy_incident_count, all_incident_icy, some_incident_icy, incident_elements.
  cbn [filter forallb existsb].
  destruct (in_element_loop info (j - 1, i - 1) && icy (j - 1, i - 1)),
           (in_element_loop info (j - 1, i) && icy (j - 1, i)),
           (in_element_loop info (j, i) && icy (j, i)),
           (in_element_loop info (j, i - 1) && icy (j, i - 1));
    cbn; unfold NODE_INTERIOR, NODE_EXTERIOR, NODE_BOUNDARY;
    intuition (try congruence; try discriminate).
Qed.

(** C3, as the code has it.  For every owned node [compute_node_type]
    stores INTERIOR when all four incident elements are icy, EXTERIOR
    when none is, and BOUNDARY otherwise, where an element counts as
    icy when each of its four nodal thicknesses is at least the
    threshold (equal to it included) and elements outside the ghosted
    patch do not count; bed and thickness are left as they are, and
    classifying again changes nothing. *)
Theorem compute_node_type_classifies_nodes
  (info : DMDALocalInfo) (min_thickness : Q) (F : Field) :
  info_ok info ->
  (forall i j, owned info i j = true ->
     let p := compute_node_type info min_thickness F j i in
     let icy := icy_at_least min_thickness F in
     node_type p = node_class (Z.of_nat (icy_incident_count icy info i j)) /\
     (node_type p = NODE_INTERIOR <-> all_incident_icy icy info i j = true) /\
     (node_type p = NODE_EXTERIOR <-> some_incident_icy icy info i j = false) /\
     (node_type p = NODE_BOUNDARY <->
        all_incident_icy icy info i j = false /\ some_incident_icy icy info i j = true) /\
     thickness p = thickness (F j i) /\ bed p = bed (F j i)) /\
  (forall i j,
     compute_node_type info min_thickness (compute_node_type info min_thickness F) j i =
     compute_node_type info min_thickness F j i).
Proof.
  intros Hok. split.
  - intros i j Hown p icy. subst p.
    rewrite compute_node_type_value by exact Hok. rewrite Hown.
    cbn [node_type thickness bed with_node_type].
    pose proof (node_class_cases icy info i j) as Hc. cbv zeta in Hc.
    destruct Hc as (H1 & H2 & H3).
    split; [reflexivity|]. split; [exact H1|]. split; [exact H2|].
    split; [exact H3|]. split; reflexivity.
  - intros i j.
    rewrite (compute_node_type_value info min_thickness (compute_node_type _ _ F)) by exact Hok.
    assert (Hth : forall j' i',
               thickness (compute_node_type info min_thickness F j' i') = thickness (F j' i')).
    { intros j' i'. rewrite compute_node_type_value by exact Hok.
      destruct (owned info i' j'); reflexivity. }
    destruct (owned info i j) eqn:Eo; [|reflexivity].
    unfold icy_incident_count.
    rewrite (filter_ext _ (fun e => in_element_loop info e && icy_at_least min_thickness F e))
      by (intros e; f_equal; apply icy_at_least_ext; exact Hth).
    rewrite (compute_node_type_value info min_thickness F) by exact Hok.
    rewrite Eo. reflexivity.
Qed.

Lemma info3_ok : info_ok info3.
Proof. unfold info_ok, CInt.INT_MIN, CInt.INT_MAX. cbn. lia. Qed.

Lemma compute_node_type_classifies_nodes_witness :
  info_ok info3 /\
  node_type (compute_node_type info3 (1 # 10) step_field 0 0) = NODE_BOUNDARY /\
  node_type (compute_node_type info3 (1 # 10) step_field 2 2) = NODE_EXTERIOR /\
  all_incident_icy (icy_at_least (1 # 10) step_field) info3 0 0 = false.
Proof.
  pose proof (compute_node_type_classifies_nodes info3 (1 # 10) step_field info3_ok)
    as [Hcls _].
  destruct (Hcls 0 0 eq_refl) as (_ & _ & _ & Hb & _).
  destruct (Hcls 2 2 eq_refl) as (_ & _ & He & _).
  cbv zeta in Hb, He.
  split; [exact info3_ok|].
  split; [apply Hb; split; reflexivity|].
  split; [apply He; reflexivity | reflexivity].
Defined.

(** C3 as stated fails where a thickness equals the threshold.  On the
    3 x 3 grid with thickness 1/10 everywhere and threshold 1/10 no
    element has a nodal thickness that exceeds the threshold, so by the
    stated rule the middle node would be EXTERIOR; the code counts all
    four elements around it as icy and stores INTERIOR. *)
Lemma thickness_at_threshold_counts_as_icy :
  node_type (compute_node_type info3 (1 # 10) threshold_field 1 1) = NODE_INTERIOR /\
  some_incident_icy (icy_exceeds (1 # 10) threshold_field) info3 1 1 = false /\
  node_class (Z.of_nat (icy_incident_count (icy_exceeds (1 # 10) threshold_field) info3 1 1))
    = NODE_EXTERIOR /\
  NODE_INTERIOR <> NODE_EXTERIOR.
Proof. repeat split; try (vm_compute; reflexivity). discriminate. Qed.

End NodeTypeClaim.

(** ** Symmetry of the Blatter element Jacobian *)

Module BlatterFacts.
Import Blatter LoopFacts.

Local Open Scope Q_scope.

Ltac split_indices :=
  repeat match goal with
         | |- context [Nat.eqb ?a ?b] => destruct (Nat.eqb_spec a b); try lia
         end;
  cbn [andb].

Section Symmetry.

Variable evaluate : Element3 -> (nat -> Vector2) -> nat -> Vector2 * Vector2 * Vector2 * Vector2.
Variable evaluate_scalar : Element3 -> (nat -> Q) -> nat -> Q.
Variable face_evaluate : Q1Element3Face -> (nat -> Vector2) -> nat -> Vector2.
Variable face_evaluate_scalar : Q1Element3Face -> (nat -> Q) -> nat -> Q.
Variable effective_viscosity : Q -> Q -> Q * Q.
Variable drag_with_derivative : Q -> Q -> Q -> Q * Q.

Lemma zero_diagonal_blocks : diagonal_blocks_symmetric zero.
Proof. intros t. reflexivity. Qed.

(** The viscous terms keep the diagonal blocks symmetric: for [s = t]
    the two off-diagonal sums agree, [gamma_u] and [gamma_v] being half
    of the two Newton factors. *)
Lemma jacobian_f_entry_diagonal
      (element : Element3) (W ux uy uz vx vy vz eta deta : Q) (q t s : nat)
      (K : LocalMatrix) :
  diagonal_blocks_symmetric K ->
  diagonal_blocks_symmetric (jacobian_f_entry element W ux uy uz vx vy vz eta deta q t s K).
Proof.
  intros H t'. pose proof (H t') as Ht'.
  unfold jacobian_f_entry, add_to. cbv zeta.
  split_indices; try exact Ht'.
  assert (t' = t) by lia. assert (s = t) by lia. subst t' s.
  rewrite Ht'. ring.
Qed.

Lemma jacobian_f_diagonal
      (element : Element3) (velocity : nat -> Vector2) (hardness : nat -> Q)
      (K : LocalMatrix) :
  diagonal_blocks_symmetric K ->
  diagonal_blocks_symmetric
    (jacobian_f evaluate evaluate_scalar effective_viscosity element velocity hardness K).
Proof.
  intros H. unfold jacobian_f.
  apply (fold_left_invariant diagonal_blocks_symmetric); [exact H|].
  intros K0 q _ H0. unfold jacobian_f_point.
  destruct (evaluate element velocity q) as [[[u0 u_x] u_y] u_z].
  destruct (effective_viscosity _ _) as [eta deta].
  apply (fold_left_invariant diagonal_blocks_symmetric); [exact H0|].
  intros K1 t _ H1.
  apply (fold_left_invariant diagonal_blocks_symmetric); [exact H1|].
  intros K2 s _ H2. now apply jacobian_f_entry_diagonal.
Qed.

Lemma jacobian_basal_entry_diagonal
      (face : Q1Element3Face) (W beta dbeta : Q) (uq : Vector2) (q t s : nat)
      (K : LocalMatrix) :
  diagonal_blocks_symmetric K ->
  diagonal_blocks_symmetric (jacobian_basal_entry face W beta dbeta uq q t s K).
Proof.
  intros H t'. pose proof (H t') as Ht'.
  unfold jacobian_basal_entry, add_to. cbv zeta.
  split_indices; try exact Ht'.
  rewrite Ht'. ring.
Qed.

Lemma jacobian_basal_diagonal
      (face : Q1Element3Face) (tauc_nodal f_nodal : nat -> Q) (velocity : nat -> Vector2)
      (K : LocalMatrix) :
  diagonal_blocks_symmetric K ->
  diagonal_blocks_symmetric
    (jacobian_basal face_evaluate face_evaluate_scalar drag_with_derivative
                    face tauc_nodal f_nodal velocity K).
Proof.
  intros H. unfold jacobian_basal.
  apply (fold_left_invariant diagonal_blocks_symmetric); [exact H|].
  intros K0 q _ H0. unfold jacobian_basal_point.
  destruct (if Qle_bool _ 0 then _ else _) as [beta dbeta].
  apply (fold_left_invariant diagonal_blocks_symmetric); [exact H0|].
  intros K1 t _ H1.
  apply (fold_left_invariant diagonal_blocks_symmetric); [exact H1|].
  intros K2 s _ H2. now apply jacobian_basal_entry_diagonal.
Qed.

(** One block of the fill step: the block [(t, s)] below the diagonal
    becomes the transpose of the block [(s, t)] above it. *)
Lemma fill_block_value (K : LocalMatrix) (t s r c : nat) :
  (s < t)%nat ->
  fill_block K (t, s) r c =
  if Nat.eqb (r / 2) t && Nat.eqb (c / 2) s then K c r else K r c.
Proof.
  intros Hst. unfold fill_block, assign.
  pose proof (Nat.div_mod_eq r 2) as Hr. pose proof (Nat.mod_upper_bound r 2) as Hr'.
  pose proof (Nat.div_mod_eq c 2) as Hc. pose proof (Nat.mod_upper_bound c 2) as Hc'.
  split_indices; try reflexivity; f_equal; lia.
Qed.

Lemma fill_blocks_value (L : list (nat * nat)) :
  (forall ts, In ts L -> (snd ts < fst ts)%nat) ->
  forall (K : LocalMatrix) (r c : nat),
    fold_left fill_block L K r c =
    if existsb (fun ts => Nat.eqb (r / 2) (fst ts) && Nat.eqb (c / 2) (snd ts)) L
    then K c r else K r c.
Proof.
  induction L as [|[t s] L' IH]; intros HL K r c; [reflexivity|].
  cbn [fold_left existsb fst snd].
  assert (Hst : (s < t)%nat) by (apply (HL (t, s)); now left).
  rewrite IH by (intros ts Hts; apply HL; now right).
  destruct (existsb _ L') eqn:E.
  - rewrite orb_true_r. rewrite fill_block_value by exact Hst.
    apply existsb_exists in E. destruct E as ([t1 s1] & Hin & E1).
    cbn [fst snd] in E1. apply andb_true_iff in E1. destruct E1 as [E1 E2].
    apply Nat.eqb_eq in E1, E2.
    pose proof (HL (t1, s1) (or_intror Hin)) as Hlt. cbn [fst snd] in Hlt.
    replace (Nat.eqb (c / 2) t && Nat.eqb (r / 2) s) with false; [reflexivity|].
    symmetry. apply andb_false_iff.
    destruct (Nat.eqb_spec (c / 2) t); [|now left].
    destruct (Nat.eqb_spec (r / 2) s); [|now right]. lia.
  - rewrite orb_false_r. apply fill_block_value. exact Hst.
Qed.

Lemma fill_lower_triangle_value (K : LocalMatrix) (r c : nat) :
  fill_lower_triangle K r c =
  if (c / 2 <? r / 2)%nat && (r / 2 <? Nk)%nat then K c r else K r c.
Proof.
  unfold fill_lower_triangle.
  rewrite (nested_fold_flat_map fill_block (fun t => seq 0 t)).
  rewrite fill_blocks_value.
  - match goal with |- (if ?a then _ else _) = (if ?b then _ else _) =>
      replace a with b; [reflexivity|] end.
    apply LoopFacts.bool_eq_iff.
    rewrite andb_true_iff, !Nat.ltb_lt, existsb_exists. split.
    + intros [H1 H2]. exists (r / 2, c / 2)%nat. split.
      * apply in_flat_map. exists (r / 2)%nat. split; [apply in_seq; lia|].
        apply in_map_iff. exists (c / 2)%nat. split; [reflexivity | apply in_seq; lia].
      * cbn [fst snd]. now rewrite !Nat.eqb_refl.
    + intros ([t s] & Hin & E). cbn [fst snd] in E.
      apply andb_true_iff in E. destruct E as [E1%Nat.eqb_eq E2%Nat.eqb_eq].
      apply in_flat_map in Hin. destruct Hin as (t' & Ht'%in_seq & Hin).
      apply in_map_iff in Hin. destruct Hin as (s' & [= <- <-] & Hs'%in_seq). lia.
  - intros [t s] Hin. cbn [fst snd].
    apply in_flat_map in Hin. destruct Hin as (t' & _ & Hin).
    apply in_map_iff in Hin. destruct Hin as (s' & [= <- <-] & Hs'%in_seq). lia.
Qed.

(** A matrix with symmetric diagonal blocks is symmetric after the
    fill step. *)
Lemma fill_lower_triangle_symmetric (K : LocalMatrix) (r c : nat) :
  diagonal_blocks_symmetric K ->
  (r < 2 * Nk)%nat -> (c < 2 * Nk)%nat ->
  fill_lower_triangle K r c == fill_lower_triangle K c r.
Proof.
  intros H Hr Hc. rewrite !fill_lower_triangle_value. unfold Nk in *.
  pose proof (Nat.div_mod_eq r 2) as Er. pose proof (Nat.mod_upper_bound r 2) as Er'.
  pose proof (Nat.div_mod_eq c 2) as Ec. pose proof (Nat.mod_upper_bound c 2) as Ec'.
  destruct (Nat.ltb_spec (c / 2) (r / 2)), (Nat.ltb_spec (r / 2) (c / 2)),
           (Nat.ltb_spec (r / 2) 8), (Nat.ltb_spec (c / 2) 8);
    cbn [andb]; try reflexivity; try lia.
  assert (Heq : (r / 2 = c / 2)%nat) by lia.
  destruct (Nat.eq_dec r c) as [->|Hne]; [reflexivity|].
  remember (r / 2)%nat as t eqn:Et.
  destruct (Nat.eq_dec (r mod 2) 0) as [E0|E1].
  - assert (Hr0 : r = (t * 2 + 0)%nat) by lia.
    assert (Hc0 : c = (t * 2 + 1)%nat) by lia.
    rewrite Hr0, Hc0. exact (H t).
  - assert (Hr0 : r = (t * 2 + 1)%nat) by lia.
    assert (Hc0 : c = (t * 2 + 0)%nat) by lia.
    rewrite Hr0, Hc0. symmetry. exact (H t).
Qed.

End Symmetry.

End BlatterFacts.

Module BlatterClaim.
Import Blatter BlatterFacts.

Local Open Scope Q_scope.

(** C4.  The element-local matrix that [Blatter::compute_jacobian]
    hands to [add_contribution] (the viscous part [jacobian_f], the
    basal part [jacobian_basal] for the elements of the bottom level
    [k = 0], then the fill of the lower triangle) is symmetric:
    [K[s][t] == K[t][s]] for all indices below 16, whatever the
    element, the velocities, the flow law and the sliding law. *)
Theorem element_jacobian_is_symmetric
  (evaluate : Element3 -> (nat -> Vector2) -> nat -> Vector2 * Vector2 * Vector2 * Vector2)
  (evaluate_scalar : Element3 -> (nat -> Q) -> nat -> Q)
  (face_evaluate : Q1Element3Face -> (nat -> Vector2) -> nat -> Vector2)
  (face_evaluate_scalar : Q1Element3Face -> (nat -> Q) -> nat -> Q)
  (effective_viscosity : Q -> Q -> Q * Q)
  (drag_with_derivative : Q -> Q -> Q -> Q * Q)
  (k : Z) (element : Element3) (face : Q1Element3Face)
  (velocity : nat -> Vector2) (B_nodal basal_yield_stress floatation : nat -> Q)
  (s t : nat) :
  (s < 16)%nat -> (t < 16)%nat ->
  let K := element_jacobian evaluate evaluate_scalar face_evaluate face_evaluate_scalar
             effective_viscosity drag_with_derivative
             k element face velocity B_nodal basal_yield_stress floatation in
  K s t == K t s.
Proof.
  intros Hs Ht K. subst K. unfold element_jacobian.
  apply fill_lower_triangle_symmetric; [|exact Hs | exact Ht].
  destruct (k =? 0)%Z.
  - apply jacobian_basal_diagonal, jacobian_f_diagonal, zero_diagonal_blocks.
  - apply jacobian_f_diagonal, zero_diagonal_blocks.
Qed.

Lemma element_jacobian_is_symmetric_witness :
  ((3 < 16)%nat /\ (4 < 16)%nat) /\
  sample_jacobian 0 3%nat 4%nat == sample_jacobian 0 4%nat 3%nat.
Proof.
  assert (H3 : (3 < 16)%nat) by lia.
  assert (H4 : (4 < 16)%nat) by lia.
  split; [split; assumption|].
  exact (element_jacobian_is_symmetric
           sample_evaluate (fun _ x _ => x 0%nat) (fun _ x _ => x 1%nat) (fun _ x _ => x 0%nat)
           (fun B gamma => (B + gamma, 2)) (fun tauc a b => (tauc, a + b))
           0 sample_element sample_face sample_velocity
           (fun _ => 1) (fun _ => 3) (fun _ => -1) 3 4 H3 H4).
Defined.

(** The same matrix, run: entries of an off-diagonal and of a diagonal
    block, on the bottom level and above it. *)
Example sample_jacobian_entries :
  sample_jacobian 0 0%nat 3%nat == sample_jacobian 0 3%nat 0%nat /\
  sample_jacobian 0 2%nat 3%nat == sample_jacobian 0 3%nat 2%nat /\
  sample_jacobian 1 2%nat 3%nat == sample_jacobian 1 3%nat 2%nat /\
  ~ sample_jacobian 0 2%nat 3%nat == 0.
Proof. repeat split; vm_compute; congruence. Qed.

End BlatterClaim.

(** ** Removal of narrow ice tongues *)

Module TongueFacts.
Import Tongues.

Lemma remove_loop (geometry : Geometry) (L : list (Z * Z)) :
  forall (H : Z -> Z -> Q) (i j : Z),
    fold_left (remove_at geometry) L H i j =
    if NodeTypes.memb (i, j) L && removed geometry (i, j) then 0%Q else H i j.
Proof.
  induction L as [|[pi pj] L' IH]; intros H i j; [reflexivity|].
  cbn [fold_left]. rewrite IH. cbn [NodeTypes.memb existsb].
  fold (NodeTypes.memb (i, j) L').
  unfold remove_at, removed, NodeTypes.same_index. cbn [fst snd].
  destruct ((i =? pi) && (j =? pj)) eqn:E.
  - rewrite andb_true_iff, !Z.eqb_eq in E. destruct E as [-> ->]. cbn [orb].
    destruct (skipped geometry pi pj),
             (is_tongue_tip (ice_free_box (cell_type geometry) pi pj)),
             (NodeTypes.memb (pi, pj) L');
      cbn [negb andb]; rewrite ?Z.eqb_refl; reflexivity.
  - cbn [orb].
    destruct (skipped geometry pi pj); [reflexivity|].
    destruct (is_tongue_tip (ice_free_box (cell_type geometry) pi pj)); [|reflexivity].
    cbv beta. rewrite E. reflexivity.
Qed.

(** The routine ends; an owned cell is set to zero exactly when it is
    [removed], and left as it is otherwise. *)
Lemma remove_narrow_tongues_value
      (fuel : nat) (grid : Grid.IceGrid) (geometry : Geometry) (H : Z -> Z -> Q) :
  Grid.patch_ok grid 0 ->
  (Z.to_nat (Grid.xm grid) * Z.to_nat (Grid.ym grid) <= fuel)%nat ->
  exists H', remove_narrow_tongues fuel grid geometry H = Some H' /\
    forall i j, Grid.owns grid (i, j) = true ->
      H' i j = if removed geometry (i, j) then 0%Q else H i j.
Proof.
  intros Hok Hfuel. unfold remove_narrow_tongues.
  rewrite (GridClaims.visit_Points grid fuel Hok Hfuel).
  eexists. split; [reflexivity|]. intros i j Hown.
  rewrite remove_loop.
  replace (NodeTypes.memb _ _) with true; [reflexivity|].
  symmetry. apply NodeTypeFacts.memb_In.
  apply GridClaims.owns_rectangle; [destruct Hok as (? & ? & _); lia ..| exact Hown].
Qed.

Lemma not_ice_free_not_ocean (M : MaskValue) : ice_free M = false -> ice_free_ocean M = false.
Proof. destruct M; cbn; congruence. Qed.

(** Two opposite neighbours that are not ice-free rule the removal
    out. *)
Lemma opposite_neighbours_not_removed (geometry : Geometry) (i j : Z) :
  let M := int_box (cell_type geometry) i j in
  (ice_free (w M) = false /\ ice_free (e M) = false) \/
  (ice_free (n M) = false /\ ice_free (s M) = false) \/
  (ice_free (nw M) = false /\ ice_free (se M) = false) \/
  (ice_free (ne M) = false /\ ice_free (sw M) = false) ->
  removed geometry (i, j) = false.
Proof.
  intros M Hopp. unfold removed. cbn [fst snd].
  replace (is_tongue_tip _) with false; [apply andb_false_r|].
  symmetry. unfold is_tongue_tip, ice_free_box. fold M.
  destruct (grounded_ice (ij M)); unfold map_box; cbn [w nw sw n s e ne se];
    destruct Hopp as [[H1 H2] | [[H1 H2] | [[H1 H2] | [H1 H2]]]];
    rewrite ?(not_ice_free_not_ocean _ H1), ?(not_ice_free_not_ocean _ H2), ?H1, ?H2;
    cbn [negb andb orb]; rewrite ?andb_false_r; reflexivity.
Qed.

End TongueFacts.

Module TongueClaim.
Import Tongues TongueFacts.

Local Open Scope Q_scope.

(** C5, as the code has it.  For an owned cell [(i, j)] of grounded
    ice, [remove_narrow_tongues] sets the thickness to zero when the
    bed is below sea level, the neighbours N, S, E, NE, NW, SE and SW
    are ice-free ocean and the W neighbour is not; it leaves the
    thickness as it is when the W neighbour is ice-free ocean as well
    (a cell alone in the ocean), when the bed is not below sea level,
    and, for any cell, when two opposite neighbours are not
    ice-free. *)
Theorem narrow_tongue_tip_is_removed
  (fuel : nat) (grid : Grid.IceGrid) (geometry : Geometry) (H : Z -> Z -> Q) (i j : Z) :
  Grid.patch_ok grid 0 ->
  (Z.to_nat (Grid.xm grid) * Z.to_nat (Grid.ym grid) <= fuel)%nat ->
  Grid.owns grid (i, j) = true ->
  let M := int_box (cell_type geometry) i j in
  let ocean_but_west :=
    ice_free_ocean (n M) && ice_free_ocean (s M) && ice_free_ocean (e M)
    && ice_free_ocean (ne M) && ice_free_ocean (nw M)
    && ice_free_ocean (se M) && ice_free_ocean (sw M) in
  exists H', remove_narrow_tongues fuel grid geometry H = Some H' /\
    (grounded_ice (ij M) = true ->
     bed_elevation geometry i j < sea_level_elevation geometry i j ->
     ocean_but_west = true -> ice_free_ocean (w M) = false ->
     H' i j = 0) /\
    (grounded_ice (ij M) = true ->
     ocean_but_west = true -> ice_free_ocean (w M) = true ->
     H' i j = H i j) /\
    (grounded_ice (ij M) = true ->
     sea_level_elevation geometry i j <= bed_elevation geometry i j ->
     H' i j = H i j) /\
    ((ice_free (w M) = false /\ ice_free (e M) = false) \/
     (ice_free (n M) = false /\ ice_free (s M) = false) \/
     (ice_free (nw M) = false /\ ice_free (se M) = false) \/
     (ice_free (ne M) = false /\ ice_free (sw M) = false) ->
     H' i j = H i j).
Proof.
  intros Hok Hfuel Hown M ocean_but_west.
  destruct (remove_narrow_tongues_value fuel grid geometry H Hok Hfuel) as (H' & HH' & Hval).
  exists H'. split; [exact HH'|]. rewrite (Hval i j Hown).
  unfold removed, skipped, is_tongue_tip, ice_free_box. cbn [fst snd].
  fold M. change (cell_type geometry i j) with (ij M).
  split; [|split; [|split]].
  - intros Hg Hbed Hocean Hw. subst ocean_but_west.
    rewrite !andb_true_iff in Hocean.
    destruct Hocean as ((((((Hn & Hs) & He) & Hne) & Hnw) & Hse) & Hsw).
    rewrite Hg. unfold map_box. cbn [w nw sw n s e ne se].
    rewrite Hn, Hs, He, Hnw, Hsw, Hw.
    replace (ice_free (ij M)) with false by (destruct (ij M); cbn in *; congruence).
    destruct (Qle_bool _ _) eqn:E; [apply Qle_bool_iff in E; lra|].
    reflexivity.
  - intros Hg Hocean Hw. subst ocean_but_west.
    rewrite !andb_true_iff in Hocean.
    destruct Hocean as ((((((Hn & Hs) & He) & Hne) & Hnw) & Hse) & Hsw).
    rewrite Hg. unfold map_box. cbn [w nw sw n s e ne se].
    rewrite Hn, Hs, He, Hnw, Hsw, Hw, Hne, Hse. cbn [negb andb orb].
    now rewrite andb_false_r.
  - intros Hg Hbed. rewrite Hg.
    replace (Qle_bool _ _) with true by (symmetry; now apply Qle_bool_iff).
    cbn [andb]. rewrite orb_true_r. reflexivity.
  - intros Hopp.
    pose proof (opposite_neighbours_not_removed geometry i j Hopp) as Hr.
    unfold removed, skipped, is_tongue_tip, ice_free_box in Hr. cbn [fst snd] in Hr.
    fold M in Hr. change (cell_type geometry i j) with (ij M) in Hr.
    now rewrite Hr.
Qed.

Lemma grid3_ok : Grid.patch_ok grid3 0.
Proof. unfold Grid.patch_ok, CInt.INT_MIN, CInt.INT_MAX. cbn. lia. Qed.

Lemma narrow_tongue_tip_is_removed_witness :
  Grid.patch_ok grid3 0 /\ Grid.owns grid3 (1, 1)%Z = true /\
  exists H', remove_narrow_tongues 9 grid3 (marine tongue_mask) thick = Some H' /\
             H' 1%Z 1%Z = 0.
Proof.
  assert (Hfuel : (Z.to_nat (Grid.xm grid3) * Z.to_nat (Grid.ym grid3) <= 9)%nat)
    by (cbn; lia).
  destruct (narrow_tongue_tip_is_removed 9 grid3 (marine tongue_mask) thick 1 1
              grid3_ok Hfuel eq_refl) as (H' & HH' & Hzero & _).
  split; [exact grid3_ok|]. split; [reflexivity|].
  exists H'. split; [exact HH'|].
  apply Hzero; reflexivity.
Defined.

(** C5 as stated fails in its second case, and in its first case on
    land.  The cell [(1, 1)] of grounded ice with all eight neighbours
    ice-free ocean and the bed below sea level keeps its thickness: no
    disjunct of the test holds without a neighbour that is not
    ice-free.  With ice to the west and ocean elsewhere, but the bed
    above sea level, the cell is skipped and keeps its thickness
    too. *)
Lemma pure_nose_keeps_its_thickness :
  (map_box ice_free_ocean (int_box nose_mask 1 1) =
     {| ij := false; n := true; nw := true; w := true; sw := true;
        s := true; se := true; e := true; ne := true |} /\
   grounded_ice (nose_mask 1 1) = true /\
   exists H', remove_narrow_tongues 9 grid3 (marine nose_mask) thick = Some H' /\
              H' 1%Z 1%Z == 100 /\ ~ H' 1%Z 1%Z == 0) /\
  (map_box ice_free_ocean (int_box tongue_mask 1 1) =
     {| ij := false; n := true; nw := true; w := false; sw := true;
        s := true; se := true; e := true; ne := true |} /\
   grounded_ice (tongue_mask 1 1) = true /\
   exists H', remove_narrow_tongues 9 grid3 (land_based tongue_mask) thick = Some H' /\
              H' 1%Z 1%Z == 100 /\ ~ H' 1%Z 1%Z == 0).
Proof.
  assert (Hfuel : (Z.to_nat (Grid.xm grid3) * Z.to_nat (Grid.ym grid3) <= 9)%nat)
    by (cbn; lia).
  split; (split; [reflexivity|]); (split; [reflexivity|]).
  - destruct (remove_narrow_tongues_value 9 grid3 (marine nose_mask) thick grid3_ok Hfuel)
      as (H' & HH' & Hval).
    exists H'. split; [exact HH'|]. rewrite (Hval 1%Z 1%Z eq_refl).
    split; vm_compute; congruence.
  - destruct (remove_narrow_tongues_value 9 grid3 (land_based tongue_mask) thick grid3_ok Hfuel)
      as (H' & HH' & Hval).
    exists H'. split; [exact HH'|]. rewrite (Hval 1%Z 1%Z eq_refl).
    split; vm_compute; congruence.
Qed.

End TongueClaim.

(* ================================================================= *)
(** * Part III: further properties of the code *)
(* ================================================================= *)

(** ** Arrays as lists *)

Module ListFacts.

Lemma nth_map_seq {A : Type} (f : nat -> A) (a n i : nat) (d : A) :
  (i < n)%nat -> nth i (map f (seq a n)) d = f (a + i)%nat.
Proof.
  revert a i. induction n as [|n IH]; intros a i Hi; [lia|].
  cbn [seq map]. destruct i as [|i].
  - cbn [nth]. f_equal. lia.
  - cbn [nth]. rewrite IH by lia. f_equal. lia.
Qed.

End ListFacts.

(** ** Poisson3.cc: padding, vertical levels, owned-node residual *)

Module Poisson3Extras.
Import Poisson3 PadFacts.

Lemma cdiv_exact (c b : Z) : 0 < b -> cdiv (b * c) b = c.
Proof.
  intros Hb. unfold cdiv.
  replace (b * c + b - 1) with (c * b + (b - 1)) by ring.
  rewrite Z.div_add_l by lia. rewrite Z.div_small by lia. lia.
Qed.

(** X1.  Without overflow [pad(N, n_levels)] is the least
    non-negative padding that makes [N + p - 1] a multiple of
    [2^n_levels]: it is non-negative, [N + pad(N, n) - 1] is such a
    multiple, and no smaller non-negative [p] gives one.  A grid that
    was padded needs no padding: [pad(N + pad(N, n), n) = 0]. *)
Theorem pad_is_least_and_idempotent (N n : Z) :
  2 <= N -> 0 <= n -> padded_size N n <= CInt.INT_MAX ->
  0 <= pad N n /\
  (N + pad N n - 1) mod 2 ^ n = 0 /\
  (forall p, 0 <= p -> (N + p - 1) mod 2 ^ n = 0 -> pad N n <= p) /\
  pad (N + pad N n) n = 0.
Proof.
  intros HN Hn Hfit.
  destruct (pad_value N n HN Hn Hfit) as [Hpad Hrange].
  assert (Hp : 0 < 2 ^ n) by (apply Z.pow_pos_nonneg; lia).
  pose proof (padded_size_cdiv N n) as Hsize.
  split; [lia|]. split; [|split].
  - rewrite Hpad, Hsize.
    replace (N + (2 ^ n * cdiv (N - 1) (2 ^ n) + 1 - N) - 1)
      with (cdiv (N - 1) (2 ^ n) * 2 ^ n) by ring.
    apply Z.mod_mul. lia.
  - intros p Hp0 Hmod.
    apply Z.mod_divide in Hmod; [|lia]. destruct Hmod as [q Hq].
    assert (Hd : p - pad N n = (q - cdiv (N - 1) (2 ^ n)) * 2 ^ n) by lia.
    destruct (Z_lt_le_dec p (pad N n)) as [Hlt|Hle]; [|exact Hle].
    exfalso. assert (q - cdiv (N - 1) (2 ^ n) < 0) by nia. nia.
  - rewrite Hpad.
    replace (N + (padded_size N n - N)) with (padded_size N n) by ring.
    assert (Hsame : padded_size (padded_size N n) n = padded_size N n).
    { rewrite (padded_size_cdiv (padded_size N n)), Hsize.
      replace (2 ^ n * cdiv (N - 1) (2 ^ n) + 1 - 1)
        with (2 ^ n * cdiv (N - 1) (2 ^ n)) by ring.
      now rewrite cdiv_exact. }
    assert (Hbig : 2 <= padded_size N n) by lia.
    assert (Hfit' : padded_size (padded_size N n) n <= CInt.INT_MAX) by lia.
    destruct (pad_value (padded_size N n) n Hbig Hn Hfit') as [Hpad' _].
    rewrite Hpad'. lia.
Qed.

Lemma pad_is_least_and_idempotent_witness :
  0 <= pad 10 2 /\
  (10 + pad 10 2 - 1) mod 2 ^ 2 = 0 /\
  (forall p, 0 <= p -> (10 + p - 1) mod 2 ^ 2 = 0 -> pad 10 2 <= p) /\
  pad (10 + pad 10 2) 2 = 0.
Proof.
  apply (pad_is_least_and_idempotent 10 2); [lia | lia | vm_compute; discriminate].
Defined.

Lemma set_back_length (l : list Q) (v : Q) : length (set_back l v) = length l.
Proof.
  induction l as [|x [|y t] IH]; [reflexivity | reflexivity |].
  change (set_back (x :: y :: t) v) with (x :: set_back (y :: t) v).
  cbn [length] in *. now rewrite IH.
Qed.

Lemma set_back_nth (l : list Q) (v d : Q) (i : nat) :
  (i < length l)%nat ->
  nth i (set_back l v) d = if (S i =? length l)%nat then v else nth i l d.
Proof.
  revert i. induction l as [|x [|y t] IH]; intros i Hi.
  - cbn in Hi. lia.
  - cbn in Hi. assert (i = 0%nat) by lia. subst i. reflexivity.
  - change (set_back (x :: y :: t) v) with (x :: set_back (y :: t) v).
    destruct i as [|i].
    + reflexivity.
    + cbn [nth]. rewrite IH by (cbn [length] in *; lia). reflexivity.
Qed.

Local Open Scope Q_scope.

(** X2.  The vertical levels of the constructor: without overflow
    there are [padded_size Mz n_levels] of them (one more than a
    multiple of [2^n_levels]), level [i] is [i / (mz - 1)], the first
    one is 0 and the last one exactly 1. *)
Theorem sigma_levels_are_equally_spaced (Mz n : Z) :
  (2 <= Mz)%Z -> (0 <= n)%Z -> (padded_size Mz n <= CInt.INT_MAX)%Z ->
  exists sigma,
    sigma_levels Mz n = Some sigma /\
    length sigma = Z.to_nat (padded_size Mz n) /\
    ((padded_size Mz n - 1) mod 2 ^ n = 0)%Z /\
    (forall i, (i < length sigma)%nat ->
       nth i sigma 0 == inject_Z (Z.of_nat i) / inject_Z (padded_size Mz n - 1)) /\
    nth 0 sigma 0 == 0 /\
    nth (length sigma - 1) sigma 0 == 1.
Proof.
  intros HN Hn Hfit.
  destruct (pad_value Mz n HN Hn Hfit) as [Hpad Hrange].
  assert (Hp : (0 < 2 ^ n)%Z) by (apply Z.pow_pos_nonneg; lia).
  pose proof (padded_size_cdiv Mz n) as Hsize.
  pose proof (cdiv_mul_ge (Mz - 1) (2 ^ n) Hp) as Hge.
  assert (Hmz : CInt.add Mz (pad Mz n) = padded_size Mz n).
  { unfold CInt.add. rewrite Hpad.
    replace (Mz + (padded_size Mz n - Mz))%Z with (padded_size Mz n) by ring.
    apply CIntFacts.wrap_id. unfold CInt.in_range, CInt.INT_MIN, CInt.INT_MAX in *. lia. }
  assert (Hm1 : CInt.sub (padded_size Mz n) 1 = (padded_size Mz n - 1)%Z).
  { unfold CInt.sub. apply CIntFacts.wrap_id.
    unfold CInt.in_range, CInt.INT_MIN, CInt.INT_MAX in *. lia. }
  assert (Hbig : (2 <= padded_size Mz n)%Z) by lia.
  unfold sigma_levels. rewrite Hmz, Hm1.
  replace (padded_size Mz n <=? 0)%Z with false by (symmetry; apply Z.leb_gt; lia).
  eexists. split; [reflexivity|].
  set (m := padded_size Mz n) in *.
  set (l := map (fun i : nat => inject_Z (Z.of_nat i) * (1 / inject_Z (m - 1)))
                (seq 0 (Z.to_nat m))).
  assert (Hl : length l = Z.to_nat m) by (unfold l; now rewrite length_map, length_seq).
  assert (Hnth : forall i, (i < Z.to_nat m)%nat ->
            nth i l 0 == inject_Z (Z.of_nat i) / inject_Z (m - 1)).
  { intros i Hi. unfold l. rewrite ListFacts.nth_map_seq by exact Hi.
    cbn [Nat.add]. unfold Qdiv. ring. }
  assert (Hne : ~ inject_Z (m - 1) == 0).
  { unfold Qeq. cbn. lia. }
  rewrite set_back_length, Hl.
  split; [reflexivity|]. split.
  { rewrite Hsize.
    replace (2 ^ n * cdiv (Mz - 1) (2 ^ n) + 1 - 1)%Z
      with (cdiv (Mz - 1) (2 ^ n) * 2 ^ n)%Z by ring.
    apply Z.mod_mul. lia. }
  split; [|split].
  - intros i Hi. rewrite set_back_nth by (rewrite Hl; exact Hi). rewrite Hl.
    destruct (Nat.eqb_spec (S i) (Z.to_nat m)) as [E|E].
    + assert (Ei : Z.of_nat i = (m - 1)%Z) by lia. rewrite Ei. field. exact Hne.
    + apply Hnth. exact Hi.
  - rewrite set_back_nth by (rewrite Hl; lia). rewrite Hl.
    destruct (Nat.eqb_spec 1 (Z.to_nat m)) as [E|E]; [lia|].
    rewrite Hnth by lia. cbn [Z.of_nat]. unfold Qdiv. ring.
  - rewrite set_back_nth by (rewrite Hl; lia). rewrite Hl.
    replace (S (Z.to_nat m - 1)) with (Z.to_nat m) by lia.
    now rewrite Nat.eqb_refl.
Qed.

Lemma sigma_levels_are_equally_spaced_witness :
  exists sigma,
    sigma_levels 4 1 = Some sigma /\
    length sigma = Z.to_nat (padded_size 4 1) /\
    ((padded_size 4 1 - 1) mod 2 ^ 1 = 0)%Z /\
    (forall i, (i < length sigma)%nat ->
       nth i sigma 0 == inject_Z (Z.of_nat i) / inject_Z (padded_size 4 1 - 1)) /\
    nth 0 sigma 0 == 0 /\
    nth (length sigma - 1) sigma 0 == 1.
Proof.
  apply (sigma_levels_are_equally_spaced 4 1); [lia | lia | vm_compute; discriminate].
Defined.

Lemma inject_Z_pred (m : Z) : inject_Z m - 1 == inject_Z (m - 1).
Proof. unfold Qeq, Qminus, Qplus, Qopp, inject_Z. cbn. lia. Qed.

(** X3.  The nodes of an ice column span the ice from the bed to the
    surface: with at least two levels and a non-negative thickness,
    [z] is [b] at level 0 and [b + H] at level [Mz - 1], it lies
    between the two at every level in between, and it does not
    decrease with the level. *)
Theorem z_spans_bed_to_surface (b H : Q) (Mz k k' : Z) :
  (2 <= Mz)%Z -> 0 <= H -> (0 <= k <= k')%Z -> (k' <= Mz - 1)%Z ->
  z b H Mz 0 == b /\
  z b H Mz (Mz - 1) == b + H /\
  b <= z b H Mz k /\
  z b H Mz k <= z b H Mz k' /\
  z b H Mz k' <= b + H.
Proof.
  intros HMz HH Hk Hk'. unfold z.
  assert (Hd : 0 < inject_Z Mz - 1).
  { rewrite inject_Z_pred. change 0 with (inject_Z 0). rewrite <- Zlt_Qlt. lia. }
  assert (Hne : ~ inject_Z Mz - 1 == 0) by (intros E; rewrite E in Hd; discriminate).
  assert (Hmono : forall a c : Z, (a <= c)%Z ->
            H * inject_Z a / (inject_Z Mz - 1) <= H * inject_Z c / (inject_Z Mz - 1)).
  { intros a c Hac. unfold Qdiv. apply Qmult_le_compat_r.
    - rewrite (Qmult_comm H (inject_Z a)), (Qmult_comm H (inject_Z c)).
      apply Qmult_le_compat_r; [|exact HH]. rewrite <- Zle_Qle. exact Hac.
    - apply Qlt_le_weak, Qinv_lt_0_compat, Hd. }
  assert (E0 : H * inject_Z 0 / (inject_Z Mz - 1) == 0) by (field; exact Hne).
  assert (E1 : H * inject_Z (Mz - 1) / (inject_Z Mz - 1) == H).
  { rewrite <- inject_Z_pred. field. exact Hne. }
  split; [|split; [|split; [|split]]].
  - rewrite E0. ring.
  - rewrite E1. ring.
  - pose proof (Hmono 0%Z k ltac:(lia)) as M. rewrite E0 in M. lra.
  - pose proof (Hmono k k' ltac:(lia)) as M. lra.
  - pose proof (Hmono k' (Mz - 1)%Z ltac:(lia)) as M. rewrite E1 in M. lra.
Qed.

Lemma z_spans_bed_to_surface_witness :
  z 1 2 3 0 == 1 /\
  z 1 2 3 (3 - 1) == 1 + 2 /\
  1 <= z 1 2 3 1 /\
  z 1 2 3 1 <= z 1 2 3 2 /\
  z 1 2 3 2 <= 1 + 2.
Proof.
  apply (z_spans_bed_to_surface 1 2 3 1 2); [lia | discriminate | lia | lia].
Defined.

End Poisson3Extras.

Module ResidualExtras.
Import Poisson3.

Local Open Scope Q_scope.

Lemma dirichlet_scale_positive (dx dy dz : Q) :
  0 < dx -> 0 < dy -> 0 < dz -> 0 < dirichlet_scale dx dy dz.
Proof.
  intros Hx Hy Hz.
  rewrite Poisson3Facts.dirichlet_scale_value
    by (intros E; rewrite E in Hz; discriminate).
  assert (Hxx : 0 < 1 / (dx * dx)).
  { unfold Qdiv. rewrite Qmult_1_l. apply Qinv_lt_0_compat.
    rewrite <- (Qmult_0_l dx). apply Qmult_lt_compat_r; assumption. }
  assert (Hyy : 0 < 1 / (dy * dy)).
  { unfold Qdiv. rewrite Qmult_1_l. apply Qinv_lt_0_compat.
    rewrite <- (Qmult_0_l dy). apply Qmult_lt_compat_r; assumption. }
  assert (Hxy : 0 < dx * dy).
  { rewrite <- (Qmult_0_l dy). apply Qmult_lt_compat_r; assumption. }
  assert (Hxyz : 0 < dx * dy * dz).
  { rewrite <- (Qmult_0_l dz). apply Qmult_lt_compat_r; assumption. }
  rewrite <- (Qmult_0_l (1 / (dx * dx) + 1 / (dy * dy) + 1)).
  apply Qmult_lt_compat_r; [lra | exact Hxyz].
Qed.

Lemma node_dz_positive (g : NodeLoopInfo) (p : Parameters) :
  0 < nl_min_thickness g -> (2 <= nl_mz g <= CInt.INT_MAX)%Z -> 0 < node_dz g p.
Proof.
  intros Hmin Hmz. unfold node_dz, CInt.sub.
  rewrite CIntFacts.wrap_id
    by (unfold CInt.in_range, CInt.INT_MIN, CInt.INT_MAX in *; lia).
  unfold Qdiv. rewrite <- (Qmult_0_l (/ inject_Z (nl_mz g - 1))).
  apply Qmult_lt_compat_r.
  - apply Qinv_lt_0_compat. change 0 with (inject_Z 0). rewrite <- Zlt_Qlt. lia.
  - eapply Qlt_le_trans; [exact Hmin | apply Q.le_max_r].
Qed.

Lemma scaled_difference_zero (s x t : Q) : 0 < s -> (s * (x - t) == 0 <-> x == t).
Proof.
  intros Hs. split.
  - intros E. apply Qmult_integral in E. destruct E as [E|E].
    + rewrite E in Hs. discriminate.
    + lra.
  - intros E. rewrite E. ring.
Qed.

(** X4.  The owned-node pass of [Poisson3::compute_residual] on a grid
    with positive spacing, a positive thickness threshold and at least
    two levels: at an exterior node the stored residual vanishes
    exactly when the iterate equals [u_exterior], at a Dirichlet node
    (top or bottom level) of a column that is not exterior exactly
    when it equals [u_exact] at the node, and at every other node the
    pass stores 0 whatever the iterate is. *)
Theorem residual_owned_node_vanishes_at_target
  (g : NodeLoopInfo) (p : Parameters) (i j k : Z) (x : Q) :
  0 < nl_dx g -> 0 < nl_dy g -> 0 < nl_min_thickness g ->
  (2 <= nl_mz g <= CInt.INT_MAX)%Z ->
  let target :=
    if (node_type p =? NODE_EXTERIOR)%Z then u_exterior
    else u_exact (xy (nl_x_min g) (nl_dx g) i) (xy (nl_y_min g) (nl_dy g) j)
                 (z (bed p) (thickness p) (nl_mz g) k) in
  if (node_type p =? NODE_EXTERIOR)%Z || dirichlet_node (nl_mz g) k
  then residual_owned_node g p i j k x == 0 <-> x == target
  else residual_owned_node g p i j k x == 0.
Proof.
  intros Hx Hy Hmin Hmz target.
  pose proof (dirichlet_scale_positive _ _ _ Hx Hy (node_dz_positive g p Hmin Hmz)) as Hs.
  unfold residual_owned_node. subst target.
  destruct (node_type p =? NODE_EXTERIOR)%Z; cbn [orb].
  - apply scaled_difference_zero. exact Hs.
  - destruct (dirichlet_node (nl_mz g) k).
    + apply scaled_difference_zero. exact Hs.
    + reflexivity.
Qed.

Lemma residual_owned_node_vanishes_at_target_witness :
  residual_owned_node unit_grid ice_free_node 0 0 0 0 == 0 <-> 0 == u_exterior.
Proof.
  apply (residual_owned_node_vanishes_at_target unit_grid ice_free_node 0 0 0 0);
    [reflexivity | reflexivity | reflexivity | vm_compute; split; discriminate].
Defined.

End ResidualExtras.

(** ** FETools.cc: matrices, shape functions, sides, quadratures *)

Module FemExtras.
Import fem.

Local Open Scope Q_scope.

(** X5.  [invert] returns the inverse of a matrix with a non-zero
    determinant: its determinant is the reciprocal, and a germ whose
    derivatives were multiplied by [A] gets them back from
    [multiply (invert A)], in this order and in the other. *)
Theorem invert_undoes_multiply (A : Matrix2) (g : Germ) :
  ~ determinant A == 0 ->
  determinant (invert A) == 1 / determinant A /\
  (val (multiply (invert A) (multiply A g)) = val g /\
   dx (multiply (invert A) (multiply A g)) == dx g /\
   dy (multiply (invert A) (multiply A g)) == dy g) /\
  (val (multiply A (multiply (invert A) g)) = val g /\
   dx (multiply A (multiply (invert A) g)) == dx g /\
   dy (multiply A (multiply (invert A) g)) == dy g).
Proof.
  intros Hdet. destruct A as [a b c d], g as [gv gx gy].
  unfold determinant in Hdet. cbn [J00 J01 J10 J11] in Hdet.
  unfold invert, multiply, determinant. cbn [J00 J01 J10 J11 val dx dy].
  repeat split; try reflexivity; field; exact Hdet.
Qed.

Lemma invert_undoes_multiply_witness :
  let A := {| J00 := 2; J01 := 1; J10 := 1; J11 := 1 |} in
  let g := {| val := 5; dx := 3; dy := 7 |} in
  determinant (invert A) == 1 / determinant A /\
  (val (multiply (invert A) (multiply A g)) = val g /\
   dx (multiply (invert A) (multiply A g)) == dx g /\
   dy (multiply (invert A) (multiply A g)) == dy g) /\
  (val (multiply A (multiply (invert A) g)) = val g /\
   dx (multiply A (multiply (invert A) g)) == dx g /\
   dy (multiply A (multiply (invert A) g)) == dy g).
Proof.
  intros A g. apply (invert_undoes_multiply A g). vm_compute. discriminate.
Defined.

(** X6.  The piecewise-constant functions of [q0::chi] split the
    reference element into four quadrants: at every point exactly one
    of them is 1 and the other three are 0, and all derivatives are
    0.  On the axes the [<=] of the source decides: the point [(0, 0)]
    belongs to function 0. *)
Theorem q0_chi_selects_one_quadrant (pt : QuadPoint) :
  (exists k, (k < q0_n_chi)%nat /\ val (q0_chi k pt) = 1 /\
     forall k', k' <> k -> val (q0_chi k' pt) = 0) /\
  (forall k, dx (q0_chi k pt) = 0 /\ dy (q0_chi k pt) = 0) /\
  val (q0_chi 0 {| xi := 0; eta := 0 |}) = 1.
Proof.
  split; [|split; [intros k; split; reflexivity | reflexivity]].
  unfold q0_chi, q0_n_chi. cbn [val].
  destruct (Qle_bool (xi pt) 0) eqn:Ex, (Qle_bool (eta pt) 0) eqn:Ee; cbn [negb].
  - exists 0%nat. split; [lia|]. split; [reflexivity|].
    intros [|[|[|[|k']]]] Hk'; try reflexivity; lia.
  - exists 3%nat. split; [lia|]. split; [reflexivity|].
    intros [|[|[|[|k']]]] Hk'; try reflexivity; lia.
  - exists 1%nat. split; [lia|]. split; [reflexivity|].
    intros [|[|[|[|k']]]] Hk'; try reflexivity; lia.
  - exists 2%nat. split; [lia|]. split; [reflexivity|].
    intros [|[|[|[|k']]]] Hk'; try reflexivity; lia.
Qed.

(** X7.  The shape functions are nodal bases: the Q1 function [k] is 1
    at node [k] of the reference square and 0 at the three other
    nodes, and the P1 function [k] is 1 at node [k] of the reference
    triangle and 0 at the two other nodes; the dummy fourth P1
    function is 0 at all three. *)
Theorem chi_is_one_at_its_node_only (k j : nat) :
  ((k < 4)%nat -> (j < 4)%nat ->
     val (q1_chi k {| xi := q1_xi j; eta := q1_eta j |}) == if Nat.eqb k j then 1 else 0) /\
  ((j < 3)%nat ->
     val (p1_chi k {| xi := p1_xi j; eta := p1_eta j |}) == if Nat.eqb k j then 1 else 0).
Proof.
  split.
  - intros Hk Hj.
    destruct k as [|[|[|[|k]]]]; try lia; destruct j as [|[|[|[|j]]]]; try lia;
      vm_compute; reflexivity.
  - intros Hj.
    destruct k as [|[|[|k]]]; destruct j as [|[|[|j]]]; try lia;
      vm_compute; reflexivity.
Qed.

Lemma chi_is_one_at_its_node_only_witness :
  (val (q1_chi 2 {| xi := q1_xi 2; eta := q1_eta 2 |}) == if Nat.eqb 2 2 then 1 else 0) /\
  (val (p1_chi 1 {| xi := p1_xi 2; eta := p1_eta 2 |}) == if Nat.eqb 1 2 then 1 else 0).
Proof.
  destruct (chi_is_one_at_its_node_only 2 2) as [H1 _].
  destruct (chi_is_one_at_its_node_only 1 2) as [_ H2].
  split; [apply H1; lia | apply H2; lia].
Defined.

Ltac side_ring :=
  unfold q1_chi, q1_r_star, q1_xi, q1_eta, q1_n_chi;
  cbn [val xi eta nth Nat.modulo Nat.add Nat.divmod fst snd Nat.sub];
  ring.

(** Along a side the shape functions of its two nodes add up to 1. *)
Lemma q1_side_sum (side : nat) (t : Q) :
  (side < 4)%nat ->
  val (q1_chi (q1_incident_node_impl side 0) (q1_r_star side t))
  + val (q1_chi (q1_incident_node_impl side 1) (q1_r_star side t)) == 1.
Proof.
  intros Hside.
  destruct side as [|[|[|[|side]]]]; try lia;
    cbv [q1_incident_node_impl nth]; side_ring.
Qed.

(** X8.  Sides of the Q1 reference element.  [r_star(side, t)] runs
    from the first node incident to the side ([t = -1]) to the second
    one ([t = 1]); along the whole side the shape functions of the two
    incident nodes add up to 1 and those of the two other nodes
    vanish, which is why a side carries two shape functions only: the
    two germs that [BoundaryQuadrature2] stores for a side and a
    quadrature point have values that add up to 1, whatever [sqrt]
    returns. *)
Theorem q1_side_carries_two_shape_functions
  (sqrt : Q -> Q) (dx dy L t : Q) (side q : nat) :
  (side < q1_n_sides)%nat ->
  let n0 := q1_incident_node_impl side 0 in
  let n1 := q1_incident_node_impl side 1 in
  (xi (q1_r_star side (-1)) == q1_xi n0 /\ eta (q1_r_star side (-1)) == q1_eta n0) /\
  (xi (q1_r_star side 1) == q1_xi n1 /\ eta (q1_r_star side 1) == q1_eta n1) /\
  val (q1_chi n0 (q1_r_star side t)) + val (q1_chi n1 (q1_r_star side t)) == 1 /\
  (forall k, (k < q1_n_chi)%nat -> k <> n0 -> k <> n1 ->
     val (q1_chi k (q1_r_star side t)) == 0) /\
  val (BoundaryQuadrature2_germ sqrt dx dy L side q 0)
  + val (BoundaryQuadrature2_germ sqrt dx dy L side q 1) == 1.
Proof.
  unfold q1_n_sides, q1_n_chi. intros Hside. cbv zeta.
  destruct side as [|[|[|[|side]]]]; try lia;
    cbv [q1_incident_node_impl nth];
    (split; [split; vm_compute; reflexivity|]);
    (split; [split; vm_compute; reflexivity|]);
    (split; [side_ring|]);
    (split; [intros [|[|[|[|k]]]] Hk H0 H1; try lia; side_ring |]);
    unfold BoundaryQuadrature2_germ, multiply; cbn [val];
    apply q1_side_sum; lia.
Qed.

Lemma q1_side_carries_two_shape_functions_witness :
  let n0 := q1_incident_node_impl 3 0 in
  let n1 := q1_incident_node_impl 3 1 in
  (xi (q1_r_star 3 (-1)) == q1_xi n0 /\ eta (q1_r_star 3 (-1)) == q1_eta n0) /\
  (xi (q1_r_star 3 1) == q1_xi n1 /\ eta (q1_r_star 3 1) == q1_eta n1) /\
  val (q1_chi n0 (q1_r_star 3 (1 # 2))) + val (q1_chi n1 (q1_r_star 3 (1 # 2))) == 1 /\
  (forall k, (k < q1_n_chi)%nat -> k <> n0 -> k <> n1 ->
     val (q1_chi k (q1_r_star 3 (1 # 2))) == 0) /\
  val (BoundaryQuadrature2_germ (fun x => x) 1 1 1 3 0 0)
  + val (BoundaryQuadrature2_germ (fun x => x) 1 1 1 3 0 1) == 1.
Proof.
  apply (q1_side_carries_two_shape_functions (fun x => x) 1 1 1 (1 # 2) 3 0).
  unfold q1_n_sides. lia.
Defined.

(** X9.  The normals of [q1::ElementGeometry] fit the sides: every
    point [r_star(side, t)] of a side satisfies [n . r = 1] for the
    normal [n] of that side, so that the side lies on the edge of the
    square the normal points out of; the normal has length 1, and it
    is orthogonal to the tangent [dr = multiply(J, dr_star[side])] that
    [BoundaryQuadrature2] computes, for every element size. *)
Theorem q1_normals_point_out_of_their_sides (dx dy L t : Q) (side : nat) :
  (side < q1_n_sides)%nat ->
  let n := q1_normal side in
  u n * xi (q1_r_star side t) + v n * eta (q1_r_star side t) == 1 /\
  u n * u n + v n * v n == 1 /\
  u n * u (BoundaryQuadrature2_dr dx dy L side)
  + v n * v (BoundaryQuadrature2_dr dx dy L side) == 0.
Proof.
  unfold q1_n_sides. intros Hside.
  destruct side as [|[|[|[|side]]]]; try lia;
    unfold q1_normal, q1_normals, q1_r_star, q1_xi, q1_eta, q1_n_chi,
           BoundaryQuadrature2_dr, BoundaryQuadrature2_J, multiply_Vector2, q1_dr_star;
    cbn [u v xi eta nth Nat.modulo Nat.add Nat.divmod fst snd Nat.sub J00 J01 J10 J11];
    repeat split; ring.
Qed.

Lemma q1_normals_point_out_of_their_sides_witness :
  let n := q1_normal 1 in
  u n * xi (q1_r_star 1 0) + v n * eta (q1_r_star 1 0) == 1 /\
  u n * u n + v n * v n == 1 /\
  u n * u (BoundaryQuadrature2_dr 2 3 1 1)
  + v n * v (BoundaryQuadrature2_dr 2 3 1 1) == 0.
Proof.
  apply (q1_normals_point_out_of_their_sides 2 3 1 0 1). unfold q1_n_sides. lia.
Defined.

(** Sums of the germs of the three families of shape functions. *)
Lemma q1_chi_sums (pt : QuadPoint) :
  val (q1_chi 0 pt) + val (q1_chi 1 pt) + val (q1_chi 2 pt) + val (q1_chi 3 pt) == 1 /\
  dx (q1_chi 0 pt) + dx (q1_chi 1 pt) + dx (q1_chi 2 pt) + dx (q1_chi 3 pt) == 0 /\
  dy (q1_chi 0 pt) + dy (q1_chi 1 pt) + dy (q1_chi 2 pt) + dy (q1_chi 3 pt) == 0.
Proof.
  destruct pt as [x e].
  unfold q1_chi, q1_xi, q1_eta; cbn [nth val dx dy xi eta].
  repeat split; ring.
Qed.

Lemma q0_chi_sums (pt : QuadPoint) :
  val (q0_chi 0 pt) + val (q0_chi 1 pt) + val (q0_chi 2 pt) + val (q0_chi 3 pt) == 1 /\
  dx (q0_chi 0 pt) + dx (q0_chi 1 pt) + dx (q0_chi 2 pt) + dx (q0_chi 3 pt) == 0 /\
  dy (q0_chi 0 pt) + dy (q0_chi 1 pt) + dy (q0_chi 2 pt) + dy (q0_chi 3 pt) == 0.
Proof.
  unfold q0_chi. cbn [val dx dy Nat.eqb andb orb].
  destruct (Qle_bool (xi pt) 0), (Qle_bool (eta pt) 0); cbn [negb andb orb];
    repeat split; reflexivity.
Qed.

(** [initialize] keeps the sums: the values are copied and the
    derivatives are multiplied by one and the same matrix. *)
Lemma initialize_partition_of_unity
      (Nq : nat) (J : Matrix2) (f : nat -> QuadPoint -> Germ)
      (points : list QuadPoint) (W : list Q) :
  (forall pt,
     val (f 0%nat pt) + val (f 1%nat pt) + val (f 2%nat pt) + val (f 3%nat pt) == 1 /\
     dx (f 0%nat pt) + dx (f 1%nat pt) + dx (f 2%nat pt) + dx (f 3%nat pt) == 0 /\
     dy (f 0%nat pt) + dy (f 1%nat pt) + dy (f 2%nat pt) + dy (f 3%nat pt) == 0) ->
  germs_partition_of_unity (initialize Nq J f 4 points W).
Proof.
  intros Hf q Hq. unfold test_function_values, initialize in *. cbn [m_germs m_Nq] in *.
  rewrite ListFacts.nth_map_seq by exact Hq. cbn [Nat.add seq map nth].
  destruct (Hf (nth q points {| xi := 0; eta := 0 |})) as (Hv & Hx & Hy).
  unfold multiply. cbn [val dx dy].
  set (g0 := f 0%nat _) in *. set (g1 := f 1%nat _) in *.
  set (g2 := f 2%nat _) in *. set (g3 := f 3%nat _) in *.
  split; [exact Hv|]. split.
  - transitivity ((dx g0 + dx g1 + dx g2 + dx g3) * J00 (invert J)
                  + (dy g0 + dy g1 + dy g2 + dy g3) * J01 (invert J)); [ring|].
    rewrite Hx, Hy. ring.
  - transitivity ((dx g0 + dx g1 + dx g2 + dx g3) * J10 (invert J)
                  + (dy g0 + dy g1 + dy g2 + dy g3) * J11 (invert J)); [ring|].
    rewrite Hx, Hy. ring.
Qed.

(** X10.  Every quadrature stores a partition of unity: at each
    quadrature point of the 4-, 9- and 16-point Gaussian rules, of the
    two uniform 100 x 100 rules and of the 3-point rule on each of the
    four triangles, the values of the four stored germs add up to 1
    and their derivatives with respect to [x] and to [y] add up to 0,
    for every element size and scaling and whatever [sqrt] returns. *)
Theorem quadrature_germs_form_partition_of_unity (sqrt : Q -> Q) (dx dy L : Q) :
  germs_partition_of_unity (Q1Quadrature4 sqrt dx dy L) /\
  germs_partition_of_unity (Q1Quadrature9 sqrt dx dy L) /\
  germs_partition_of_unity (Q1Quadrature16 sqrt dx dy L) /\
  germs_partition_of_unity (Q1Quadrature1e4 dx dy L) /\
  germs_partition_of_unity (Q0Quadrature1e4 dx dy L) /\
  Forall (fun N => exists quad, P1Quadrature3 N dx dy L = Some quad /\
                     germs_partition_of_unity quad)
         [0; 1; 2; 3]%nat.
Proof.
  split; [|split; [|split; [|split; [|split]]]].
  - apply initialize_partition_of_unity, q1_chi_sums.
  - apply initialize_partition_of_unity, q1_chi_sums.
  - apply initialize_partition_of_unity, q1_chi_sums.
  - apply initialize_partition_of_unity, q1_chi_sums.
  - apply initialize_partition_of_unity, q0_chi_sums.
  - repeat (apply Forall_cons;
              [ eexists; split; [reflexivity|];
                intros q Hq; cbn [m_Nq initialize] in Hq;
                destruct q as [|[|[|q]]]; try lia;
                cbv [test_function_values m_germs initialize map seq nth permute q1_n_chi
                     multiply p1_chi val fem.dx fem.dy xi eta];
                (split; [ring | split; ring]) |]).
    apply Forall_nil.
Qed.

(** X11.  On the triangle [N] (named by the node at its right angle)
    the germ stored for the node [(N + 2) mod 4], the node of the
    square that the triangle does not use, is the dummy function:
    zero with zero derivatives at each of the three quadrature
    points; the node [N] itself carries the first P1 function.  For
    [N > 3] the constructor's [switch] sets no Jacobian. *)
Theorem P1Quadrature3_puts_dummy_opposite_right_angle (dx dy L : Q) (N q : nat) :
  (q < 3)%nat ->
  match P1Quadrature3 N dx dy L with
  | Some quad =>
      (N < 4)%nat /\
      zero_germ (test_function_values quad q ((N + 2) mod 4)) /\
      val (test_function_values quad q N)
      == val (p1_chi 0 (nth q [ {| xi := 2 / 3; eta := 1 / 6 |};
                                {| xi := 1 / 6; eta := 2 / 3 |};
                                {| xi := 1 / 6; eta := 1 / 6 |} ]
                            {| xi := 0; eta := 0 |}))
  | None => (4 <= N)%nat
  end.
Proof.
  intros Hq.
  destruct N as [|[|[|[|N]]]]; [| | | |cbn; lia];
    destruct q as [|[|[|q]]]; try lia;
    cbv [P1Quadrature3 P1Quadrature_J test_function_values m_germs initialize map seq nth
         permute q1_n_chi multiply p1_chi val fem.dx fem.dy xi eta zero_germ
         Nat.modulo Nat.add Nat.divmod fst snd Nat.sub];
    (split; [lia|]); repeat split; ring.
Qed.

Lemma P1Quadrature3_puts_dummy_opposite_right_angle_witness :
  match P1Quadrature3 1 2 3 1 with
  | Some quad =>
      (1 < 4)%nat /\
      zero_germ (test_function_values quad 0 ((1 + 2) mod 4)) /\
      val (test_function_values quad 0 1)
      == val (p1_chi 0 (nth 0%nat [ {| xi := 2 / 3; eta := 1 / 6 |};
                                    {| xi := 1 / 6; eta := 2 / 3 |};
                                    {| xi := 1 / 6; eta := 1 / 6 |} ]
                            {| xi := 0; eta := 0 |}))
  | None => (4 <= 1)%nat
  end.
Proof.
  apply (P1Quadrature3_puts_dummy_opposite_right_angle 2 3 1 1 0). lia.
Defined.

(** Sums of weights. *)
Lemma sum_map_scale (c : Q) (g : nat -> Q) (l : list nat) :
  fold_right Qplus 0 (map (fun q => c * g q) l) == c * fold_right Qplus 0 (map g l).
Proof.
  induction l as [|x l IH]; cbn [map fold_right]; [ring|]. rewrite IH. ring.
Qed.

Lemma sum_map_const (c : Q) (l : list nat) :
  fold_right Qplus 0 (map (fun _ => c) l) == inject_Z (Z.of_nat (length l)) * c.
Proof.
  induction l as [|x l IH]; [cbn; ring|].
  cbn [map fold_right length]. rewrite IH, Nat2Z.inj_succ.
  unfold Z.succ. rewrite inject_Z_plus. ring.
Qed.

Lemma sum_app (a b : list Q) :
  fold_right Qplus 0 (a ++ b) == fold_right Qplus 0 a + fold_right Qplus 0 b.
Proof.
  induction a as [|x a IH]; cbn [app fold_right]; [ring|]. rewrite IH. ring.
Qed.

Lemma sum_flat_map_const (F : nat -> list Q) (c : Q) (l : list nat) :
  (forall j, In j l -> fold_right Qplus 0 (F j) == c) ->
  fold_right Qplus 0 (flat_map F l) == inject_Z (Z.of_nat (length l)) * c.
Proof.
  induction l as [|x l IH]; intros H; [cbn; ring|].
  cbn [flat_map length]. rewrite sum_app, IH by (intros j Hj; apply H; now right).
  rewrite (H x) by now left.
  rewrite Nat2Z.inj_succ. unfold Z.succ. rewrite inject_Z_plus. ring.
Qed.

Lemma map_nth_seq {A : Type} (l : list A) (d : A) :
  map (fun q => nth q l d) (seq 0 (length l)) = l.
Proof.
  induction l as [|x l IH]; [reflexivity|].
  cbn [length seq map nth]. f_equal.
  rewrite <- seq_shift, map_map. exact IH.
Qed.

Lemma length_tensor (n : nat) (F : nat -> nat -> Q) :
  length (flat_map (fun j => map (fun i => F i j) (seq 0 n)) (seq 0 n)) = (n * n)%nat.
Proof.
  assert (H : forall l : list nat,
             length (flat_map (fun j => map (fun i => F i j) (seq 0 n)) l)
             = (length l * n)%nat).
  { induction l as [|x l IH]; [reflexivity|].
    cbn [flat_map length]. rewrite length_app, length_map, length_seq, IH. lia. }
  rewrite H, length_seq. reflexivity.
Qed.

(** The weights of a rule built by [initialize] from the tensor
    product of the uniform 1D rule with [n] points. *)
Lemma total_weight_uniform
      (n : nat) (J : Matrix2) (f : nat -> QuadPoint -> Germ) (n_chi : nat) :
  (0 < n)%nat ->
  total_weight
    (let (points, W) := tensor_product_quadrature n (uniform_points n) (uniform_weights n) in
     initialize (n * n) J f n_chi points W)
  == determinant J * 4.
Proof.
  intros Hn. unfold tensor_product_quadrature, total_weight, initialize. cbn [m_W].
  set (W := flat_map _ (seq 0 n)).
  assert (HW : length W = (n * n)%nat) by apply length_tensor.
  rewrite (sum_map_scale (determinant J) (fun q => nth q W 0)).
  rewrite <- HW, map_nth_seq. unfold W.
  set (c := 2 / inject_Z (Z.of_nat n)).
  rewrite (sum_flat_map_const _ (inject_Z (Z.of_nat n) * (c * c))).
  - rewrite length_seq. unfold c. field.
    intros E. unfold Qeq in E. cbn in E. lia.
  - intros j Hj%in_seq.
    rewrite (map_ext_in _ (fun _ => c * c)).
    + rewrite sum_map_const, length_seq. reflexivity.
    + intros i Hi%in_seq. unfold uniform_weights.
      rewrite !ListFacts.nth_map_seq by lia. reflexivity.
Qed.

(** X12.  The two uniform rules have 100 x 100 points, and their
    weights, all equal, sum to the area of the element in scaled
    units, [(dx / L) * (dy / L)]. *)
Theorem uniform_quadrature_weights_sum_to_area (dx dy L : Q) :
  (m_Nq (Q1Quadrature1e4 dx dy L) = (100 * 100)%nat /\
   length (m_W (Q1Quadrature1e4 dx dy L)) = (100 * 100)%nat /\
   total_weight (Q1Quadrature1e4 dx dy L) == (dx / L) * (dy / L)) /\
  (m_Nq (Q0Quadrature1e4 dx dy L) = (100 * 100)%nat /\
   length (m_W (Q0Quadrature1e4 dx dy L)) = (100 * 100)%nat /\
   total_weight (Q0Quadrature1e4 dx dy L) == (dx / L) * (dy / L)).
Proof.
  assert (Hdet : determinant (UniformQxQuadrature_J dx dy L) * 4 == (dx / L) * (dy / L)).
  { unfold determinant, UniformQxQuadrature_J. cbn [J00 J01 J10 J11].
    unfold Qdiv. ring. }
  assert (Hn : (0 < m_size_1d)%nat) by (unfold m_size_1d; lia).
  split; (split; [reflexivity|]); (split; [|]).
  - unfold Q1Quadrature1e4, tensor_product_quadrature, initialize. cbn [m_W].
    now rewrite length_map, length_seq.
  - unfold Q1Quadrature1e4. rewrite total_weight_uniform by exact Hn. exact Hdet.
  - unfold Q0Quadrature1e4, tensor_product_quadrature, initialize. cbn [m_W].
    now rewrite length_map, length_seq.
  - unfold Q0Quadrature1e4. rewrite total_weight_uniform by exact Hn. exact Hdet.
Qed.

End FemExtras.

(** ** FETools.cc: the element ranges of [ElementIterator] *)

Module ElementIteratorExtras.
Import fem.

Ltac int_range := unfold CInt.in_range, CInt.INT_MIN, CInt.INT_MAX in *; lia.

(** The ranges along one direction, written without the wraps: [s] is
    the first owned node, [m] their number, [M] the grid size. *)
Lemma new_fields (g : Grid.IceGrid) :
  ElementIterator.patch_in_grid g ->
  let clip_lo (periodic : bool) (s : Z) := if periodic then s - 1 else Z.max (s - 1) 0 in
  let clip_hi (periodic : bool) (s m M : Z) :=
    if periodic then s + m - 1 else Z.min (s + m - 1) (M - 2) in
  let it := ElementIterator.new g in
  let px := ElementIterator.x_periodic g in
  let py := ElementIterator.y_periodic g in
  ElementIterator.xs it = clip_lo px (Grid.xs g) /\
  ElementIterator.xs it + ElementIterator.xm it
    = clip_hi px (Grid.xs g) (Grid.xm g) (Grid.Mx g) + 1 /\
  ElementIterator.ys it = clip_lo py (Grid.ys g) /\
  ElementIterator.ys it + ElementIterator.ym it
    = clip_hi py (Grid.ys g) (Grid.ym g) (Grid.My g) + 1 /\
  ElementIterator.lxs it = Grid.xs g /\
  ElementIterator.lxs it + ElementIterator.lxm it
    = clip_hi px (Grid.xs g) (Grid.xm g) (Grid.Mx g) + 1 /\
  ElementIterator.lys it = Grid.ys g /\
  ElementIterator.lys it + ElementIterator.lym it
    = clip_hi py (Grid.ys g) (Grid.ym g) (Grid.My g) + 1.
Proof.
  intros (Hxs & Hxm & Hx & Hys & Hym & Hy & HMx & HMy).
  cbv zeta. unfold ElementIterator.new, ElementIterator.x_periodic, ElementIterator.y_periodic.
  unfold CInt.sub, CInt.add.
  rewrite (CIntFacts.wrap_id (Grid.xs g - 1)) by int_range.
  rewrite (CIntFacts.wrap_id (Grid.ys g - 1)) by int_range.
  rewrite (CIntFacts.wrap_id (Grid.xs g + Grid.xm g)) by int_range.
  rewrite (CIntFacts.wrap_id (Grid.ys g + Grid.ym g)) by int_range.
  rewrite (CIntFacts.wrap_id (Grid.xs g + Grid.xm g - 1)) by int_range.
  rewrite (CIntFacts.wrap_id (Grid.ys g + Grid.ym g - 1)) by int_range.
  rewrite (CIntFacts.wrap_id (Grid.Mx g)) by int_range.
  rewrite (CIntFacts.wrap_id (Grid.My g)) by int_range.
  rewrite (CIntFacts.wrap_id (Grid.Mx g - 2)) by int_range.
  rewrite (CIntFacts.wrap_id (Grid.My g - 2)) by int_range.
  destruct (Z.land _ (ElementIterator.Periodicity_value Grid.X_PERIODIC) =? 0);
    destruct (Z.land _ (ElementIterator.Periodicity_value Grid.Y_PERIODIC) =? 0);
    cbn [negb];
    repeat match goal with
           | |- context [(?a <? ?b)] => destruct (Z.ltb_spec a b)
           end;
    cbn [ElementIterator.xs ElementIterator.xm ElementIterator.ys ElementIterator.ym
         ElementIterator.lxs ElementIterator.lxm ElementIterator.lys ElementIterator.lym];
    repeat match goal with
           | |- context [CInt.wrap ?z] =>
               lazymatch z with
               | context [CInt.wrap _] => fail
               | _ => rewrite (CIntFacts.wrap_id z) by int_range
               end
           end;
    lia.
Qed.

Lemma periodic_cases (g : Grid.IceGrid) :
  Grid.periodicity g = Grid.NOT_PERIODIC ->
  ElementIterator.x_periodic g = false /\ ElementIterator.y_periodic g = false.
Proof.
  intros E. unfold ElementIterator.x_periodic, ElementIterator.y_periodic.
  rewrite E. split; reflexivity.
Qed.

(** The local elements, written with the ownership test. *)
Lemma in_local_range_value (g : Grid.IceGrid) (ij : Z * Z) :
  ElementIterator.patch_in_grid g ->
  ElementIterator.in_local_range (ElementIterator.new g) ij =
  Grid.owns g ij
  && (ElementIterator.x_periodic g || (fst ij <=? Grid.Mx g - 2))
  && (ElementIterator.y_periodic g || (snd ij <=? Grid.My g - 2)).
Proof.
  intros Hg. pose proof (new_fields g Hg) as F. cbv zeta in F.
  destruct F as (_ & _ & _ & _ & F1 & F2 & F3 & F4).
  destruct Hg as (Hxs & Hxm & Hx & Hys & Hym & Hy & HMx & HMy).
  destruct ij as [i j]. unfold ElementIterator.in_local_range, Grid.owns. cbn [fst snd].
  apply LoopFacts.bool_eq_iff.
  rewrite !andb_true_iff, !orb_true_iff, !Z.leb_le, !Z.ltb_lt.
  rewrite F2, F4, F1, F3.
  destruct (ElementIterator.x_periodic g), (ElementIterator.y_periodic g); lia.
Qed.

(** X13.  The element ranges of [ElementIterator] for a non-empty
    patch inside the grid.  The full range holds the elements that
    have a node in the patch (their lower left node lies in the patch
    or one step below or left of it), without those that reach beyond
    the grid in a direction that is not periodic.  The local range
    holds the elements whose lower left node is owned, with the same
    exception; every local element is in the full range. *)
Theorem ElementIterator_ranges_cover_owned_nodes (g : Grid.IceGrid) (i j : Z) :
  ElementIterator.patch_in_grid g ->
  let it := ElementIterator.new g in
  (ElementIterator.in_range it (i, j) = true <->
     (Grid.xs g - 1 <= i <= Grid.xs g + Grid.xm g - 1 /\
      (ElementIterator.x_periodic g = false -> 0 <= i <= Grid.Mx g - 2)) /\
     (Grid.ys g - 1 <= j <= Grid.ys g + Grid.ym g - 1 /\
      (ElementIterator.y_periodic g = false -> 0 <= j <= Grid.My g - 2))) /\
  (ElementIterator.in_local_range it (i, j) = true <->
     Grid.owns g (i, j) = true /\
     (ElementIterator.x_periodic g = false -> i <= Grid.Mx g - 2) /\
     (ElementIterator.y_periodic g = false -> j <= Grid.My g - 2)) /\
  (ElementIterator.in_local_range it (i, j) = true ->
   ElementIterator.in_range it (i, j) = true).
Proof.
  intros Hg it. pose proof (new_fields g Hg) as F. cbv zeta in F. fold it in F.
  destruct F as (F1 & F2 & F3 & F4 & F5 & F6 & F7 & F8).
  pose proof Hg as (Hxs & Hxm & Hx & Hys & Hym & Hy & HMx & HMy).
  unfold ElementIterator.in_range, ElementIterator.in_local_range, Grid.owns. cbn [fst snd].
  rewrite !andb_true_iff, !Z.leb_le, !Z.ltb_lt.
  rewrite F2, F4, F6, F8, F1, F3, F5, F7.
  destruct (ElementIterator.x_periodic g), (ElementIterator.y_periodic g);
    (split; [|split]); try (intros; lia);
    split; intros; repeat split; try discriminate; try lia.
Qed.

Lemma left_patch_in_grid : ElementIterator.patch_in_grid Grid.left_patch.
Proof. unfold ElementIterator.patch_in_grid. cbn. unfold CInt.INT_MAX. lia. Qed.

Lemma right_patch_in_grid : ElementIterator.patch_in_grid Grid.right_patch.
Proof. unfold ElementIterator.patch_in_grid. cbn. unfold CInt.INT_MAX. lia. Qed.

Lemma ElementIterator_ranges_cover_owned_nodes_witness :
  let g := Grid.left_patch in
  let it := ElementIterator.new g in
  (ElementIterator.in_range it (1, 0) = true <->
     (Grid.xs g - 1 <= 1 <= Grid.xs g + Grid.xm g - 1 /\
      (ElementIterator.x_periodic g = false -> 0 <= 1 <= Grid.Mx g - 2)) /\
     (Grid.ys g - 1 <= 0 <= Grid.ys g + Grid.ym g - 1 /\
      (ElementIterator.y_periodic g = false -> 0 <= 0 <= Grid.My g - 2))) /\
  (ElementIterator.in_local_range it (1, 0) = true <->
     Grid.owns g (1, 0) = true /\
     (ElementIterator.x_periodic g = false -> 1 <= Grid.Mx g - 2) /\
     (ElementIterator.y_periodic g = false -> 0 <= Grid.My g - 2)) /\
  (ElementIterator.in_local_range it (1, 0) = true ->
   ElementIterator.in_range it (1, 0) = true).
Proof.
  intros g. apply (ElementIterator_ranges_cover_owned_nodes g 1 0).
  unfold g, ElementIterator.patch_in_grid. cbn. unfold CInt.INT_MAX. lia.
Defined.

Lemma filter_and_const {A : Type} (p : A -> bool) (c : bool) (l : list A) :
  filter (fun a => p a && c) l = if c then filter p l else [].
Proof.
  destruct c.
  - apply filter_ext. intros a. apply andb_true_r.
  - induction l as [|a l IH]; [reflexivity|]. cbn [filter]. now rewrite andb_false_r.
Qed.

(** X14.  On a grid that is not periodic, split among processes whose
    patches partition the nodes, the local element ranges partition
    the elements of the domain: every element [(i, j)] with
    [0 <= i <= MX - 2] and [0 <= j <= MY - 2] is a local element of
    exactly one process, and any other index pair of none.  The loops
    over the local elements ([valueAt], [dot]) therefore visit each
    element of the domain once. *)
Theorem local_element_ranges_partition_the_domain
  (MX MY : Z) (procs : list Grid.IceGrid) (ij : Z * Z) :
  Forall (fun g => ElementIterator.patch_in_grid g /\
                   Grid.Mx g = MX /\ Grid.My g = MY /\
                   Grid.periodicity g = Grid.NOT_PERIODIC) procs ->
  Grid.partitions MX MY procs ->
  length (filter (fun g => ElementIterator.in_local_range (ElementIterator.new g) ij) procs)
  = if Grid.in_space (MX - 1) (MY - 1) ij then 1%nat else 0%nat.
Proof.
  intros Hall Hpart.
  rewrite (filter_ext_in _
             (fun g => Grid.owns g ij && Grid.in_space (MX - 1) (MY - 1) ij)).
  - rewrite filter_and_const.
    destruct (Grid.in_space (MX - 1) (MY - 1) ij) eqn:E; [|reflexivity].
    rewrite (Hpart ij).
    replace (Grid.in_space MX MY ij) with true; [reflexivity|].
    symmetry. destruct ij as [i j]. unfold Grid.in_space in *.
    rewrite !andb_true_iff, !Z.leb_le, !Z.ltb_lt in *. lia.
  - intros g Hin. rewrite Forall_forall in Hall.
    destruct (Hall g Hin) as (Hg & HMx & HMy & Hper).
    rewrite (in_local_range_value g ij Hg).
    destruct (periodic_cases g Hper) as [-> ->]. cbn [orb].
    pose proof Hg as (Hxs & Hxm & Hx & Hys & Hym & Hy & _ & _).
    rewrite HMx, HMy. destruct ij as [i j]. unfold Grid.owns, Grid.in_space. cbn [fst snd].
    apply LoopFacts.bool_eq_iff.
    rewrite !andb_true_iff, !Z.leb_le, !Z.ltb_lt. lia.
Qed.

Lemma local_element_ranges_partition_the_domain_witness :
  length (filter (fun g => ElementIterator.in_local_range (ElementIterator.new g) (2, 0))
                 [Grid.left_patch; Grid.right_patch])
  = if Grid.in_space (4 - 1) (2 - 1) (2, 0) then 1%nat else 0%nat.
Proof.
  apply (local_element_ranges_partition_the_domain 4 2).
  - repeat constructor; first [apply left_patch_in_grid | apply right_patch_in_grid].
  - exact GridClaims.two_patches_partition.
Defined.

End ElementIteratorExtras.

(** ** FETools.cc: Dirichlet data on nodal values and residuals *)

Module DirichletExtras.
Import fem.

Local Open Scope Q_scope.

(** A loop that stores [v i j] at the marked points of a list. *)
Lemma set_loop (d : Z -> Z -> bool) (v : Z -> Z -> Q) (L : list (Z * Z)) :
  forall (r : Z -> Z -> Q) (i j : Z),
    fold_left (fun r (p : Z * Z) =>
                 let (i, j) := p in if d i j then array2_set r j i (v i j) else r) L r j i =
    if NodeTypes.memb (i, j) L && d i j then v i j else r j i.
Proof.
  induction L as [|[pi pj] L' IH]; intros r i j; [reflexivity|].
  cbn [fold_left]. rewrite IH. cbn [NodeTypes.memb existsb].
  fold (NodeTypes.memb (i, j) L').
  unfold NodeTypes.same_index. cbn [fst snd].
  destruct (NodeTypes.memb (i, j) L' && d i j) eqn:E1.
  - apply andb_true_iff in E1. destruct E1 as [-> ->].
    now rewrite orb_true_r.
  - destruct ((i =? pi)%Z && (j =? pj)%Z) eqn:E2.
    + apply andb_true_iff in E2. destruct E2 as [->%Z.eqb_eq ->%Z.eqb_eq].
      cbn [orb andb]. destruct (d pi pj); [|reflexivity].
      unfold array2_set. now rewrite !Z.eqb_refl.
    + cbn [orb]. rewrite E1.
      destruct (d pi pj); [|reflexivity].
      unfold array2_set. rewrite (andb_comm (j =? pj)%Z), E2. reflexivity.
Qed.

Lemma owned_in_rectangle (grid : Grid.IceGrid) (i j : Z) :
  Grid.patch_ok grid 0 ->
  NodeTypes.memb (i, j)
    (Grid.rectangle (Grid.xs grid) (Z.to_nat (Grid.xm grid))
                    (Grid.ys grid) (Z.to_nat (Grid.ym grid)))
  = Grid.owns grid (i, j).
Proof.
  intros Hok. apply LoopFacts.bool_eq_iff.
  rewrite NodeTypeFacts.memb_In.
  apply GridClaims.owns_rectangle; destruct Hok as (? & ? & _); lia.
Qed.

(** X15.  [fix_residual] and [fix_residual_homogeneous] end and write
    the owned Dirichlet nodes only: there the residual becomes
    [weight * (x - value)], respectively 0, and every other entry of
    the residual is left as it was.  When the iterate agrees with the
    prescribed values at the owned Dirichlet nodes the two routines
    give the same residual. *)
Theorem fix_residual_writes_owned_dirichlet_nodes
  (fuel : nat) (grid : Grid.IceGrid) (dd : DirichletData)
  (m_values x_global r_global : Z -> Z -> Q) :
  Grid.patch_ok grid 0 ->
  (Z.to_nat (Grid.xm grid) * Z.to_nat (Grid.ym grid) <= fuel)%nat ->
  exists r r0 : Z -> Z -> Q,
    fix_residual fuel grid dd m_values x_global r_global = Some r /\
    fix_residual_homogeneous fuel grid dd r_global = Some r0 /\
    (forall i j,
       r j i = if Grid.owns grid (i, j) && exceeds_half (m_indices dd i j)
               then m_weight dd * (x_global j i - m_values i j)
               else r_global j i) /\
    (forall i j,
       r0 j i = if Grid.owns grid (i, j) && exceeds_half (m_indices dd i j)
                then 0 else r_global j i) /\
    ((forall i j, Grid.owns grid (i, j) = true ->
                  exceeds_half (m_indices dd i j) = true ->
                  x_global j i == m_values i j) ->
     forall i j, r j i == r0 j i).
Proof.
  intros Hok Hfuel. unfold fix_residual, fix_residual_homogeneous.
  rewrite (GridClaims.visit_Points grid fuel Hok Hfuel).
  eexists. eexists. split; [reflexivity|]. split; [reflexivity|].
  assert (H1 : forall i j,
    fold_left
      (fun r (p : Z * Z) =>
         let (i0, j0) := p in
         if exceeds_half (m_indices dd i0 j0)
         then array2_set r j0 i0 (m_weight dd * (x_global j0 i0 - m_values i0 j0))
         else r)
      (Grid.rectangle (Grid.xs grid) (Z.to_nat (Grid.xm grid))
                      (Grid.ys grid) (Z.to_nat (Grid.ym grid))) r_global j i
    = if Grid.owns grid (i, j) && exceeds_half (m_indices dd i j)
      then m_weight dd * (x_global j i - m_values i j) else r_global j i).
  { intros i j.
    rewrite (set_loop (fun i j => exceeds_half (m_indices dd i j))
                      (fun i j => m_weight dd * (x_global j i - m_values i j))).
    now rewrite owned_in_rectangle. }
  assert (H2 : forall i j,
    fold_left
      (fun r (p : Z * Z) =>
         let (i0, j0) := p in
         if exceeds_half (m_indices dd i0 j0) then array2_set r j0 i0 0 else r)
      (Grid.rectangle (Grid.xs grid) (Z.to_nat (Grid.xm grid))
                      (Grid.ys grid) (Z.to_nat (Grid.ym grid))) r_global j i
    = if Grid.owns grid (i, j) && exceeds_half (m_indices dd i j)
      then 0 else r_global j i).
  { intros i j.
    rewrite (set_loop (fun i j => exceeds_half (m_indices dd i j)) (fun _ _ => 0)).
    now rewrite owned_in_rectangle. }
  split; [exact H1|]. split; [exact H2|].
  intros Hx i j. rewrite H1, H2.
  destruct (Grid.owns grid (i, j)) eqn:Eo; [|reflexivity].
  destruct (exceeds_half (m_indices dd i j)) eqn:Ed; [|reflexivity].
  cbn [andb]. rewrite (Hx i j Eo Ed). ring.
Qed.

Lemma fix_residual_writes_owned_dirichlet_nodes_witness :
  exists r r0 : Z -> Z -> Q,
    fix_residual 4 Grid.small_grid corner_dirichlet (fun _ _ => 5) (fun _ _ => 7)
                 (fun _ _ => 1) = Some r /\
    fix_residual_homogeneous 4 Grid.small_grid corner_dirichlet (fun _ _ => 1) = Some r0 /\
    (forall i j,
       r j i = if Grid.owns Grid.small_grid (i, j)
                  && exceeds_half (m_indices corner_dirichlet i j)
               then m_weight corner_dirichlet * (7 - 5)
               else 1) /\
    (forall i j,
       r0 j i = if Grid.owns Grid.small_grid (i, j)
                   && exceeds_half (m_indices corner_dirichlet i j)
                then 0 else 1) /\
    ((forall i j, Grid.owns Grid.small_grid (i, j) = true ->
                  exceeds_half (m_indices corner_dirichlet i j) = true ->
                  7 == 5) ->
     forall i j, r j i == r0 j i).
Proof.
  apply (fix_residual_writes_owned_dirichlet_nodes
           4 Grid.small_grid corner_dirichlet (fun _ _ => 5) (fun _ _ => 7) (fun _ _ => 1)).
  - unfold Grid.patch_ok. cbn. unfold CInt.INT_MIN, CInt.INT_MAX. lia.
  - cbn. lia.
Defined.

(** X16.  [enforce] overwrites the entries of the nodal array that
    belong to Dirichlet nodes of the element with the prescribed
    values at these nodes and leaves the other entries alone;
    [enforce_homogeneous] stores 0 instead.  Both keep the length of
    the array, and enforcing twice is the same as enforcing once. *)
Theorem enforce_overwrites_dirichlet_entries
  (dd : DirichletData) (m_values : Z -> Z -> Q) (element : Element)
  (x_nodal : list Q) (k : nat) :
  length x_nodal = q1_n_chi -> (k < q1_n_chi)%nat ->
  let dirichlet := exceeds_half (m_indices dd (fst (local_to_global element k))
                                              (snd (local_to_global element k))) in
  let x1 := enforce dd m_values element x_nodal in
  let x0 := enforce_homogeneous dd element x_nodal in
  nth k x1 0 = (if dirichlet
                then m_values (fst (local_to_global element k)) (snd (local_to_global element k))
                else nth k x_nodal 0) /\
  nth k x0 0 = (if dirichlet then 0 else nth k x_nodal 0) /\
  length x1 = q1_n_chi /\ length x0 = q1_n_chi /\
  enforce dd m_values element x1 = x1 /\
  enforce_homogeneous dd element x0 = x0.
Proof.
  unfold q1_n_chi. intros Hlen Hk. cbv zeta.
  destruct x_nodal as [|a [|b [|c [|d [|e l]]]]]; try discriminate Hlen.
  unfold enforce, enforce_homogeneous, nodal_values, local_to_global, q1_n_chi.
  destruct k as [|[|[|[|k]]]]; try lia;
  cbn [seq map fold_left nth fst snd];
  destruct (exceeds_half (m_indices dd (CInt.add (m_i element) (m_i_offset 0))
                                       (CInt.add (m_j element) (m_j_offset 0))));
  destruct (exceeds_half (m_indices dd (CInt.add (m_i element) (m_i_offset 1))
                                       (CInt.add (m_j element) (m_j_offset 1))));
  destruct (exceeds_half (m_indices dd (CInt.add (m_i element) (m_i_offset 2))
                                       (CInt.add (m_j element) (m_j_offset 2))));
  destruct (exceeds_half (m_indices dd (CInt.add (m_i element) (m_i_offset 3))
                                       (CInt.add (m_j element) (m_j_offset 3))));
  cbn [array_set nth length];
  repeat split; reflexivity.
Qed.

Lemma enforce_overwrites_dirichlet_entries_witness :
  let element := reset (-1) (Element_new (-1) Grid.small_grid) 0 0 in
  let x_nodal := [1; 2; 3; 4] in
  let m_values := fun (i j : Z) => 9 in
  let dirichlet := exceeds_half (m_indices corner_dirichlet
                                   (fst (local_to_global element 2))
                                   (snd (local_to_global element 2))) in
  let x1 := enforce corner_dirichlet m_values element x_nodal in
  let x0 := enforce_homogeneous corner_dirichlet element x_nodal in
  nth 2 x1 0 = (if dirichlet
                then m_values (fst (local_to_global element 2)) (snd (local_to_global element 2))
                else nth 2 x_nodal 0) /\
  nth 2 x0 0 = (if dirichlet then 0 else nth 2 x_nodal 0) /\
  length x1 = q1_n_chi /\ length x0 = q1_n_chi /\
  enforce corner_dirichlet m_values element x1 = x1 /\
  enforce_homogeneous corner_dirichlet element x0 = x0.
Proof.
  intros element x_nodal m_values.
  apply (enforce_overwrites_dirichlet_entries corner_dirichlet m_values element x_nodal 2);
    [reflexivity | unfold q1_n_chi; lia].
Defined.

End DirichletExtras.

(** ** IceGrid.hh: degenerate patches and the null strip *)

Module GridExtras.
Import Grid GridFacts.

Section GeneralIteration.

Variables i_first i_last j_first j_last : Z.
Hypothesis Hi : i_first <= i_last < CInt.INT_MAX.
Hypothesis Hj : j_first < CInt.INT_MAX /\ j_last < CInt.INT_MAX.
Hypothesis Hi_min : CInt.INT_MIN <= i_first.
Hypothesis Hj_min : CInt.INT_MIN <= j_first.

(** The last column the loop reaches: [j_first] itself when the range
    of [j] is empty. *)
Let jl : Z := Z.max j_first j_last.

Let st (i j : Z) (done : bool) : PointsWithGhosts :=
  {| m_i := i; m_j := j;
     m_i_first := i_first; m_i_last := i_last;
     m_j_first := j_first; m_j_last := j_last;
     m_done := done |}.

Let rest (i j : Z) : list (Z * Z) :=
  map (fun b => (i, b)) (zrange j (Z.to_nat (jl - j + 1)))
  ++ rectangle (i + 1) (Z.to_nat (i_last - i)) j_first (Z.to_nat (jl - j_first + 1)).

Lemma next_cases_general (i j : Z) :
  i_first <= i <= i_last -> j_first <= j <= jl ->
  next (st i j false) =
  if j <? jl then st i (j + 1) false
  else if i <? i_last then st (i + 1) j_first false
  else st i_first j_first true.
Proof.
  intros Hii Hjj. unfold next, st. cbn [m_i m_j m_i_first m_i_last m_j_first m_j_last m_done].
  assert (Hjl : jl < CInt.INT_MAX) by (unfold jl; lia).
  assert (Ej1 : CInt.add j 1 = j + 1).
  { unfold CInt.add. apply CIntFacts.wrap_id.
    unfold CInt.in_range, CInt.INT_MIN, CInt.INT_MAX in *. lia. }
  assert (Ei1 : CInt.add i 1 = i + 1).
  { unfold CInt.add. apply CIntFacts.wrap_id.
    unfold CInt.in_range, CInt.INT_MIN, CInt.INT_MAX in *. lia. }
  rewrite Ej1, Ei1.
  destruct (j <? jl) eqn:Ej.
  - apply Z.ltb_lt in Ej.
    replace (j_last <? j + 1) with false by (symmetry; apply Z.ltb_ge; unfold jl in *; lia).
    replace (i_last <? i) with false by (symmetry; apply Z.ltb_ge; lia).
    reflexivity.
  - apply Z.ltb_ge in Ej.
    replace (j_last <? j + 1) with true by (symmetry; apply Z.ltb_lt; unfold jl in *; lia).
    destruct (i <? i_last) eqn:Ei.
    + apply Z.ltb_lt in Ei.
      replace (i_last <? i + 1) with false by (symmetry; apply Z.ltb_ge; lia).
      reflexivity.
    + apply Z.ltb_ge in Ei.
      replace (i_last <? i + 1) with true by (symmetry; apply Z.ltb_lt; lia).
      reflexivity.
Qed.

Lemma rest_cases_general (i j : Z) :
  i_first <= i <= i_last -> j_first <= j <= jl ->
  rest i j =
  (i, j) :: (if j <? jl then rest i (j + 1)
             else if i <? i_last then rest (i + 1) j_first
             else []).
Proof.
  intros Hii Hjj. unfold rest.
  replace (Z.to_nat (jl - j + 1)) with (S (Z.to_nat (jl - j))) by lia.
  rewrite zrange_cons. cbn [map app]. f_equal.
  destruct (j <? jl) eqn:Ej.
  - apply Z.ltb_lt in Ej.
    replace (Z.to_nat (jl - (j + 1) + 1)) with (Z.to_nat (jl - j)) by lia.
    reflexivity.
  - apply Z.ltb_ge in Ej.
    replace (Z.to_nat (jl - j)) with 0%nat by lia. cbn [zrange seq map app].
    destruct (i <? i_last) eqn:Ei.
    + apply Z.ltb_lt in Ei.
      replace (Z.to_nat (i_last - i)) with (S (Z.to_nat (i_last - (i + 1)))) by lia.
      rewrite rectangle_cons. reflexivity.
    + apply Z.ltb_ge in Ei.
      replace (Z.to_nat (i_last - i)) with 0%nat by lia. reflexivity.
Qed.

Lemma visit_rest_general (fuel : nat) :
  forall i j,
    i_first <= i <= i_last -> j_first <= j <= jl ->
    (length (rest i j) <= fuel)%nat ->
    visit fuel (st i j false) = Some (rest i j).
Proof.
  assert (Hjl : j_first <= jl) by (unfold jl; lia).
  induction fuel as [|fuel IH]; intros i j Hii Hjj Hlen.
  - rewrite rest_cases_general in Hlen by assumption. cbn in Hlen. lia.
  - rewrite rest_cases_general in * by assumption. cbn [length] in Hlen.
    change (visit (S fuel) (st i j false))
      with (match visit fuel (next (st i j false)) with
            | Some l => Some ((i, j) :: l)
            | None => None
            end).
    rewrite next_cases_general by assumption.
    destruct (j <? jl) eqn:Ej.
    + apply Z.ltb_lt in Ej. rewrite IH by lia. reflexivity.
    + destruct (i <? i_last) eqn:Ei.
      * apply Z.ltb_lt in Ei. rewrite IH by lia. reflexivity.
      * destruct fuel; reflexivity.
Qed.

Lemma visit_all_general (fuel : nat) :
  (Z.to_nat (i_last - i_first + 1) * Z.to_nat (jl - j_first + 1) <= fuel)%nat ->
  visit fuel (st i_first j_first false) =
  Some (rectangle i_first (Z.to_nat (i_last - i_first + 1))
                  j_first (Z.to_nat (jl - j_first + 1))).
Proof.
  intros Hfuel.
  assert (Hjl : j_first <= jl) by (unfold jl; lia).
  assert (E : rest i_first j_first =
              rectangle i_first (Z.to_nat (i_last - i_first + 1))
                        j_first (Z.to_nat (jl - j_first + 1))).
  { unfold rest.
    replace (Z.to_nat (i_last - i_first + 1)) with (S (Z.to_nat (i_last - i_first))) by lia.
    now rewrite rectangle_cons. }
  rewrite <- E. apply visit_rest_general; try lia.
  rewrite E, rectangle_length. exact Hfuel.
Qed.

End GeneralIteration.

(** With an empty range of [i] the first call of [next] ends the
    loop. *)
Lemma visit_empty_i (i_first i_last j_first j_last : Z) (fuel : nat) :
  i_last < i_first ->
  CInt.INT_MIN <= i_first < CInt.INT_MAX ->
  CInt.INT_MIN <= j_first < CInt.INT_MAX ->
  visit (S fuel)
        {| m_i := i_first; m_j := j_first;
           m_i_first := i_first; m_i_last := i_last;
           m_j_first := j_first; m_j_last := j_last;
           m_done := false |}
  = Some [(i_first, j_first)].
Proof.
  intros Hlt Hi Hj. cbn [visit m_done m_i m_j].
  unfold next. cbn [m_i m_j m_i_first m_i_last m_j_first m_j_last m_done].
  assert (Ej1 : CInt.add j_first 1 = j_first + 1).
  { unfold CInt.add. apply CIntFacts.wrap_id.
    unfold CInt.in_range, CInt.INT_MIN, CInt.INT_MAX in *. lia. }
  assert (Ei1 : CInt.add i_first 1 = i_first + 1).
  { unfold CInt.add. apply CIntFacts.wrap_id.
    unfold CInt.in_range, CInt.INT_MIN, CInt.INT_MAX in *. lia. }
  rewrite Ej1, Ei1.
  destruct (j_last <? j_first + 1).
  - replace (i_last <? i_first + 1) with true by (symmetry; apply Z.ltb_lt; lia).
    destruct fuel; reflexivity.
  - replace (i_last <? i_first) with true by (symmetry; apply Z.ltb_lt; lia).
    destruct fuel; reflexivity.
Qed.

(** X17.  The loops over [PointsWithGhosts] and [Points] on a patch
    that may be empty.  The constructor never sets [m_done], so the
    body runs at least once: when the widened patch has no column
    ([xm + 2 w <= 0]) the loop visits the single point
    [(xs - w, ys - w)], which is not in the patch; when it has columns
    but no row ([ym + 2 w <= 0]) it visits one point in each column.
    Otherwise it visits the widened patch. *)
Theorem PointsWithGhosts_runs_body_on_empty_patch (g : IceGrid) (w : Z) (fuel : nat) :
  widened_in_int g w ->
  (1 <= fuel)%nat ->
  (Z.to_nat (xm g + 2 * w) * Z.to_nat (Z.max 1 (ym g + 2 * w)) <= fuel)%nat ->
  visit fuel (PointsWithGhosts_new g w) =
  Some (if xm g + 2 * w <=? 0
        then [(xs g - w, ys g - w)]
        else rectangle (xs g - w) (Z.to_nat (xm g + 2 * w))
                       (ys g - w) (Z.to_nat (Z.max 1 (ym g + 2 * w)))).
Proof.
  intros (Hx0 & Hx1 & Hy0 & Hy1) Hfuel1 Hfuel.
  unfold PointsWithGhosts_new.
  rewrite !CIntFacts.wrap_id
    by (unfold CInt.in_range, CInt.INT_MIN, CInt.INT_MAX in *; lia).
  destruct (Z.leb_spec (xm g + 2 * w) 0) as [Hempty|Hcols].
  - destruct fuel as [|fuel]; [lia|].
    apply visit_empty_i; lia.
  - pose proof (visit_all_general (xs g - w) (xs g + xm g + w - 1)
                  (ys g - w) (ys g + ym g + w - 1)
                  ltac:(lia) ltac:(lia) ltac:(lia) ltac:(lia) fuel) as H.
    cbv zeta in H.
    replace (xs g + xm g + w - 1 - (xs g - w) + 1) with (xm g + 2 * w) in H by ring.
    replace (Z.max (ys g - w) (ys g + ym g + w - 1) - (ys g - w) + 1)
      with (Z.max 1 (ym g + 2 * w)) in H by lia.
    apply H. exact Hfuel.
Qed.

Lemma PointsWithGhosts_runs_body_on_empty_patch_witness :
  let g := {| xs := 3; xm := 0; ys := 5; ym := 4; Mx := 8; My := 9;
              periodicity := NOT_PERIODIC |} in
  visit 1 (PointsWithGhosts_new g 0) =
  Some (if xm g + 2 * 0 <=? 0
        then [(xs g - 0, ys g - 0)]
        else rectangle (xs g - 0) (Z.to_nat (xm g + 2 * 0))
                       (ys g - 0) (Z.to_nat (Z.max 1 (ym g + 2 * 0)))).
Proof.
  intros g. apply (PointsWithGhosts_runs_body_on_empty_patch g 0 1).
  - unfold widened_in_int, g. cbn. unfold CInt.INT_MIN, CInt.INT_MAX. lia.
  - lia.
  - cbn. lia.
Defined.

Local Open Scope Q_scope.

(** X18.  [in_null_strip]: a negative strip width switches the strip
    off; for a non-negative width every point of the first and of the
    last row and column of the grid is in the strip; a point in the
    strip of some width is in every wider strip. *)
Theorem in_null_strip_grows_with_width
  (x y : Z -> Q) (grid : IceGrid) (i j : Z) (strip_width wider : Q) :
  (strip_width < 0 -> in_null_strip x y grid i j strip_width = false) /\
  (0 <= strip_width ->
   (i = 0 \/ i = Mx grid - 1 \/ j = 0 \/ j = My grid - 1)%Z ->
   in_null_strip x y grid i j strip_width = true) /\
  (strip_width <= wider ->
   in_null_strip x y grid i j strip_width = true ->
   in_null_strip x y grid i j wider = true).
Proof.
  unfold in_null_strip. split; [|split].
  - intros Hneg. replace (Qle_bool 0 strip_width) with false; [reflexivity|].
    symmetry. apply not_true_is_false. rewrite Qle_bool_iff. lra.
  - intros Hw Hedge. apply andb_true_iff. split; [apply Qle_bool_iff; exact Hw|].
    rewrite !orb_true_iff, !Qle_bool_iff.
    destruct Hedge as [-> | [-> | [-> | ->]]]; lra.
  - intros Hle. rewrite !andb_true_iff, !orb_true_iff, !Qle_bool_iff.
    intros [H0 H]. split; [lra|].
    destruct H as [[[H | H] | H] | H]; lra.
Qed.

Lemma in_null_strip_grows_with_width_witness :
  let x := fun k : Z => inject_Z k in
  in_null_strip x x small_grid 0 0 (-1) = false /\
  in_null_strip x x small_grid 1 0 1 = true /\
  in_null_strip x x small_grid 1 1 2 = true.
Proof.
  intros x.
  destruct (in_null_strip_grows_with_width x x small_grid 0 0 (-1) 0) as [H1 _].
  destruct (in_null_strip_grows_with_width x x small_grid 1 0 1 1) as [_ [H2 _]].
  destruct (in_null_strip_grows_with_width x x small_grid 1 1 1 2) as [_ [_ H3]].
  split; [apply H1; reflexivity|].
  split; [apply H2; [discriminate | right; right; left; reflexivity]|].
  apply H3; [discriminate | reflexivity].
Defined.

End GridExtras.

(** ** remove_narrow_tongues.cc: what the routine leaves alone *)

Module TongueExtras.
Import Tongues TongueFacts.

Local Open Scope Q_scope.

Lemma memb_Permutation (x : Z * Z) (L L' : list (Z * Z)) :
  Permutation L L' -> NodeTypes.memb x L = NodeTypes.memb x L'.
Proof.
  intros HP. apply LoopFacts.bool_eq_iff. rewrite !NodeTypeFacts.memb_In.
  split; apply Permutation_in; [exact HP | now apply Permutation_sym].
Qed.

Lemma removed_not_skipped (geometry : Geometry) (i j : Z) :
  removed geometry (i, j) = true -> skipped geometry i j = false.
Proof.
  unfold removed. cbn [fst snd]. intros H%andb_true_iff.
  destruct H as [H _]. now apply negb_true_iff in H.
Qed.

(** The value of the whole routine at every cell, owned or not. *)
Lemma remove_narrow_tongues_everywhere
      (fuel : nat) (grid : Grid.IceGrid) (geometry : Geometry) (H : Z -> Z -> Q) :
  Grid.patch_ok grid 0 ->
  (Z.to_nat (Grid.xm grid) * Z.to_nat (Grid.ym grid) <= fuel)%nat ->
  exists H', remove_narrow_tongues fuel grid geometry H = Some H' /\
    forall i j,
      H' i j = if Grid.owns grid (i, j) && removed geometry (i, j) then 0 else H i j.
Proof.
  intros Hok Hfuel. unfold remove_narrow_tongues.
  rewrite (GridClaims.visit_Points grid fuel Hok Hfuel).
  eexists. split; [reflexivity|]. intros i j.
  rewrite remove_loop. now rewrite (DirichletExtras.owned_in_rectangle grid i j Hok).
Qed.

(** X19.  [remove_narrow_tongues] ends and only ever removes ice: the
    thickness of a cell is left as it was or set to 0.  It is left as
    it was at every cell that is not owned, at every ice-free cell,
    and at every cell of grounded ice whose bed is not below the sea
    level. *)
Theorem remove_narrow_tongues_only_removes_marine_ice
  (fuel : nat) (grid : Grid.IceGrid) (geometry : Geometry) (H : Z -> Z -> Q) :
  Grid.patch_ok grid 0 ->
  (Z.to_nat (Grid.xm grid) * Z.to_nat (Grid.ym grid) <= fuel)%nat ->
  exists H', remove_narrow_tongues fuel grid geometry H = Some H' /\
    forall i j,
      (H' i j = H i j \/ H' i j = 0) /\
      (Grid.owns grid (i, j) = false -> H' i j = H i j) /\
      (ice_free (cell_type geometry i j) = true -> H' i j = H i j) /\
      (grounded_ice (cell_type geometry i j) = true ->
       sea_level_elevation geometry i j <= bed_elevation geometry i j ->
       H' i j = H i j).
Proof.
  intros Hok Hfuel.
  destruct (remove_narrow_tongues_everywhere fuel grid geometry H Hok Hfuel)
    as (H' & HH' & Hval).
  exists H'. split; [exact HH'|]. intros i j. rewrite Hval.
  assert (Hskip : skipped geometry i j = true ->
                  (if Grid.owns grid (i, j) && removed geometry (i, j) then 0 else H i j)
                  = H i j).
  { intros Hs. destruct (removed geometry (i, j)) eqn:Er.
    - apply removed_not_skipped in Er. congruence.
    - now rewrite andb_false_r. }
  split; [|split; [|split]].
  - destruct (Grid.owns grid (i, j) && removed geometry (i, j)); [now right | now left].
  - intros ->. reflexivity.
  - intros Hfree. apply Hskip. unfold skipped. now rewrite Hfree.
  - intros Hg Hbed. apply Hskip. unfold skipped. rewrite Hg.
    apply Qle_bool_iff in Hbed. rewrite Hbed. apply orb_true_r.
Qed.

Lemma remove_narrow_tongues_only_removes_marine_ice_witness :
  exists H', remove_narrow_tongues 9 grid3 (marine tongue_mask) thick = Some H' /\
    forall i j,
      (H' i j = thick i j \/ H' i j = 0) /\
      (Grid.owns grid3 (i, j) = false -> H' i j = thick i j) /\
      (ice_free (cell_type (marine tongue_mask) i j) = true -> H' i j = thick i j) /\
      (grounded_ice (cell_type (marine tongue_mask) i j) = true ->
       sea_level_elevation (marine tongue_mask) i j <= bed_elevation (marine tongue_mask) i j ->
       H' i j = thick i j).
Proof.
  apply (remove_narrow_tongues_only_removes_marine_ice 9 grid3 (marine tongue_mask) thick).
  - exact TongueClaim.grid3_ok.
  - cbn. lia.
Defined.

(** X20.  The routine decides by the mask alone, so that the thickness
    can be updated in place: visiting the owned cells in any other
    order gives the same thickness at every cell, and a second pass
    with the same geometry changes nothing. *)
Theorem remove_narrow_tongues_ignores_traversal_order
  (fuel : nat) (grid : Grid.IceGrid) (geometry : Geometry) (H : Z -> Z -> Q) :
  Grid.patch_ok grid 0 ->
  (Z.to_nat (Grid.xm grid) * Z.to_nat (Grid.ym grid) <= fuel)%nat ->
  exists points H',
    Grid.visit fuel (Grid.Points_new grid) = Some points /\
    remove_narrow_tongues fuel grid geometry H = Some H' /\
    (forall other, Permutation points other ->
       forall i j, fold_left (remove_at geometry) other H i j = H' i j) /\
    (exists H'', remove_narrow_tongues fuel grid geometry H' = Some H'' /\
       forall i j, H'' i j = H' i j).
Proof.
  intros Hok Hfuel.
  pose proof (GridClaims.visit_Points grid fuel Hok Hfuel) as Hvisit.
  eexists. eexists. split; [exact Hvisit|].
  unfold remove_narrow_tongues. rewrite Hvisit.
  split; [reflexivity|]. split.
  - intros other HP i j. rewrite !remove_loop.
    now rewrite (memb_Permutation (i, j) _ _ HP).
  - eexists. split; [reflexivity|]. intros i j. rewrite !remove_loop.
    destruct (NodeTypes.memb (i, j) _ && removed geometry (i, j)); reflexivity.
Qed.

Lemma remove_narrow_tongues_ignores_traversal_order_witness :
  exists points H',
    Grid.visit 9 (Grid.Points_new grid3) = Some points /\
    remove_narrow_tongues 9 grid3 (marine tongue_mask) thick = Some H' /\
    (forall other, Permutation points other ->
       forall i j, fold_left (remove_at (marine tongue_mask)) other thick i j = H' i j) /\
    (exists H'', remove_narrow_tongues 9 grid3 (marine tongue_mask) H' = Some H'' /\
       forall i j, H'' i j = H' i j).
Proof.
  apply (remove_narrow_tongues_ignores_traversal_order 9 grid3 (marine tongue_mask) thick).
  - exact TongueClaim.grid3_ok.
  - cbn. lia.
Defined.

(** X21.  The test for a tip treats the four directions alike: it
    gives the same answer on the stencil turned by a quarter and on
    the stencil with east and west swapped.  A tip has ice in exactly
    one of its four direct neighbours. *)
Theorem is_tongue_tip_is_isotropic (f : BoxStencil bool) :
  is_tongue_tip (rotate_box f) = is_tongue_tip f /\
  is_tongue_tip (mirror_box f) = is_tongue_tip f /\
  (is_tongue_tip f = true -> direct_neighbours_with_ice f = 1%nat).
Proof.
  destruct f as [c fn fnw fw fsw fs fse fe fne].
  unfold is_tongue_tip, rotate_box, mirror_box, direct_neighbours_with_ice.
  cbn [ij n nw w sw s se e ne].
  destruct fn, fnw, fw, fsw, fs, fse, fe, fne; cbn; repeat split; congruence.
Qed.

Lemma is_tongue_tip_is_isotropic_witness :
  let f := ice_free_box tongue_mask 1 1 in
  is_tongue_tip (rotate_box f) = is_tongue_tip f /\
  is_tongue_tip (mirror_box f) = is_tongue_tip f /\
  direct_neighbours_with_ice f = 1%nat.
Proof.
  intros f. destruct (is_tongue_tip_is_isotropic f) as (H1 & H2 & H3).
  split; [exact H1 | split; [exact H2 | apply H3; reflexivity]].
Defined.

End TongueExtras.

(** ** PISMNullTransportHydrology.cc: the till water update *)

Module HydrologyExtras.
Import Hydrology.

Local Open Scope Q_scope.

Lemma less_lt (a b : Q) : less a b = true <-> a < b.
Proof.
  unfold less. rewrite negb_true_iff, <- not_true_iff_false, Qle_bool_iff. split.
  - apply Qnot_le_lt.
  - apply Qlt_not_le.
Qed.

Lemma PetscMax_bounds (a b : Q) : a <= PetscMax a b /\ b <= PetscMax a b.
Proof.
  unfold PetscMax. destruct (less a b) eqn:E.
  - apply less_lt in E. split; lra.
  - apply not_true_iff_false in E. rewrite less_lt in E. split; lra.
Qed.

Lemma PetscMin_bounds (a b : Q) :
  PetscMin a b <= a /\ PetscMin a b <= b /\ (PetscMin a b == a \/ PetscMin a b == b).
Proof.
  unfold PetscMin. destruct (less a b) eqn:E.
  - apply less_lt in E. repeat split; lra.
  - apply not_true_iff_false in E. rewrite less_lt in E. repeat split; lra.
Qed.

Lemma updated_cell_bounds
      (tillwat_max C : Q) (ocean ice_free : Z -> Z -> bool)
      (icedt : Q) (input : Z -> Z -> Q) (i j : Z) (w : Q) :
  0 <= tillwat_max ->
  0 <= updated_cell tillwat_max C ocean ice_free icedt input i j w <= tillwat_max.
Proof.
  intros Hmax. unfold updated_cell.
  destruct (ocean i j || ice_free i j); [lra|].
  set (v := w + icedt * (input i j - C)).
  destruct (PetscMax_bounds 0 v) as [H0 _].
  destruct (PetscMin_bounds (PetscMax 0 v) tillwat_max) as (_ & H2 & [E|E]); lra.
Qed.

Section Loop.

Variables tillwat_max C : Q.
Variables ocean ice_free : Z -> Z -> bool.
Variables (icedt : Q) (input : Z -> Z -> Q).

Lemma update_cell_value (W : Z -> Z -> Q) (p : Z * Z) (i j : Z) :
  update_cell tillwat_max C ocean ice_free icedt input W p i j =
  if NodeTypes.same_index (i, j) p
  then updated_cell tillwat_max C ocean ice_free icedt input i j (W i j)
  else W i j.
Proof.
  destruct p as [pi pj]. unfold update_cell, updated_cell, set, NodeTypes.same_index.
  cbn [fst snd].
  destruct ((i =? pi)%Z && (j =? pj)%Z) eqn:E.
  - apply andb_true_iff in E. destruct E as [->%Z.eqb_eq ->%Z.eqb_eq].
    destruct (ocean pi pj || ice_free pi pj); rewrite ?Z.eqb_refl; reflexivity.
  - destruct (ocean pi pj || ice_free pi pj); rewrite ?E; reflexivity.
Qed.

(** Each point of a list without repetitions is updated once. *)
Lemma update_loop (L : list (Z * Z)) :
  NoDup L ->
  forall (W : Z -> Z -> Q) (i j : Z),
    fold_left (update_cell tillwat_max C ocean ice_free icedt input) L W i j =
    if NodeTypes.memb (i, j) L
    then updated_cell tillwat_max C ocean ice_free icedt input i j (W i j)
    else W i j.
Proof.
  induction 1 as [|p L' Hnotin Hnodup IH]; intros W i j; [reflexivity|].
  cbn [fold_left]. rewrite IH, !update_cell_value.
  cbn [NodeTypes.memb existsb]. fold (NodeTypes.memb (i, j) L').
  destruct (NodeTypes.same_index (i, j) p) eqn:E.
  - apply NodeTypeFacts.same_index_eq in E. subst p.
    rewrite (NodeTypeFacts.memb_false _ _ Hnotin). reflexivity.
  - reflexivity.
Qed.

End Loop.

(** The test at the head of [update] holds for the interval that was
    stored. *)
Lemma same_interval (t : Q) : less (Qabs (t - t)) (1 # 1000000) = true.
Proof.
  apply less_lt.
  assert (E : t - t == 0) by ring.
  rewrite E. reflexivity.
Qed.

(** X22.  A call of [update] for a new time interval, with
    [hydrology_tillwat_max >= 0] and an input rate that was computed
    without error, ends with [return 0], stores the interval, and
    leaves the till water thickness of every owned cell between 0 and
    [hydrology_tillwat_max], whatever it was before: 0 on ocean and
    ice-free cells, the clipped sum [W + dt * (input - C)] elsewhere.
    Cells that are not owned keep their value. *)
Theorem update_keeps_till_water_within_bounds
  (grid : Grid.IceGrid) (tillwat_max C : Q) (ocean ice_free : Z -> Z -> bool)
  (get_input_rate : Q -> Q -> (Z -> Z -> Q) -> Z * (Z -> Z -> Q))
  (fuel : nat) (st : State) (icet icedt : Q) :
  Grid.patch_ok grid 0 ->
  (Z.to_nat (Grid.xm grid) * Z.to_nat (Grid.ym grid) <= fuel)%nat ->
  0 <= tillwat_max ->
  less (Qabs (icet - m_t st)) (1 # 1000000)
  && less (Qabs (icedt - m_dt st)) (1 # 1000000) = false ->
  fst (get_input_rate icet icedt (total_input st)) = 0%Z ->
  exists st',
    update grid tillwat_max C ocean ice_free get_input_rate fuel st icet icedt
    = Some (st', Returned 0) /\
    m_t st' = icet /\ m_dt st' = icedt /\
    total_input st' = snd (get_input_rate icet icedt (total_input st)) /\
    forall i j,
      (Grid.owns grid (i, j) = true ->
       0 <= Wtil st' i j <= tillwat_max /\
       Wtil st' i j = updated_cell tillwat_max C ocean ice_free icedt
                        (total_input st') i j (Wtil st i j)) /\
      (Grid.owns grid (i, j) = true -> ocean i j || ice_free i j = true ->
       Wtil st' i j = 0) /\
      (Grid.owns grid (i, j) = false -> Wtil st' i j = Wtil st i j).
Proof.
  intros Hok Hfuel Hmax Hnew Hrate. unfold update. rewrite Hnew.
  destruct (get_input_rate icet icedt (total_input st)) as [ierr input].
  cbn [fst snd] in *. subst ierr. cbn [Z.eqb negb].
  replace (less tillwat_max 0) with false
    by (symmetry; apply not_true_iff_false; rewrite less_lt; lra).
  rewrite (GridClaims.visit_Points grid fuel Hok Hfuel).
  eexists. split; [reflexivity|]. cbn [m_t m_dt Wtil total_input].
  split; [reflexivity|]. split; [reflexivity|]. split; [reflexivity|].
  intros i j.
  rewrite (update_loop tillwat_max C ocean ice_free icedt input)
    by apply GridFacts.NoDup_rectangle.
  rewrite (DirichletExtras.owned_in_rectangle grid i j Hok).
  split; [|split].
  - intros ->. split; [apply updated_cell_bounds; exact Hmax | reflexivity].
  - intros -> Hwet. unfold updated_cell. now rewrite Hwet.
  - intros ->. reflexivity.
Qed.

Lemma update_keeps_till_water_within_bounds_witness :
  exists st',
    update Grid.small_grid 2 (1 # 2) sample_ocean sample_ice_free sample_input_rate
           4 sample_state 1 1
    = Some (st', Returned 0) /\
    m_t st' = 1 /\ m_dt st' = 1 /\
    total_input st' = snd (sample_input_rate 1 1 (total_input sample_state)) /\
    forall i j,
      (Grid.owns Grid.small_grid (i, j) = true ->
       0 <= Wtil st' i j <= 2 /\
       Wtil st' i j = updated_cell 2 (1 # 2) sample_ocean sample_ice_free 1
                        (total_input st') i j (Wtil sample_state i j)) /\
      (Grid.owns Grid.small_grid (i, j) = true ->
       sample_ocean i j || sample_ice_free i j = true ->
       Wtil st' i j = 0) /\
      (Grid.owns Grid.small_grid (i, j) = false -> Wtil st' i j = Wtil sample_state i j).
Proof.
  apply (update_keeps_till_water_within_bounds
           Grid.small_grid 2 (1 # 2) sample_ocean sample_ice_free sample_input_rate
           4 sample_state 1 1).
  - unfold Grid.patch_ok. cbn. unfold CInt.INT_MIN, CInt.INT_MAX. lia.
  - cbn. lia.
  - discriminate.
  - reflexivity.
  - reflexivity.
Defined.

(** X23.  [update] does the work for a time interval once: whatever a
    call did (nothing, an update, a return with the error code of
    [get_input_rate], or the exception for a negative
    [hydrology_tillwat_max]), the next call for the same interval
    returns 0 and leaves the state as it is, since the interval is
    stored before anything can fail. *)
Theorem update_skips_repeated_interval
  (grid : Grid.IceGrid) (tillwat_max C : Q) (ocean ice_free : Z -> Z -> bool)
  (get_input_rate : Q -> Q -> (Z -> Z -> Q) -> Z * (Z -> Z -> Q))
  (fuel fuel' : nat) (st st' : State) (icet icedt : Q) (outcome : Outcome) :
  update grid tillwat_max C ocean ice_free get_input_rate fuel st icet icedt
  = Some (st', outcome) ->
  update grid tillwat_max C ocean ice_free get_input_rate fuel' st' icet icedt
  = Some (st', Returned 0).
Proof.
  intros Hfirst.
  assert (Hrepeat :
    less (Qabs (icet - m_t st')) (1 # 1000000)
    && less (Qabs (icedt - m_dt st')) (1 # 1000000) = true ->
    update grid tillwat_max C ocean ice_free get_input_rate fuel' st' icet icedt
    = Some (st', Returned 0)).
  { intros E. unfold update. now rewrite E. }
  apply Hrepeat. unfold update in Hfirst.
  destruct (less (Qabs (icet - m_t st)) (1 # 1000000)
            && less (Qabs (icedt - m_dt st)) (1 # 1000000)) eqn:E.
  - injection Hfirst as <- _. exact E.
  - destruct (get_input_rate icet icedt (total_input st)) as [ierr input].
    destruct (negb (ierr =? 0)%Z).
    + injection Hfirst as <- _. cbn [m_t m_dt]. now rewrite !same_interval.
    + destruct (less tillwat_max 0).
      * injection Hfirst as <- _. cbn [m_t m_dt]. now rewrite !same_interval.
      * destruct (Grid.visit fuel (Grid.Points_new grid)); [|discriminate].
        injection Hfirst as <- _. cbn [m_t m_dt]. now rewrite !same_interval.
Qed.

Lemma update_skips_repeated_interval_witness :
  exists st',
    update Grid.small_grid 2 (1 # 2) sample_ocean sample_ice_free sample_input_rate
           4 sample_state 1 1 = Some (st', Returned 0) /\
    update Grid.small_grid 2 (1 # 2) sample_ocean sample_ice_free sample_input_rate
           0 st' 1 1 = Some (st', Returned 0).
Proof.
  eexists. split; [reflexivity|].
  apply (update_skips_repeated_interval
           Grid.small_grid 2 (1 # 2) sample_ocean sample_ice_free sample_input_rate
           4 0 sample_state _ 1 1 (Returned 0)).
  reflexivity.
Defined.

(** X24.  A negative [hydrology_tillwat_max] makes a call for a new
    interval throw the [RuntimeError] (when [get_input_rate] returned
    0), for every grid and without visiting a point.  The till water
    thickness is untouched, but the interval and the input rate were
    stored before the check. *)
Theorem update_throws_on_negative_tillwat_max
  (grid : Grid.IceGrid) (tillwat_max C : Q) (ocean ice_free : Z -> Z -> bool)
  (get_input_rate : Q -> Q -> (Z -> Z -> Q) -> Z * (Z -> Z -> Q))
  (fuel : nat) (st : State) (icet icedt : Q) :
  tillwat_max < 0 ->
  less (Qabs (icet - m_t st)) (1 # 1000000)
  && less (Qabs (icedt - m_dt st)) (1 # 1000000) = false ->
  fst (get_input_rate icet icedt (total_input st)) = 0%Z ->
  update grid tillwat_max C ocean ice_free get_input_rate fuel st icet icedt
  = Some ({| m_t := icet; m_dt := icedt; Wtil := Wtil st;
             total_input := snd (get_input_rate icet icedt (total_input st)) |},
          Thrown tillwat_max_negative).
Proof.
  intros Hneg Hnew Hrate. unfold update. rewrite Hnew.
  destruct (get_input_rate icet icedt (total_input st)) as [ierr input].
  cbn [fst snd] in *. subst ierr. cbn [Z.eqb negb].
  replace (less tillwat_max 0) with true by (symmetry; apply less_lt; exact Hneg).
  reflexivity.
Qed.

Lemma update_throws_on_negative_tillwat_max_witness :
  update Grid.small_grid (-1) (1 # 2) sample_ocean sample_ice_free sample_input_rate
         0 sample_state 1 1
  = Some ({| m_t := 1; m_dt := 1; Wtil := Wtil sample_state;
             total_input := snd (sample_input_rate 1 1 (total_input sample_state)) |},
          Thrown tillwat_max_negative).
Proof.
  apply (update_throws_on_negative_tillwat_max
           Grid.small_grid (-1) (1 # 2) sample_ocean sample_ice_free sample_input_rate
           0 sample_state 1 1); reflexivity.
Defined.

End HydrologyExtras.

(** ** StressBalance_factory.cc: the models [create] accepts *)

Module FactoryExtras.
Import String StressBalanceFactory.

Local Open Scope string_scope.

Ltac model_cases model :=
  repeat match goal with
         | |- context [String.eqb model ?s] =>
             destruct (String.eqb_spec model s) as [->|?]
         end.

(** X25.  [create] builds a stress balance exactly for the nine model
    names it knows, and throws "invalid stress balance model: <name>"
    for every other string; the second [throw] of the source is never
    reached.  For "blatter" the modifier wraps the Blatter solver; for
    the other models it is the shallow-ice modifier ([SIAFD], or
    [SIAFD_Regional] in a regional run) when the name is "sia" or ends
    in "+sia", and [ConstantInColumn] otherwise. *)
Theorem create_accepts_the_known_models_only
  (get_number : string -> Z) (get_string : string -> string)
  (model : string) (regional : bool) :
  match create get_number get_string model regional with
  | StressBalance sliding modifier =>
      In model known_models /\
      (model = "blatter" -> modifier = BlatterMod sliding) /\
      (model <> "blatter" ->
       modifier = if member model sia_models
                  then (if regional then SIAFD_Regional else SIAFD)
                  else ConstantInColumn)
  | RuntimeError message =>
      ~ In model known_models /\
      message = "invalid stress balance model: " ++ model
  end.
Proof.
  unfold create, member, known_models, sia_models, invalid_model.
  cbn [existsb].
  model_cases model; cbn [orb];
    try destruct regional; try destruct (get_string _ =? "fem");
    first [ split; [cbn; tauto | split; [intros; congruence | intros; congruence]]
          | split; [cbn; tauto | split; [intros; congruence | intros; reflexivity]]
          | split; [ intros H; cbn in H;
                     repeat (destruct H as [H|H]; [congruence|]); exact H
                   | reflexivity ] ].
Qed.

(** X26.  The flag [regional] and the configuration string
    "stress_balance.ssa.method" matter for some models only: the
    sliding model depends on them for "ssa" and "ssa+sia" alone, where
    a regional run gets [SSAFD_Regional] whatever the method is, and
    "blatter" is built from the three Blatter parameters in the same
    way in a regional run and outside of it. *)
Theorem create_reads_regional_for_ssa_and_sia_only
  (get_number : string -> Z) (get_string get_string' : string -> string)
  (model : string) (regional : bool) :
  (model <> "ssa" -> model <> "ssa+sia" ->
   forall sliding modifier sliding' modifier',
     create get_number get_string model regional = StressBalance sliding modifier ->
     create get_number get_string' model (negb regional) = StressBalance sliding' modifier' ->
     sliding = sliding') /\
  (model = "ssa" \/ model = "ssa+sia" ->
   exists modifier, create get_number get_string model true
                    = StressBalance SSAFD_Regional modifier) /\
  create get_number get_string "blatter" regional
  = create get_number get_string' "blatter" (negb regional).
Proof.
  split; [|split].
  - intros Hssa Hsia sliding modifier sliding' modifier'.
    unfold create, member, invalid_model. cbn [existsb].
    model_cases model; cbn [orb]; try congruence;
      destruct regional; cbn [negb]; intros H1 H2; cbn in H1, H2; congruence.
  - intros [-> | ->]; eexists; reflexivity.
  - reflexivity.
Qed.

Lemma create_reads_regional_for_ssa_and_sia_only_witness :
  let get_number := fun _ : string => 3%Z in
  let get_string := fun _ : string => "fem" in
  let get_string' := fun _ : string => "fd" in
  (forall sliding modifier sliding' modifier',
     create get_number get_string "sia" true = StressBalance sliding modifier ->
     create get_number get_string' "sia" (negb true) = StressBalance sliding' modifier' ->
     sliding = sliding') /\
  (exists modifier, create get_number get_string "ssa" true
                    = StressBalance SSAFD_Regional modifier).
Proof.
  intros get_number get_string get_string'.
  destruct (create_reads_regional_for_ssa_and_sia_only
              get_number get_string get_string' "sia" true) as [H1 _].
  destruct (create_reads_regional_for_ssa_and_sia_only
              get_number get_string get_string' "ssa" true) as [_ [H2 _]].
  split; [apply H1; discriminate | apply H2; left; reflexivity].
Defined.

End FactoryExtras.

(** ** IP_L2NormFunctional.cc: value and inner product *)

Module L2NormExtras.
Import IP_L2NormFunctional2S.

Local Open Scope Q_scope.

(** Two loops that keep their accumulators equal. *)
Lemma fold_left_Qeq {X : Type} (f g : Q -> X -> Q) (l : list X) :
  (forall x a b, In x l -> a == b -> f a x == g b x) ->
  forall a b, a == b -> fold_left f l a == fold_left g l b.
Proof.
  induction l as [|x l IH]; intros Hstep a b Hab; cbn [fold_left]; [exact Hab|].
  apply IH.
  - intros y a' b' Hy. apply Hstep. now right.
  - apply Hstep; [now left | exact Hab].
Qed.

(** X27.  The local sums of the L2 functional, for any element and any
    interpolation [evaluate]: the inner product [dot] is symmetric,
    [valueAt(x)] is [dot(x, x)], and with non-negative quadrature
    weights [valueAt] is never negative. *)
Theorem valueAt_is_dot_with_itself
  (n_pts : nat) (weight : nat -> Q) (evaluate : list Q -> nat -> Q)
  (it : fem.ElementIterator.t) (a b x : Z -> Z -> Q) :
  dot n_pts weight evaluate it a b == dot n_pts weight evaluate it b a /\
  valueAt n_pts weight evaluate it x == dot n_pts weight evaluate it x x /\
  ((forall q, (q < n_pts)%nat -> 0 <= weight q) ->
   0 <= valueAt n_pts weight evaluate it x).
Proof.
  split; [|split].
  - unfold dot. apply fold_left_Qeq; [|reflexivity].
    intros ij v v' _ Hv. cbv zeta.
    apply fold_left_Qeq; [|exact Hv].
    intros q w w' _ Hw. rewrite Hw. ring.
  - unfold valueAt, dot. apply fold_left_Qeq; [|reflexivity].
    intros ij v v' _ Hv. cbv zeta.
    apply fold_left_Qeq; [|exact Hv].
    intros q w w' _ Hw. rewrite Hw. ring.
  - intros Hweight. unfold valueAt.
    apply (LoopFacts.fold_left_invariant (fun v : Q => 0 <= v)); [lra|].
    intros v ij _ Hv. cbv zeta.
    apply (LoopFacts.fold_left_invariant (fun v : Q => 0 <= v)); [exact Hv|].
    intros w q Hq%in_seq Hw.
    set (e := evaluate _ q).
    assert (Hsq : 0 <= e * e).
    { destruct (Qlt_le_dec e 0) as [Hneg|Hpos].
      - setoid_replace (e * e) with ((- e) * (- e)) by ring.
        apply Qmult_le_0_compat; lra.
      - apply Qmult_le_0_compat; assumption. }
    assert (Hterm : 0 <= weight q * (e * e)).
    { apply Qmult_le_0_compat; [apply Hweight; lia | exact Hsq]. }
    setoid_replace (weight q * e * e) with (weight q * (e * e)) by ring.
    lra.
Qed.

Lemma valueAt_is_dot_with_itself_witness :
  let weight := fun q : nat => 1 in
  let evaluate := fun (tmp : list Q) (q : nat) => nth q tmp 0 in
  let it := fem.ElementIterator.new Grid.small_grid in
  let x := fun j i : Z => inject_Z (i - j) in
  0 <= valueAt 4 weight evaluate it x.
Proof.
  intros weight evaluate it x.
  destruct (valueAt_is_dot_with_itself 4 weight evaluate it x x x) as (_ & _ & H).
  apply H. intros q _. discriminate.
Defined.

End L2NormExtras.

(** ** Poisson3.cc: the element matrix of [compute_jacobian] *)

Module Poisson3ElementExtras.
Import Blatter Poisson3Element.

Local Open Scope Q_scope.

Tactic Notation "each_index" ident(t) :=
  destruct t as [|[|[|[|[|[|[|[|t]]]]]]]]; [ | | | | | | | | lia ].

(** One quadrature point adds its term to the entries on and above
    the diagonal. *)
Lemma jacobian_point_value (element : Element3) (K : LocalMatrix) (q t s : nat) :
  (t < 8)%nat -> (s < 8)%nat ->
  jacobian_point element K q t s
  == K t s + (if (t <=? s)%nat then stiffness_term element t s q else 0).
Proof.
  intros Ht Hs. each_index t; each_index s;
    cbv [jacobian_point jacobian_entry add_to fold_left seq Nk Nat.sub Nat.eqb andb
         Nat.leb stiffness_term];
    ring.
Qed.

Lemma Qsum_succ (f : nat -> Q) (n : nat) : Qsum f (S n) == Qsum f n + f n.
Proof.
  unfold Qsum. rewrite seq_S, map_app. cbn [map Nat.add].
  induction (map f (seq 0 n)) as [|x l IH]; cbn [app fold_right]; [ring|].
  rewrite IH. ring.
Qed.

Lemma Qsum_ext (f g : nat -> Q) (n : nat) :
  (forall q, f q == g q) -> Qsum f n == Qsum g n.
Proof.
  intros H. induction n as [|n IH]; [reflexivity|].
  rewrite !Qsum_succ, IH, (H n). reflexivity.
Qed.

Lemma Qsum_plus (f g : nat -> Q) (n : nat) :
  Qsum f n + Qsum g n == Qsum (fun q => f q + g q) n.
Proof.
  induction n as [|n IH]; [unfold Qsum; cbn; ring|].
  rewrite !Qsum_succ, <- IH. ring.
Qed.

Lemma Qsum_zero (f : nat -> Q) (n : nat) :
  (forall q, (q < n)%nat -> f q == 0) -> Qsum f n == 0.
Proof.
  induction n as [|n IH]; intros H; [reflexivity|].
  rewrite Qsum_succ. rewrite IH by (intros; apply H; lia).
  rewrite (H n) by lia. ring.
Qed.

(** The loop over the quadrature points. *)
Lemma jacobian_points_value (element : Element3) (n : nat) (t s : nat) :
  (t < 8)%nat -> (s < 8)%nat ->
  fold_left (jacobian_point element) (seq 0 n) zero t s
  == if (t <=? s)%nat then Qsum (stiffness_term element t s) n else 0.
Proof.
  intros Ht Hs. induction n as [|n IH].
  - cbn. destruct (t <=? s)%nat; reflexivity.
  - rewrite seq_S, fold_left_app. cbn [fold_left Nat.add].
    rewrite jacobian_point_value by assumption. rewrite IH.
    destruct (t <=? s)%nat; [rewrite Qsum_succ|]; ring.
Qed.

(** The fill step copies the entries above the diagonal below it. *)
Lemma Poisson3_fill_value (K : LocalMatrix) (t s : nat) :
  (t < 8)%nat -> (s < 8)%nat ->
  fill_lower_triangle K t s = if (s <? t)%nat then K s t else K t s.
Proof.
  intros Ht Hs. each_index t; each_index s;
    cbv [fill_lower_triangle assign fold_left seq Nk Nat.eqb andb Nat.ltb Nat.leb];
    reflexivity.
Qed.

Lemma stiffness_term_sym (element : Element3) (t s q : nat) :
  stiffness_term element t s q == stiffness_term element s t q.
Proof. unfold stiffness_term. ring. Qed.

Lemma element_matrix_value (element : Element3) (t s : nat) :
  (t < 8)%nat -> (s < 8)%nat ->
  fill_lower_triangle (fold_left (jacobian_point element) (seq 0 (n_pts element)) zero) t s
  == Qsum (stiffness_term element t s) (n_pts element).
Proof.
  intros Ht Hs. rewrite Poisson3_fill_value by assumption.
  destruct (Nat.ltb_spec s t) as [Hlt|Hge].
  - rewrite jacobian_points_value by assumption.
    replace (s <=? t)%nat with true by (symmetry; apply Nat.leb_le; lia).
    apply Qsum_ext. intros q. apply stiffness_term_sym.
  - rewrite jacobian_points_value by assumption.
    replace (t <=? s)%nat with true by (symmetry; apply Nat.leb_le; lia).
    reflexivity.
Qed.

(** X28.  The element part of [Poisson3::compute_jacobian].  An
    element with an exterior node is skipped.  For every other element
    the matrix handed to [add_contribution], computed above the
    diagonal and copied below it, is the stiffness matrix: the entry
    [(t, s)] is the sum over the quadrature points of
    [W * (grad chi_s . grad chi_t)], for all [t] and [s], and the
    matrix is symmetric. *)
Theorem Poisson3_element_jacobian_is_stiffness_matrix
  (node_type : nat -> Z) (element : Element3) :
  match element_jacobian node_type element with
  | None => exists n, (n < Nk)%nat /\ node_type n = Poisson3.NODE_EXTERIOR
  | Some K =>
      (forall n, (n < Nk)%nat -> node_type n <> Poisson3.NODE_EXTERIOR) /\
      (forall t s, (t < Nk)%nat -> (s < Nk)%nat ->
         K t s == Qsum (stiffness_term element t s) (n_pts element) /\
         K t s == K s t)
  end.
Proof.
  unfold element_jacobian, Nk. destruct (exterior node_type) eqn:E.
  - unfold exterior in E. apply existsb_exists in E.
    destruct E as (n & Hn%in_seq & En%Z.eqb_eq). exists n. unfold Nk in Hn. split; [lia | exact En].
  - split.
    + intros n Hn Hext.
      assert (Hex : exterior node_type = true).
      { unfold exterior. apply existsb_exists. exists n. split.
        - apply in_seq. unfold Nk. lia.
        - apply Z.eqb_eq. exact Hext. }
      congruence.
    + intros t s Ht Hs. split.
      * apply element_matrix_value; assumption.
      * rewrite !element_matrix_value by assumption.
        apply Qsum_ext. intros q. apply stiffness_term_sym.
Qed.

(** X29.  Constants are in the kernel of the element matrix: when the
    gradients of the eight shape functions add up to zero at every
    quadrature point (the shape functions form a partition of unity),
    every row of the matrix of an element without exterior nodes sums
    to zero. *)
Theorem Poisson3_element_jacobian_rows_sum_to_zero
  (node_type : nat -> Z) (element : Element3) (t : nat) :
  (forall q, (q < n_pts element)%nat ->
     Qsum (fun s => dx (chi element q s)) Nk == 0 /\
     Qsum (fun s => dy (chi element q s)) Nk == 0 /\
     Qsum (fun s => dz (chi element q s)) Nk == 0) ->
  exterior node_type = false ->
  (t < Nk)%nat ->
  exists K, element_jacobian node_type element = Some K /\
            Qsum (fun s => K t s) Nk == 0.
Proof.
  intros Hpou Hint Ht. unfold element_jacobian. rewrite Hint.
  eexists. split; [reflexivity|]. unfold Nk in *.
  set (K := fill_lower_triangle _).
  assert (HK : forall s, (s < 8)%nat ->
            K t s == Qsum (stiffness_term element t s) (n_pts element)).
  { intros s Hs. apply element_matrix_value; assumption. }
  unfold Qsum at 1. cbn [seq map fold_right].
  rewrite !HK by lia.
  rewrite Qplus_0_r, !Qsum_plus.
  apply Qsum_zero. intros q Hq.
  destruct (Hpou q Hq) as (Hx & Hy & Hz).
  unfold Qsum in Hx, Hy, Hz. cbn [seq map fold_right] in Hx, Hy, Hz.
  unfold stiffness_term.
  set (g := chi element q) in *.
  transitivity
    (weight element q *
     ((dx (g 0%nat) + (dx (g 1%nat) + (dx (g 2%nat) + (dx (g 3%nat) + (dx (g 4%nat)
        + (dx (g 5%nat) + (dx (g 6%nat) + (dx (g 7%nat) + 0)))))))) * dx (g t)
      + (dy (g 0%nat) + (dy (g 1%nat) + (dy (g 2%nat) + (dy (g 3%nat) + (dy (g 4%nat)
        + (dy (g 5%nat) + (dy (g 6%nat) + (dy (g 7%nat) + 0)))))))) * dy (g t)
      + (dz (g 0%nat) + (dz (g 1%nat) + (dz (g 2%nat) + (dz (g 3%nat) + (dz (g 4%nat)
        + (dz (g 5%nat) + (dz (g 6%nat) + (dz (g 7%nat) + 0)))))))) * dz (g t)));
    [ring|].
  rewrite Hx, Hy, Hz. ring.
Qed.

Lemma Poisson3_element_jacobian_rows_sum_to_zero_witness :
  exists K, element_jacobian (fun _ => Poisson3.NODE_INTERIOR) alternating_element = Some K /\
            Qsum (fun s => K 3%nat s) Nk == 0.
Proof.
  apply (Poisson3_element_jacobian_rows_sum_to_zero
           (fun _ => Poisson3.NODE_INTERIOR) alternating_element 3).
  - intros q Hq. cbn [n_pts alternating_element] in Hq.
    destruct q as [|[|q]]; [| |lia]; repeat split; vm_compute; reflexivity.
  - reflexivity.
  - unfold Nk. lia.
Defined.

End Poisson3ElementExtras.

(** ** Blatter.cc: no basal drag under floating ice *)

Module BlatterExtras.
Import Blatter LoopFacts.

Local Open Scope Q_scope.

Lemma add_to_zero (K K0 : LocalMatrix) (r c : nat) (x : Q) :
  x == 0 -> (forall r' c', K r' c' == K0 r' c') ->
  forall r' c', add_to K r c x r' c' == K0 r' c'.
Proof.
  intros Hx HK r' c'. unfold add_to.
  destruct (Nat.eqb r' r && Nat.eqb c' c); rewrite HK; [rewrite Hx; ring | reflexivity].
Qed.

(** X30.  [jacobian_basal] adds nothing under floating ice: when the
    floatation function is positive at every quadrature point of the
    face, no entry of the element matrix changes, whatever the sliding
    law, the yield stress and the velocity are. *)
Theorem jacobian_basal_adds_nothing_when_floating
  (face_evaluate : Q1Element3Face -> (nat -> Vector2) -> nat -> Vector2)
  (face_evaluate_scalar : Q1Element3Face -> (nat -> Q) -> nat -> Q)
  (drag_with_derivative : Q -> Q -> Q -> Q * Q)
  (face : Q1Element3Face) (tauc_nodal f_nodal : nat -> Q) (velocity : nat -> Vector2)
  (K : LocalMatrix) (r c : nat) :
  (forall q, (q < face_n_pts face)%nat -> 0 < face_evaluate_scalar face f_nodal q) ->
  jacobian_basal face_evaluate face_evaluate_scalar drag_with_derivative
                 face tauc_nodal f_nodal velocity K r c
  == K r c.
Proof.
  intros Hfloat. revert r c. unfold jacobian_basal.
  apply (fold_left_invariant (fun M : LocalMatrix => forall r c, M r c == K r c));
    [reflexivity|].
  intros K0 q Hq%in_seq H0. unfold jacobian_basal_point.
  replace (Qle_bool (face_evaluate_scalar face f_nodal q) 0) with false.
  2:{ symmetry. apply not_true_iff_false. rewrite Qle_bool_iff.
      apply Qlt_not_le. apply Hfloat. lia. }
  apply (fold_left_invariant (fun M : LocalMatrix => forall r c, M r c == K r c));
    [exact H0|].
  intros K1 t _ H1.
  apply (fold_left_invariant (fun M : LocalMatrix => forall r c, M r c == K r c));
    [exact H1|].
  intros K2 s _ H2. unfold jacobian_basal_entry. cbv zeta.
  repeat (apply add_to_zero; [ring|]). exact H2.
Qed.

Lemma jacobian_basal_adds_nothing_when_floating_witness :
  jacobian_basal (fun _ x _ => x 0%nat) (fun _ x _ => x 0%nat) (fun tauc a b => (tauc, a + b))
                 sample_face (fun _ => 3) (fun _ => 1) sample_velocity zero 2%nat 5%nat
  == zero 2%nat 5%nat.
Proof.
  apply (jacobian_basal_adds_nothing_when_floating
           (fun _ x _ => x 0%nat) (fun _ x _ => x 0%nat) (fun tauc a b => (tauc, a + b))
           sample_face (fun _ => 3) (fun _ => 1) sample_velocity zero 2%nat 5%nat).
  intros q _. reflexivity.
Defined.

End BlatterExtras.
